(** * Context-window usage accounting (src/hooks/useContextWindowUsage.ts)

    A shallow embedding of the token-usage aggregator of the chat client:
    the usage extractors for the generic and the Codex engines, the
    resolution of the context-window size, the percentage computation and
    the K/M formatting, together with the properties the specification
    states about them.

    Conventions of the embedding.
    - Messages are JavaScript objects ([ClaudeStreamMessage]); their fields
      hold arbitrary JavaScript values ([JsValue]).
    - The numbers found in messages and the token counts are integers ([Z]):
      JavaScript holds an integer below 2^53 exactly, and sums of token counts
      stay below that.  Where the source divides or multiplies, the operands
      become IEEE 754 doubles ([number], the binary64 format of the Standard
      Library's [SpecFloat]) and the operation is the one of the standard,
      rounded to nearest, with its infinities, signed zeros and NaN.  The
      exponent notation that [toFixed] switches to from 10^21 on is outside
      the model.
    - [useMemo] caches a pure computation; the hook is the computation.

    The second part covers the rest of lib/utils.ts (the total of a usage,
    the validation of sessions), the filter and the pages of the session list
    that calls it, and the slash commands of slashCommands.ts.  There a string
    whose characters are inspected ([trim], [includes]) is the list of its
    UTF-16 code units. *)

From stdpp Require Import gmap strings list pretty.
From Stdlib Require Import Ascii QArith Qcanon Qround Qpower SpecFloat Lqa.

#[local] Set Warnings "-register-all".
#[local] Open Scope Z_scope.

(** ** JavaScript values *)

Inductive JsValue : Type :=
| JUndefined
| JNull
| JBool (b : bool)
| JNumber (z : Z)
| JString (s : string)
| JObject (fields : gmap string JsValue).

(** A message of the session, as the hook receives it: an object. *)
Abbreviation ClaudeStreamMessage := (gmap string JsValue).

(** [message.k] on a message. *)
Definition prop (message : gmap string JsValue) (k : string) : JsValue :=
  default JUndefined (message !! k).

(** [v?.k] on an arbitrary value: [undefined] on [undefined] and [null], the
    field on an object, and [undefined] on the primitives (none of the names
    read by the hook is a property of a boxed primitive).  The one plain
    access [message.codexMetadata.usage] of the source is evaluated only
    after [message.codexMetadata?.usage] was truthy, where both agree. *)
Definition member (v : JsValue) (k : string) : JsValue :=
  match v with
  | JObject o => prop o k
  | _ => JUndefined
  end.

(** ToBoolean. *)
Definition truthy (v : JsValue) : bool :=
  match v with
  | JUndefined | JNull => false
  | JBool b => b
  | JNumber z => negb (z =? 0)
  | JString s => negb (String.eqb s "")
  | JObject _ => true
  end.

Definition typeof (v : JsValue) : string :=
  match v with
  | JUndefined => "undefined"
  | JNull => "object"
  | JBool _ => "boolean"
  | JNumber _ => "number"
  | JString _ => "string"
  | JObject _ => "object"
  end.

(** [a || b] *)
Definition js_or (a b : JsValue) : JsValue := if truthy a then a else b.

(** [u && typeof u === 'object'] *)
Definition is_object (u : JsValue) : bool :=
  truthy u && bool_decide (typeof u = "object").

(** [x || 0] on a number. *)
Definition or_zero (x : Z) : Z := if x =? 0 then 0 else x.

(** ** Usage records *)

(** The record returned by [normalizeRawUsage] (lib/tokenExtractor.ts), with
    the fields [normalizeUsageData] reads. *)
Module TokenExtractor.
Record StandardizedTokenUsage : Type := {
  input_tokens : Z;
  output_tokens : Z;
  cache_creation_tokens : Z;
  cache_read_tokens : Z;
}.
End TokenExtractor.

(** lib/utils.ts *)
Record UsageData : Type := {
  input_tokens : Z;
  output_tokens : Z;
  cache_creation_tokens : Z;
  cache_read_tokens : Z;
  cache_creation_input_tokens : Z;
  cache_read_input_tokens : Z;
}.

(** The four-field record of the indicator (and the [breakdown] of the
    result). *)
Record Usage : Type := {
  inputTokens : Z;
  outputTokens : Z;
  cacheCreationTokens : Z;
  cacheReadTokens : Z;
}.

Inductive ContextUsageLevel : Type := low | medium | high | critical.

Record UseContextWindowUsageResult : Type := {
  currentTokens : Z;
  contextWindowSize : Z;
  percentage : spec_float;
  breakdown : Usage;
  level : ContextUsageLevel;
  hasData : bool;
  formattedPercentage : string;
  formattedTokens : string;
}.

(** [a.x > 0 || a.y > 0 || ...] *)
Definition nontrivial (u : Usage) : bool :=
  (0 <? inputTokens u) || (0 <? outputTokens u) ||
  (0 <? cacheCreationTokens u) || (0 <? cacheReadTokens u).

Definition zeroUsage : Usage :=
  {| inputTokens := 0; outputTokens := 0;
     cacheCreationTokens := 0; cacheReadTokens := 0 |}.

(** The running totals of the summing loop. *)
Definition addUsage (a b : Usage) : Usage :=
  {| inputTokens := inputTokens a + inputTokens b;
     outputTokens := outputTokens a + outputTokens b;
     cacheCreationTokens := cacheCreationTokens a + cacheCreationTokens b;
     cacheReadTokens := cacheReadTokens a + cacheReadTokens b |}.

(** ** Numbers *)

(** A JavaScript number is an IEEE 754 double: binary64, that is, 53 bits
    of precision and the exponent of the infinities 1024. *)
Abbreviation number := spec_float.

(** An integer as a number: the nearest double (the integer itself below
    2^53, an infinity from 2^1024 on). *)
Definition Number (z : Z) : number := binary_normalize 53 1024 z 0 false.

(** [a / b] and [a * b] *)
Definition Number_div : number -> number -> number := SFdiv 53 1024.
Definition Number_mul : number -> number -> number := SFmul 53 1024.

(** [a <= b] *)
Definition Number_le (a b : number) : Prop := SFleb a b = true.

(** [Math.min]: NaN when an argument is NaN, and -0 below +0. *)
Definition Math_min (a b : number) : number :=
  match SFcompare a b with
  | None => S754_nan
  | Some Lt => a
  | Some Gt => b
  | Some Eq => match a with S754_zero true => a | _ => b end
  end.

(** [Number.isSafeInteger] *)
Definition safe_integer (z : Z) : Prop :=
  -9007199254740992 < z < 9007199254740992.

(** The value of a finite number, as a rational: mantissa times a power of
    two. *)
Definition pow2 (g : Z) : Q := (2 ^ g)%Q.

Definition exact (x : number) : Q :=
  match x with
  | S754_finite s m e =>
    if s then (- (inject_Z (Z.pos m) * pow2 e))%Q
    else (inject_Z (Z.pos m) * pow2 e)%Q
  | _ => 0%Q
  end.

(** ** Number formatting *)

(** The digits [Number.prototype.toFixed(f)] writes for a finite number of
    value [x], after the algorithm of the language definition: the sign is
    split off, [n] is the integer for which [n / 10^f - x] is as close to
    zero as possible (the larger one of two), its digits are padded with
    zeros to [f + 1] characters and the point is put before the last [f] of
    them. *)
Definition nearest (x : Qc) : Z := Qfloor (x + Q2Qc (1 # 2))%Qc.

Fixpoint zeros (n : nat) : string :=
  match n with
  | O => ""
  | S n => String "0"%char (zeros n)
  end.

Definition decimal (x : Qc) (f : nat) : string :=
  let s := if decide (x < 0)%Qc then "-" else "" in
  let x := if decide (x < 0)%Qc then (- x)%Qc else x in
  let n := nearest (x * Qc_of_Z (10 ^ Z.of_nat f))%Qc in
  let m := if n =? 0 then "0" else pretty n in
  let m :=
    match f with
    | O => m
    | _ =>
      let k := String.length m in
      let m := if (k <=? f)%nat then zeros (f + 1 - k) +:+ m else m in
      let k := if (k <=? f)%nat then (f + 1)%nat else k in
      String.substring 0 (k - f) m +:+ "." +:+ String.substring (k - f) f m
    end in
  s +:+ m.

(** [x.toFixed(f)]: a number that is not finite is written by name, a
    finite one by the digits of its value (below 10^21, where the numbers
    formatted by the hook lie). *)
Definition toFixed (x : number) (f : nat) : string :=
  match x with
  | S754_nan => "NaN"
  | S754_infinity s => if s then "-Infinity" else "Infinity"
  | _ => decimal (Q2Qc (exact x)) f
  end.

(** [formatK], lines 289-297. *)
Definition formatK (n : Z) : string :=
  if 1000000 <=? n then
    toFixed (Number_div (Number n) (Number 1000000)) 1 +:+ "M"
  else if 1000 <=? n then
    toFixed (Number_div (Number n) (Number 1000)) 1 +:+ "K"
  else pretty n.

(** [v === s] for a string literal [s]. *)
Definition strict_eq_string (v : JsValue) (s : string) : bool :=
  match v with
  | JString t => String.eqb t s
  | _ => false
  end.

(** [typeof v === 'number' && v > 0], with the number when it holds. *)
Definition positive_number (v : JsValue) : option Z :=
  match v with
  | JNumber z => if 0 <? z then Some z else None
  | _ => None
  end.

(** ** Loops *)

(** [for (let i = l.length - 1; i >= 0; i--) { body(l[i]) }] for a body that
    either leaves the loop with a value ([return], or an assignment followed
    by [break]) or goes on to the next index.  The counter [n] is [i + 1];
    an index out of range does not occur from [n = length l] and is passed
    over. *)
Fixpoint for_down {A B : Type} (body : A -> option B) (l : list A) (n : nat)
  : option B :=
  match n with
  | O => None
  | S i =>
    match l !! i with
    | Some x =>
      match body x with
      | Some r => Some r
      | None => for_down body l i
      end
    | None => for_down body l i
    end
  end.

(** ** The hook *)

Section Hook.

(** Collaborators that live outside the hook: [normalizeRawUsage] of
    lib/tokenExtractor.ts, the static table [getContextWindowSize] of
    lib/tokenCounter.ts and the classifier [getUsageLevel] of
    types/contextWindow.ts. *)
Variable normalizeRawUsage : JsValue -> TokenExtractor.StandardizedTokenUsage.
Variable getContextWindowSize : option string -> option string -> Z.
Variable getUsageLevel : number -> ContextUsageLevel.

(** lib/utils.ts, [normalizeUsageData]. *)
Definition normalizeUsageData (usage : JsValue) : UsageData :=
  let standardized := normalizeRawUsage usage in
  {| input_tokens := TokenExtractor.input_tokens standardized;
     output_tokens := TokenExtractor.output_tokens standardized;
     cache_creation_tokens := TokenExtractor.cache_creation_tokens standardized;
     cache_read_tokens := TokenExtractor.cache_read_tokens standardized;
     cache_creation_input_tokens :=
       TokenExtractor.cache_creation_tokens standardized;
     cache_read_input_tokens := TokenExtractor.cache_read_tokens standardized |}.

(** Lines 61-74. *)
Definition normalizeUsageForIndicator (rawUsage : JsValue) : Usage :=
  let normalized := normalizeUsageData rawUsage in
  {| inputTokens := or_zero (input_tokens normalized);
     outputTokens := or_zero (output_tokens normalized);
     cacheCreationTokens := or_zero (cache_creation_tokens normalized);
     cacheReadTokens := or_zero (cache_read_tokens normalized) |}.

(** Lines 49-59; the result is an object or [null]. *)
Definition getUsageCandidate (message : gmap string JsValue)
    (engine : option string) : JsValue :=
  let usage := js_or (prop message "usage")
                     (member (prop message "message") "usage") in
  if is_object usage then usage
  else if bool_decide (engine = Some "codex")
          && is_object (member (prop message "codexMetadata") "usage")
  then member (prop message "codexMetadata") "usage"
  else JNull.

(** The body of the loop of [extractCurrentUsage], lines 84-96. *)
Definition currentUsageAt (engine : option string)
    (message : gmap string JsValue) : option Usage :=
  let usage := getUsageCandidate message engine in
  if negb (truthy usage) then None
  else
    let normalized := normalizeUsageForIndicator usage in
    if nontrivial normalized then Some normalized else None.

(** Lines 76-100. *)
Definition extractCurrentUsage (messages : list (gmap string JsValue))
    (engine : option string) : option Usage :=
  for_down (currentUsageAt engine) messages (length messages).

(** The body of the first loop of [extractCodexCumulativeUsage], lines
    120-134. *)
Definition cumulativeUsageAt (msg : gmap string JsValue) : option Usage :=
  let cumulativeUsage := member (prop msg "codexMetadata") "usage" in
  if is_object cumulativeUsage then
    let normalized := normalizeUsageForIndicator cumulativeUsage in
    if nontrivial normalized then Some normalized else None
  else None.

(** The body of the second loop, lines 146-169, on the running totals and
    the flag [foundAny]. *)
Definition sumStep (acc : Usage * bool) (msg : gmap string JsValue)
    : Usage * bool :=
  if strict_eq_string (member (prop msg "codexMetadata") "codexItemType")
                      "thread_token_usage_updated"
  then acc
  else
    let rawUsage := prop msg "usage" in
    if is_object rawUsage then
      let normalized := normalizeUsageForIndicator rawUsage in
      if nontrivial normalized then (addUsage acc.1 normalized, true)
      else acc
    else acc.

(** Lines 112-176. *)
Definition extractCodexCumulativeUsage (messages : list (gmap string JsValue))
    : option Usage :=
  match for_down cumulativeUsageAt messages (length messages) with
  | Some normalized => Some normalized
  | None =>
    let '(totals, foundAny) := fold_left sumStep messages (zeroUsage, false) in
    if foundAny then Some totals else None
  end.

(** The body of the loop of lines 207-213. *)
Definition runtimeContextWindowAt (msg : gmap string JsValue) : option Z :=
  positive_number (member (prop msg "codexMetadata") "modelContextWindow").

(** Lines 203-214: the window size the hook works with. *)
Definition resolveContextWindowSize (messages : list (gmap string JsValue))
    (model engine : option string) : Z :=
  let contextWindowSize := getContextWindowSize model engine in
  if bool_decide (engine = Some "codex") then
    match for_down runtimeContextWindowAt messages (length messages) with
    | Some maybeCtx => maybeCtx
    | None => contextWindowSize
    end
  else contextWindowSize.

(** Lines 217-231. *)
Definition defaultResult (contextWindowSize : Z) : UseContextWindowUsageResult :=
  {| currentTokens := 0;
     contextWindowSize := contextWindowSize;
     percentage := Number 0;
     breakdown := zeroUsage;
     level := low;
     hasData := false;
     formattedPercentage := "0%";
     formattedTokens := "0 / " +:+ formatK contextWindowSize |}.

(** Lines 239-241. *)
Definition extractUsage (messages : list (gmap string JsValue))
    (engine : option string) : option Usage :=
  if bool_decide (engine = Some "codex")
  then extractCodexCumulativeUsage messages
  else extractCurrentUsage messages engine.

(** Lines 256-258. *)
Definition percentageOf (currentTokens contextWindowSize : Z) : number :=
  if 0 <? contextWindowSize then
    Math_min (Number_mul (Number_div (Number currentTokens)
                                     (Number contextWindowSize))
                         (Number 100))
             (Number 100)
  else Number 0.

(** Lines 196-284. *)
Definition useContextWindowUsage (messages : list (gmap string JsValue))
    (model engine : option string) : UseContextWindowUsageResult :=
  let contextWindowSize := resolveContextWindowSize messages model engine in
  if (length messages =? 0)%nat then defaultResult contextWindowSize
  else
    match extractUsage messages engine with
    | None => defaultResult contextWindowSize
    | Some currentUsage =>
      let currentTokens :=
        inputTokens currentUsage + cacheCreationTokens currentUsage
        + cacheReadTokens currentUsage in
      let percentage := percentageOf currentTokens contextWindowSize in
      let level := getUsageLevel percentage in
      let formattedPercentage := toFixed percentage 1 +:+ "%" in
      let formattedTokens :=
        formatK currentTokens +:+ " / " +:+ formatK contextWindowSize in
      {| currentTokens := currentTokens;
         contextWindowSize := contextWindowSize;
         percentage := percentage;
         breakdown :=
           {| inputTokens := inputTokens currentUsage;
              outputTokens := outputTokens currentUsage;
              cacheCreationTokens := cacheCreationTokens currentUsage;
              cacheReadTokens := cacheReadTokens currentUsage |};
         level := level;
         hasData := true;
         formattedPercentage := formattedPercentage;
         formattedTokens := formattedTokens |}
    end.

End Hook.

(** Modelled from the spec: [normalizeRawUsage] of lib/tokenExtractor.ts,
    which is not among the sources.  Every field is coerced to a
    non-negative integer, a missing, non-numeric or negative value counts as
    0, and of two aliases of one quantity a single one is taken (the API
    name first); Codex's [cached_input_tokens] is a cache-read count. *)
Definition countOf (v : JsValue) : Z :=
  match v with
  | JNumber z => Z.max 0 z
  | _ => 0
  end.

Definition firstCount (a b : Z) : Z := if a =? 0 then b else a.

Definition normalizeRawUsage_model (usage : JsValue)
  : TokenExtractor.StandardizedTokenUsage :=
  {| TokenExtractor.input_tokens := countOf (member usage "input_tokens");
     TokenExtractor.output_tokens := countOf (member usage "output_tokens");
     TokenExtractor.cache_creation_tokens :=
       firstCount (countOf (member usage "cache_creation_input_tokens"))
                  (countOf (member usage "cache_creation_tokens"));
     TokenExtractor.cache_read_tokens :=
       firstCount (countOf (member usage "cache_read_input_tokens"))
         (firstCount (countOf (member usage "cache_read_tokens"))
                     (countOf (member usage "cached_input_tokens"))) |}.

(** A static table and a classifier to run the hook on examples. *)
Definition sampleContextWindowSize (model engine : option string) : Z :=
  if bool_decide (engine = Some "codex") then 128000 else 200000.

Definition sampleUsageLevel (p : number) : ContextUsageLevel :=
  if SFltb p (Number 50) then low
  else if SFltb p (Number 75) then medium
  else if SFltb p (Number 90) then high
  else critical.

(** The contract of the normalizer the hook relies on: counts are not
    negative. *)
Definition nonnegative (normalize : JsValue -> TokenExtractor.StandardizedTokenUsage)
  : Prop :=
  forall u,
    0 <= TokenExtractor.input_tokens (normalize u) /\
    0 <= TokenExtractor.output_tokens (normalize u) /\
    0 <= TokenExtractor.cache_creation_tokens (normalize u) /\
    0 <= TokenExtractor.cache_read_tokens (normalize u).

(** No count of a usage is negative. *)
Definition nonnegUsage (u : Usage) : Prop :=
  0 <= inputTokens u /\ 0 <= outputTokens u /\
  0 <= cacheCreationTokens u /\ 0 <= cacheReadTokens u.

(** ** Sample messages *)

Definition usageFields (input output creation read : Z) : gmap string JsValue :=
  <["input_tokens" := JNumber input]>
    (<["output_tokens" := JNumber output]>
    (<["cache_creation_input_tokens" := JNumber creation]>
    (<["cache_read_input_tokens" := JNumber read]> ∅))).

Definition usageObject (input output creation read : Z) : JsValue :=
  JObject (usageFields input output creation read).

(** A message with a direct [usage]. *)
Definition deltaMessage (u : JsValue) : gmap string JsValue :=
  <["type" := JString "assistant"]> (<["usage" := u]> ∅).

(** A message with its usage under [message]. *)
Definition nestedMessage (u : JsValue) : gmap string JsValue :=
  <["type" := JString "assistant"]>
    (<["message" := JObject (<["usage" := u]> ∅)]> ∅).

(** A Codex message with a cumulative snapshot in its metadata. *)
Definition snapshotMessage (u : JsValue) : gmap string JsValue :=
  <["type" := JString "system"]>
    (<["codexMetadata" :=
         JObject (<["codexItemType" := JString "token_count"]>
                 (<["usage" := u]> ∅))]> ∅).

(** A Codex message that reports the window of the running engine. *)
Definition windowMessage (w : JsValue) : gmap string JsValue :=
  <["type" := JString "system"]>
    (<["codexMetadata" := JObject (<["modelContextWindow" := w]> ∅)]> ∅).

(** A [thread_token_usage_updated] message: its direct usage is a total. *)
Definition cumulativeUpdateMessage (u : JsValue) : gmap string JsValue :=
  <["usage" := u]>
    (<["codexMetadata" :=
         JObject (<["codexItemType" := JString "thread_token_usage_updated"]> ∅)]>
     ∅).

Definition plainMessage : gmap string JsValue :=
  <["type" := JString "user"]> ∅.

(** A Codex history: a turn, a cumulative snapshot, two more turns. *)
Definition snapshotHistory : list (gmap string JsValue) :=
  [deltaMessage (usageObject 5 1 0 0);
   snapshotMessage (usageObject 1000 7 0 0);
   deltaMessage (usageObject 20 0 0 0);
   deltaMessage (usageObject 30 0 0 0)].

(** A live Codex conversation: three turns and no snapshot. *)
Definition deltaHistory : list (gmap string JsValue) :=
  [deltaMessage (usageObject 10 0 0 0);
   deltaMessage (usageObject 20 0 0 0);
   deltaMessage (usageObject 30 0 0 0)].

(** A Claude conversation: the last usage with data is followed by a
    message without usage and by one whose usage is all zero. *)
Definition claudeHistory : list (gmap string JsValue) :=
  [nestedMessage (usageObject 7 0 0 0);
   deltaMessage (usageObject 40 2 0 0);
   plainMessage;
   deltaMessage (usageObject 0 0 0 0)].

(** A Codex conversation in a window of 1000 tokens reported by the engine. *)
Definition windowHistory : list (gmap string JsValue) :=
  [windowMessage (JNumber 1000);
   deltaMessage (usageObject 1500 0 0 0);
   windowMessage (JNumber 0)].

(** ** The claims' vocabulary *)

(** The usage of a message for the engines other than Codex: its direct
    [usage] when there is one, else the one under its [message]. *)
Definition usageOf (message : gmap string JsValue) : JsValue :=
  if truthy (prop message "usage") then prop message "usage"
  else member (prop message "message") "usage".

(** The cumulative snapshot in the Codex metadata of a message. *)
Definition snapshotOf (msg : gmap string JsValue) : JsValue :=
  member (prop msg "codexMetadata") "usage".

(** The message is tagged as a cumulative update. *)
Definition cumulativeUpdate (msg : gmap string JsValue) : bool :=
  match member (prop msg "codexMetadata") "codexItemType" with
  | JString t => bool_decide (t = "thread_token_usage_updated")
  | _ => false
  end.

(** The window size a message reports for the running engine. *)
Definition reportedWindowOf (msg : gmap string JsValue) : JsValue :=
  member (prop msg "codexMetadata") "modelContextWindow".

(** Field-wise sum of a list of usages. *)
Definition sumUsage (l : list Usage) : Usage := foldr addUsage zeroUsage l.

(** The direct usage data of a message that is not tagged as a cumulative
    update. *)
Definition directUsageOf (msg : gmap string JsValue) : option JsValue :=
  if cumulativeUpdate msg then None
  else
    match prop msg "usage" with
    | JObject o => Some (JObject o)
    | _ => None
    end.

(** A value [x] rounded to one decimal place, in decimal notation: the
    number of tenths nearest to [|x|], written as its integer part, a point
    and one digit, after the sign. *)
Definition oneDecimalOf (x : Qc) : string :=
  let tenths := nearest ((if decide (x < 0)%Qc then - x else x) * Qc_of_Z 10)%Qc in
  (if decide (x < 0)%Qc then "-" else "")
  +:+ pretty (tenths / 10) +:+ "." +:+ pretty (tenths mod 10).

(** A number formatted to one decimal place: its value rounded to one
    decimal place; what is not a finite number is named. *)
Definition oneDecimal (x : number) : string :=
  match x with
  | S754_nan => "NaN"
  | S754_infinity s => if s then "-Infinity" else "Infinity"
  | _ => oneDecimalOf (Q2Qc (exact x))
  end.

(** The decimal digit [d], as a string. *)
Definition digit (d : Z) : string := String (pretty_N_char (Z.to_N d)) "".

(** The digits of [n], padded to two characters, with the point before
    the last one read as the tenths [n]: the steps of [toFixed] for one
    fraction digit. *)
Definition point_before_last_at (n : Z) : Prop :=
  let m := if n =? 0 then "0" else pretty n in
  let k := String.length m in
  let m' := if (k <=? 1)%nat then zeros (1 + 1 - k) +:+ m else m in
  let k' := if (k <=? 1)%nat then (1 + 1)%nat else k in
  String.substring 0 (k' - 1) m' +:+ "." +:+ String.substring (k' - 1) 1 m'
  = pretty (n / 10) +:+ "." +:+ pretty (n mod 10).

(** [x] clamped to a maximum of 100. *)
Definition clamp100 (x : Q) : Q := if Qlt_le_dec 100 x then 100%Q else x.

(** ** Rounding to a double

    The vocabulary in which the operations of [SpecFloat] are related to the
    rationals. *)

(** The mantissa of a normal double has 53 bits. *)
Definition normal_mantissa (m : positive) : Prop :=
  4503599627370496 <= Z.pos m < 9007199254740992.

(** [y] is [x] rounded to 53 bits: [y] is [k * 2^g] for an integer [k] of at
    most 53 bits, where [2^g] is the distance of the numbers of 53 bits around
    [x], and [y] is at most half of that away from [x]. *)
Definition rounds (x y : Q) : Prop :=
  exists k g : Z,
    4503599627370496 <= k <= 9007199254740992 /\
    (y == inject_Z k * pow2 g)%Q /\
    (4503599627370496 * pow2 g <= x)%Q /\ (x < 9007199254740992 * pow2 g)%Q /\
    (y - x <= (1 # 2) * pow2 g)%Q /\ (x - y <= (1 # 2) * pow2 g)%Q.

(** The record of a shifted mantissa (mantissa, round bit, sticky bit)
    stands for the rational [u]: the mantissa is its integer part and the two
    bits tell where its fraction lies relative to one half. *)
Definition located (mrs : shr_record) (u : Q) : Prop :=
  let m := inject_Z (shr_m mrs) in
  match shr_r mrs, shr_s mrs with
  | false, false => (u == m)%Q
  | false, true => (m < u /\ u < m + (1 # 2))%Q
  | true, false => (u == m + (1 # 2))%Q
  | true, true => (m + (1 # 2) < u /\ u < m + 1)%Q
  end.

(** * The rest of lib/utils.ts and its caller *)

(** lib/utils.ts, [calculateTotalTokens].  A cache count that is absent
    from the record is 0 here, which is what [|| 0] makes of it. *)
Definition calculateTotalTokens (usage : UsageData) : Z :=
  input_tokens usage + output_tokens usage
  + or_zero (cache_creation_tokens usage) + or_zero (cache_read_tokens usage).

(** ** Strings whose characters are inspected

    Such a string is the list of its UTF-16 code units. *)

(** The white space and line terminators of the language, which [trim]
    removes: TAB, LF, VT, FF, CR, SP, NBSP, U+1680, U+2000 to U+200A, U+2028,
    U+2029, U+202F, U+205F, U+3000 and U+FEFF. *)
Definition isWhiteSpace (c : N) : bool :=
  (bool_decide (c ∈ [9; 10; 11; 12; 13; 32; 160; 5760; 8232; 8233; 8239;
                     8287; 12288; 65279]%N)
   || ((8192 <=? c) && (c <=? 8202)))%N.

Fixpoint trimStart (s : list N) : list N :=
  match s with
  | [] => []
  | c :: rest => if isWhiteSpace c then trimStart rest else s
  end.

Definition trimEnd (s : list N) : list N := rev (trimStart (rev s)).

(** [s.trim()] *)
Definition trim (s : list N) : list N := trimEnd (trimStart s).

(** [s && ...]: a string is truthy when it is not empty. *)
Definition nonEmpty (s : list N) : bool :=
  match s with
  | [] => false
  | _ => true
  end.

(** [s.trim() !== ''] *)
Definition notBlank (s : list N) : bool := nonEmpty (trim s).

(** [p] occurs at the start of [s]. *)
Fixpoint startsWith (p s : list N) : bool :=
  match p, s with
  | [], _ => true
  | _ :: _, [] => false
  | a :: p', b :: s' => (a =? b)%N && startsWith p' s'
  end.

(** [s.includes(p)] *)
Fixpoint includes (s p : list N) : bool :=
  startsWith p s ||
  match s with
  | [] => false
  | _ :: rest => includes rest p
  end.

(** [l.slice(start, end)] for integers [start] and [end]: a negative index
    counts from the end of the list. *)
Definition slice {A : Type} (l : list A) (start stop : Z) : list A :=
  let len := Z.of_nat (length l) in
  let k := if start <? 0 then Z.max (len + start) 0 else Z.min start len in
  let final := if stop <? 0 then Z.max (len + stop) 0 else Z.min stop len in
  take (Z.to_nat (Z.max (final - k) 0)) (drop (Z.to_nat k) l).

(** [Math.ceil(a / b)] for integers [a] and [b]. *)
Definition Math_ceil_div (a b : Z) : Z := Qceiling (Qc_of_Z a / Qc_of_Z b)%Qc.

(** ** Sessions (lib/utils.ts and the session list) *)

Module Sessions.

Inductive Engine : Type := claude | codex | gemini.

#[global] Instance Engine_eq_dec : EqDecision Engine.
Proof. solve_decision. Defined.

(** The fields of a session the validation reads. *)
Record ValidatableSession : Type := {
  id : list N;
  first_message : option (list N);
  engine : option Engine;
}.

Record ValidatableGeminiSession : Type := {
  sessionId : list N;
  firstMessage : option (list N);
}.

(** lib/utils.ts, [isValidSession]. *)
Definition isValidSession (session : ValidatableSession) : bool :=
  nonEmpty (id session) && notBlank (id session) &&
  (match first_message session with
   | Some message => nonEmpty message && notBlank message
   | None => false
   end
   || bool_decide (engine session = Some codex)).

(** lib/utils.ts, [filterValidSessions], for sessions of a type [T] that
    has the fields of [ValidatableSession]. *)
Definition filterValidSessions {T : Type} (fields : T -> ValidatableSession)
    (sessions : list T) : list T :=
  List.filter (fun session => isValidSession (fields session)) sessions.

(** lib/utils.ts, [isValidGeminiSession]. *)
Definition isValidGeminiSession (session : ValidatableGeminiSession) : bool :=
  nonEmpty (sessionId session) && notBlank (sessionId session) &&
  match firstMessage session with
  | Some message => nonEmpty message && notBlank message
  | None => false
  end.

(** lib/utils.ts, [filterValidGeminiSessions]. *)
Definition filterValidGeminiSessions {T : Type}
    (fields : T -> ValidatableGeminiSession) (sessions : list T) : list T :=
  List.filter (fun session => isValidGeminiSession (fields session)) sessions.

(** The session list (slashCommands.ts, lines 315-337): the valid sessions,
    filtered by engine. *)
Inductive SessionFilter : Type :=
  FilterAll | FilterClaude | FilterCodex | FilterGemini.

Definition matchesFilter (sessionFilter : SessionFilter)
    (session : ValidatableSession) : bool :=
  match sessionFilter with
  | FilterAll => true
  | FilterClaude =>
      match engine session with
      | None => true
      | Some e => bool_decide (e = claude)
      end
  | FilterCodex => bool_decide (engine session = Some codex)
  | FilterGemini => bool_decide (engine session = Some gemini)
  end.

Definition filteredSessions {T : Type} (fields : T -> ValidatableSession)
    (sessionFilter : SessionFilter) (sessions : list T) : list T :=
  List.filter (fun session => matchesFilter sessionFilter (fields session))
              (filterValidSessions fields sessions).

(** The session list: pagination, lines 359-362. *)
Definition ITEMS_PER_PAGE : Z := 20.

Definition totalPages {T : Type} (sortedSessions : list T) : Z :=
  Math_ceil_div (Z.of_nat (length sortedSessions)) ITEMS_PER_PAGE.

Definition currentSessions {T : Type} (sortedSessions : list T)
    (currentPage : Z) : list T :=
  let startIndex := (currentPage - 1) * ITEMS_PER_PAGE in
  let endIndex := startIndex + ITEMS_PER_PAGE in
  slice sortedSessions startIndex endIndex.

End Sessions.

(** ** Slash commands (slashCommands.ts) *)

(** A [Map]: its entries in the order in which their keys were first set. *)
Fixpoint Map_get {K V : Type} `{EqDecision K} (m : list (K * V)) (k : K)
  : option V :=
  match m with
  | [] => None
  | (k', v) :: rest => if decide (k' = k) then Some v else Map_get rest k
  end.

Fixpoint Map_set {K V : Type} `{EqDecision K} (m : list (K * V)) (k : K) (v : V)
  : list (K * V) :=
  match m with
  | [] => [(k, v)]
  | (k', v') :: rest =>
      if decide (k' = k) then (k, v) :: rest else (k', v') :: Map_set rest k v
  end.

Module SlashCommands.

Inductive Source : Type := built_in | project | user.

Inductive Category : Type :=
  session | context | system | git | config | custom | plugin.

#[global] Instance Category_eq_dec : EqDecision Category.
Proof. solve_decision. Defined.

Record SlashCommand : Type := {
  name : list N;
  description : list N;
  source : Source;
  category : Category;
  supportsNonInteractive : bool;
  argHint : option (list N);
}.

Section Filter.

(** [String.prototype.toLowerCase], the case mapping of Unicode. *)
Variable toLowerCase : list N -> list N.

(** Lines 120-142. *)
Definition filterSlashCommands (commands : list SlashCommand) (query : list N)
    (nonInteractiveOnly : bool) : list SlashCommand :=
  let filtered := commands in
  let filtered :=
    if nonInteractiveOnly then List.filter supportsNonInteractive filtered
    else filtered in
  let filtered :=
    if nonEmpty query then
      let lowerQuery := toLowerCase query in
      List.filter
        (fun cmd => includes (toLowerCase (name cmd)) lowerQuery
                    || includes (toLowerCase (description cmd)) lowerQuery)
        filtered
    else filtered in
  filtered.

(** The test a command has to pass for a query and a flag: both filters
    of [filterSlashCommands] in one. *)
Definition keeps (query : list N) (nonInteractiveOnly : bool)
    (cmd : SlashCommand) : bool :=
  (negb nonInteractiveOnly || supportsNonInteractive cmd) &&
  (negb (nonEmpty query)
   || includes (toLowerCase (name cmd)) (toLowerCase query)
   || includes (toLowerCase (description cmd)) (toLowerCase query)).

End Filter.

(** Lines 147-160: the loop over the commands, on the map of the groups. *)
Definition groupStep (groups : list (Category * list SlashCommand))
    (cmd : SlashCommand) : list (Category * list SlashCommand) :=
  let existing := default [] (Map_get groups (category cmd)) in
  Map_set groups (category cmd) (existing ++ [cmd]).

Definition groupCommandsByCategory (commands : list SlashCommand)
  : list (Category * list SlashCommand) :=
  fold_left groupStep commands [].

End SlashCommands.

(** * Properties *)

(** ** JavaScript values *)

Lemma is_object_spec (u : JsValue) :
  is_object u = true <-> exists o, u = JObject o.
Proof.
  split.
  - unfold is_object. destruct u; simpl truthy; simpl typeof; [..|by eauto];
      try discriminate;
      (rewrite bool_decide_eq_false_2 by discriminate);
      rewrite andb_false_r; discriminate.
  - intros [o ->]. reflexivity.
Qed.

Lemma is_object_truthy (u : JsValue) : is_object u = true -> truthy u = true.
Proof. intros [o ->]%is_object_spec. reflexivity. Qed.

Lemma is_object_JObject (o : gmap string JsValue) : is_object (JObject o) = true.
Proof. reflexivity. Qed.

Lemma not_object_spec (u : JsValue) :
  is_object u = false <-> forall o, u <> JObject o.
Proof.
  split.
  - intros H o ->. discriminate.
  - intros H. destruct (is_object u) eqn:E; [|done].
    apply is_object_spec in E as [o ->]. by destruct (H o).
Qed.

Lemma strict_eq_string_spec (v : JsValue) (s : string) :
  strict_eq_string v s = true <-> v = JString s.
Proof.
  destruct v; simpl; try (split; [discriminate|intros [=]]).
  rewrite String.eqb_eq. split; [by intros ->|by intros [= ->]].
Qed.

Lemma cumulativeUpdate_strict_eq (msg : gmap string JsValue) :
  strict_eq_string (member (prop msg "codexMetadata") "codexItemType")
                   "thread_token_usage_updated"
  = cumulativeUpdate msg.
Proof.
  unfold cumulativeUpdate.
  destruct (member _ _); simpl; try reflexivity.
  destruct (String.eqb_spec s "thread_token_usage_updated") as [->|Hne].
  - by rewrite bool_decide_eq_true_2.
  - by rewrite bool_decide_eq_false_2.
Qed.

Lemma positive_number_spec (v : JsValue) (w : Z) :
  positive_number v = Some w <-> v = JNumber w /\ 0 < w.
Proof.
  destruct v; simpl; try (split; [discriminate|by intros [[=] _]]).
  destruct (Z.ltb_spec 0 z); split.
  - by intros [= ->].
  - by intros [[= ->] _].
  - discriminate.
  - intros [[= ->] ?]. lia.
Qed.

Lemma positive_number_None (v : JsValue) :
  positive_number v = None <-> forall w, v = JNumber w -> w <= 0.
Proof.
  split.
  - intros H w ->. simpl in H. destruct (Z.ltb_spec 0 w); [discriminate|lia].
  - intros H. destruct (positive_number v) as [w|] eqn:E; [|done].
    apply positive_number_spec in E as [-> ?]. specialize (H w eq_refl). lia.
Qed.

(** ** The backward loop *)

Section ForDown.
Context {A B : Type} (body : A -> option B).

Lemma for_down_app (l l' : list A) (n : nat) :
  (n <= length l)%nat -> for_down body (l ++ l') n = for_down body l n.
Proof.
  induction n as [|i IH]; intros Hn; simpl; [done|].
  rewrite lookup_app_l by lia. rewrite IH by lia. done.
Qed.

Lemma for_down_snoc (l : list A) (x : A) :
  for_down body (l ++ [x]) (length (l ++ [x]))
  = match body x with
    | Some r => Some r
    | None => for_down body l (length l)
    end.
Proof.
  rewrite length_app, Nat.add_1_r. simpl.
  rewrite list_lookup_middle by done.
  destruct (body x); [done|]. by apply for_down_app.
Qed.

(** The loop returns what the body yields on the last element on which it
    yields anything. *)
Lemma for_down_last (pre post : list A) (x : A) (r : B) :
  body x = Some r ->
  Forall (fun y => body y = None) post ->
  for_down body (pre ++ x :: post) (length (pre ++ x :: post)) = Some r.
Proof.
  intros Hx. induction post as [|y post IH] using rev_ind; intros Hpost.
  - rewrite for_down_snoc, Hx. done.
  - apply Forall_app in Hpost as [Hpost Hy].
    apply Forall_inv in Hy; simpl in Hy.
    replace (pre ++ x :: post ++ [y]) with ((pre ++ x :: post) ++ [y])
      by (by rewrite <-app_assoc).
    rewrite for_down_snoc, Hy. by apply IH.
Qed.

Lemma for_down_none (l : list A) :
  Forall (fun y => body y = None) l ->
  for_down body l (length l) = None.
Proof.
  induction l as [|y l IH] using rev_ind; intros Hl; [done|].
  apply Forall_app in Hl as [Hl Hy]. apply Forall_inv in Hy; simpl in Hy.
  rewrite for_down_snoc, Hy. by apply IH.
Qed.

Lemma for_down_Some_inv (l : list A) (r : B) :
  for_down body l (length l) = Some r ->
  exists pre x post,
    l = pre ++ x :: post /\ body x = Some r /\
    Forall (fun y => body y = None) post.
Proof.
  induction l as [|y l IH] using rev_ind; [discriminate|].
  rewrite for_down_snoc. destruct (body y) as [r'|] eqn:Hy.
  - intros [= ->]. exists l, y, []. by repeat split.
  - intros (pre & x & post & -> & Hx & Hpost)%IH.
    exists pre, x, (post ++ [y]). rewrite <-app_assoc. repeat split; [done|].
    apply Forall_app. split; [done|]. by apply Forall_singleton.
Qed.
End ForDown.

(** ** Usage records *)

Lemma or_zero_id (x : Z) : or_zero x = x.
Proof. unfold or_zero. destruct (Z.eqb_spec x 0); congruence. Qed.

Lemma Usage_eq (a b : Usage) :
  inputTokens a = inputTokens b -> outputTokens a = outputTokens b ->
  cacheCreationTokens a = cacheCreationTokens b ->
  cacheReadTokens a = cacheReadTokens b -> a = b.
Proof. destruct a, b; simpl; congruence. Qed.

Lemma nontrivial_false_zero (u : Usage) :
  nonnegUsage u -> nontrivial u = false -> u = zeroUsage.
Proof.
  intros (Hi & Ho & Hc & Hr) H. unfold nontrivial in H.
  repeat (apply orb_false_elim in H as [H ?]).
  apply Usage_eq; simpl; lia.
Qed.

Lemma nontrivial_zero : nontrivial zeroUsage = false.
Proof. reflexivity. Qed.

Lemma nontrivial_true_nonzero (u : Usage) :
  nontrivial u = true -> u <> zeroUsage.
Proof. intros H ->. discriminate. Qed.

Lemma nontrivial_nonzero (u : Usage) :
  nonnegUsage u -> (nontrivial u = true <-> u <> zeroUsage).
Proof.
  intros Hu. split; [apply nontrivial_true_nonzero|].
  intros Hne. destruct (nontrivial u) eqn:E; [done|].
  by destruct Hne; apply nontrivial_false_zero.
Qed.

Lemma addUsage_zero_l (u : Usage) : addUsage zeroUsage u = u.
Proof. by destruct u. Qed.

Lemma addUsage_zero_r (u : Usage) : addUsage u zeroUsage = u.
Proof. destruct u; unfold addUsage; simpl; f_equal; lia. Qed.

Lemma addUsage_assoc (a b c : Usage) :
  addUsage a (addUsage b c) = addUsage (addUsage a b) c.
Proof. unfold addUsage; simpl; f_equal; lia. Qed.

Lemma nonnegUsage_zero : nonnegUsage zeroUsage.
Proof. unfold nonnegUsage; simpl; lia. Qed.

Lemma nonnegUsage_add (a b : Usage) :
  nonnegUsage a -> nonnegUsage b -> nonnegUsage (addUsage a b).
Proof. unfold nonnegUsage; simpl; lia. Qed.

Lemma nonnegUsage_sum (l : list Usage) :
  Forall nonnegUsage l -> nonnegUsage (sumUsage l).
Proof.
  induction 1 as [|u l Hu _ IH]; simpl.
  - apply nonnegUsage_zero.
  - by apply nonnegUsage_add.
Qed.

(** A sum of non-negative usages is zero only when every summand is. *)
Lemma sumUsage_zero (l : list Usage) :
  Forall nonnegUsage l ->
  (sumUsage l = zeroUsage <-> Forall (fun u => u = zeroUsage) l).
Proof.
  induction 1 as [|u l Hu Hl IH]; simpl.
  - split; [constructor|done].
  - pose proof (nonnegUsage_sum l Hl) as Hs. split.
    + intros Hz. assert (u = zeroUsage /\ sumUsage l = zeroUsage) as [-> Hl0].
      { destruct Hu as (?&?&?&?), Hs as (?&?&?&?).
        apply (f_equal inputTokens) in Hz as Hz1.
        apply (f_equal outputTokens) in Hz as Hz2.
        apply (f_equal cacheCreationTokens) in Hz as Hz3.
        apply (f_equal cacheReadTokens) in Hz as Hz4.
        simpl in *. split; apply Usage_eq; simpl; lia. }
      constructor; [done|]. by apply IH.
    + intros Hz. apply Forall_cons in Hz as [-> Hz].
      rewrite addUsage_zero_l. by apply IH.
Qed.

(** ** The extractors *)

Section HookFacts.
Variable normalizeRawUsage : JsValue -> TokenExtractor.StandardizedTokenUsage.
Variable getContextWindowSize : option string -> option string -> Z.
Variable getUsageLevel : number -> ContextUsageLevel.

#[local] Abbreviation normalized := (normalizeUsageForIndicator normalizeRawUsage).

Lemma normalized_nonneg (u : JsValue) :
  nonnegative normalizeRawUsage -> nonnegUsage (normalized u).
Proof.
  intros H. destruct (H u) as (?&?&?&?).
  unfold nonnegUsage, normalizeUsageForIndicator; simpl.
  by rewrite !or_zero_id.
Qed.

Lemma normalized_fields (u : JsValue) :
  normalized u =
  {| inputTokens := TokenExtractor.input_tokens (normalizeRawUsage u);
     outputTokens := TokenExtractor.output_tokens (normalizeRawUsage u);
     cacheCreationTokens :=
       TokenExtractor.cache_creation_tokens (normalizeRawUsage u);
     cacheReadTokens := TokenExtractor.cache_read_tokens (normalizeRawUsage u) |}.
Proof. unfold normalizeUsageForIndicator; simpl. by rewrite !or_zero_id. Qed.

(** For the engines other than Codex the candidate is the usage of the
    message when that is an object, and [null] otherwise. *)
Lemma getUsageCandidate_generic (message : gmap string JsValue)
    (engine : option string) :
  engine <> Some "codex" ->
  getUsageCandidate message engine
  = if is_object (usageOf message) then usageOf message else JNull.
Proof.
  intros He. unfold getUsageCandidate, usageOf, js_or.
  rewrite (bool_decide_eq_false_2 _ He). simpl.
  by destruct (is_object _).
Qed.

Lemma currentUsageAt_Some (engine : option string)
    (message : gmap string JsValue) (o : gmap string JsValue) :
  engine <> Some "codex" ->
  usageOf message = JObject o ->
  nontrivial (normalized (JObject o)) = true ->
  currentUsageAt normalizeRawUsage engine message = Some (normalized (JObject o)).
Proof.
  intros He Hu Hn. unfold currentUsageAt.
  rewrite getUsageCandidate_generic, Hu by done. simpl. by rewrite Hn.
Qed.

Lemma currentUsageAt_None (engine : option string)
    (message : gmap string JsValue) :
  engine <> Some "codex" ->
  (forall o, usageOf message = JObject o ->
             nontrivial (normalized (JObject o)) = false) ->
  currentUsageAt normalizeRawUsage engine message = None.
Proof.
  intros He Hu. unfold currentUsageAt.
  rewrite getUsageCandidate_generic by done.
  destruct (is_object (usageOf message)) eqn:E; [|done].
  apply is_object_spec in E as [o E]. rewrite E. simpl.
  by rewrite (Hu o E).
Qed.

Lemma cumulativeUsageAt_Some (msg o : gmap string JsValue) :
  snapshotOf msg = JObject o ->
  nontrivial (normalized (JObject o)) = true ->
  cumulativeUsageAt normalizeRawUsage msg = Some (normalized (JObject o)).
Proof.
  unfold snapshotOf, cumulativeUsageAt. intros -> Hn. simpl. by rewrite Hn.
Qed.

Lemma cumulativeUsageAt_None (msg : gmap string JsValue) :
  (forall o, snapshotOf msg = JObject o ->
             nontrivial (normalized (JObject o)) = false) ->
  cumulativeUsageAt normalizeRawUsage msg = None.
Proof.
  unfold snapshotOf, cumulativeUsageAt. intros Hu.
  destruct (is_object _) eqn:E; [|done].
  apply is_object_spec in E as [o E]. rewrite E. by rewrite (Hu o E).
Qed.

End HookFacts.

(** ** The summing loop *)

Section SumLoop.
Variable normalizeRawUsage : JsValue -> TokenExtractor.StandardizedTokenUsage.
Hypothesis normalizeRawUsage_nonneg : nonnegative normalizeRawUsage.

#[local] Abbreviation normalized := (normalizeUsageForIndicator normalizeRawUsage).

(** The normalized direct usages the loop looks at. *)
Lemma sumStep_directUsage (acc : Usage) (b : bool) (msg : gmap string JsValue) :
  sumStep normalizeRawUsage (acc, b) msg
  = match directUsageOf msg with
    | Some u => (addUsage acc (normalized u), b || nontrivial (normalized u))
    | None => (acc, b)
    end.
Proof.
  unfold sumStep, directUsageOf. rewrite cumulativeUpdate_strict_eq.
  destruct (cumulativeUpdate msg); [done|].
  destruct (is_object (prop msg "usage")) eqn:E.
  - apply is_object_spec in E as [o ->]. simpl fst.
    destruct (nontrivial (normalized (JObject o))) eqn:Hn.
    + by rewrite orb_true_r.
    + rewrite orb_false_r.
      rewrite (nontrivial_false_zero _ (normalized_nonneg _ _ normalizeRawUsage_nonneg) Hn).
      by rewrite addUsage_zero_r.
  - by destruct (prop msg "usage").
Qed.

Lemma sumStep_fold (messages : list (gmap string JsValue)) (acc : Usage) (b : bool) :
  fold_left (sumStep normalizeRawUsage) messages (acc, b)
  = (addUsage acc (sumUsage (normalized <$> omap directUsageOf messages)),
     b || existsb nontrivial (normalized <$> omap directUsageOf messages)).
Proof.
  revert acc b. induction messages as [|msg messages IH]; intros acc b; simpl.
  - by rewrite addUsage_zero_r, orb_false_r.
  - rewrite sumStep_directUsage. destruct (directUsageOf msg) as [u|]; simpl.
    + by rewrite IH, addUsage_assoc, orb_assoc.
    + apply IH.
Qed.


(** The second pass of the Codex extractor on its own. *)
Lemma sum_pass (messages : list (gmap string JsValue)) :
  let deltas := normalized <$> omap directUsageOf messages in
  (let '(totals, foundAny) :=
     fold_left (sumStep normalizeRawUsage) messages (zeroUsage, false) in
   if foundAny then Some totals else None)
  = if existsb nontrivial deltas then Some (sumUsage deltas) else None.
Proof. simpl. by rewrite sumStep_fold, addUsage_zero_l, orb_false_l. Qed.

End SumLoop.

(** ** Doubles

    What the operations of [SpecFloat] compute, in terms of rationals: a
    quotient or a product of normal doubles is the exact result rounded to 53
    bits, and an integer below 2^53 is its own double. *)

(** *** Powers of two *)

Lemma pow2_pos (g : Z) : (0 < pow2 g)%Q.
Proof. by apply Qpower_0_lt. Qed.

Lemma pow2_add (a b : Z) : (pow2 (a + b) == pow2 a * pow2 b)%Q.
Proof. by apply Qpower_plus. Qed.

Lemma pow2_succ (a : Z) : (pow2 (a + 1) == 2 * pow2 a)%Q.
Proof. rewrite pow2_add. change (pow2 1) with 2%Q. lra. Qed.

Lemma pow2_inject (n : Z) : 0 <= n -> (pow2 n == inject_Z (2 ^ n))%Q.
Proof. intros H. by rewrite Zpower_Qpower. Qed.

Lemma pow2_le (a b : Z) : a <= b -> (pow2 a <= pow2 b)%Q.
Proof. intros H. by apply Qpower_le_compat_l. Qed.

Lemma pow2_lt_inv (a b : Z) : (pow2 a < pow2 b)%Q -> a < b.
Proof. intros H. by apply (Qpower_lt_compat_l_inv 2). Qed.

Lemma pow2_opp (n : Z) : (pow2 n * pow2 (- n) == 1)%Q.
Proof. rewrite <-pow2_add. by replace (n + - n) with 0 by lia. Qed.

Lemma pow2_neg (n : Z) : (pow2 (- n) == / pow2 n)%Q.
Proof. apply Qpower_opp. Qed.

Lemma pow2_lt_double (a b : Z) : (pow2 a < 2 * pow2 b)%Q -> a <= b.
Proof.
  rewrite <-pow2_succ. intros H%pow2_lt_inv. lia.
Qed.

Lemma inject_Z_lt_inv (a b : Z) : (inject_Z a < inject_Z b)%Q -> a < b.
Proof. by rewrite <-Zlt_Qlt. Qed.

Lemma inject_Z_le_inv (a b : Z) : (inject_Z a <= inject_Z b)%Q -> a <= b.
Proof. by rewrite <-Zle_Qle. Qed.

Lemma inject_Z_pos (m : positive) : (0 < inject_Z (Z.pos m))%Q.
Proof. change 0%Q with (inject_Z 0). rewrite <-Zlt_Qlt. lia. Qed.

Lemma inject_Z_xO (p : positive) : (inject_Z (Z.pos p~0) == 2 * inject_Z (Z.pos p))%Q.
Proof. by rewrite Pos2Z.inj_xO, inject_Z_mult. Qed.

Lemma inject_Z_xI (p : positive) : (inject_Z (Z.pos p~1) == 2 * inject_Z (Z.pos p) + 1)%Q.
Proof. by rewrite Pos2Z.inj_xI, inject_Z_plus, inject_Z_mult. Qed.

(** Bounds on [u] in units of [N], read as bounds on [u / N]. *)
Lemma scaled_bounds (u N V a b : Q) :
  (0 < N)%Q -> (N * V == 1)%Q -> (a * N <= u)%Q -> (u < b * N)%Q ->
  (a <= u * V /\ u * V < b)%Q.
Proof.
  intros HN HV Ha Hb.
  assert (0 < V)%Q as HV0.
  { destruct (Qlt_le_dec 0 V) as [|Hle]; [done|].
    assert (N * V <= 0)%Q; [|lra].
    rewrite <-(Qmult_0_r N). apply Qmult_le_l; done. }
  split.
  - apply (Qmult_le_compat_r _ _ V) in Ha; [|lra].
    assert (a * N * V == a)%Q as E by (rewrite <-Qmult_assoc, HV; ring).
    by rewrite E in Ha.
  - apply (Qmult_lt_compat_r _ _ V) in Hb; [|done].
    assert (b * N * V == b)%Q as E by (rewrite <-Qmult_assoc, HV; ring).
    by rewrite E in Hb.
Qed.

(** *** The number of binary digits *)

Lemma digits2_pos_bounds (p : positive) :
  2 ^ (Z.pos (digits2_pos p) - 1) <= Z.pos p < 2 ^ Z.pos (digits2_pos p).
Proof.
  induction p as [p IH|p IH|]; simpl digits2_pos.
  - rewrite Pos2Z.inj_succ. replace (Z.succ (Z.pos (digits2_pos p)) - 1)
      with (Z.succ (Z.pos (digits2_pos p) - 1)) by lia.
    rewrite !Z.pow_succ_r by lia. lia.
  - rewrite Pos2Z.inj_succ. replace (Z.succ (Z.pos (digits2_pos p)) - 1)
      with (Z.succ (Z.pos (digits2_pos p) - 1)) by lia.
    rewrite !Z.pow_succ_r by lia. lia.
  - simpl. lia.
Qed.

Lemma digits2_pos_unique (p : positive) (d : Z) :
  2 ^ (d - 1) <= Z.pos p < 2 ^ d -> Z.pos (digits2_pos p) = d.
Proof.
  intros [H1 H2]. pose proof (digits2_pos_bounds p) as [H3 H4].
  assert (0 < d).
  { destruct d as [|d|d]; [simpl in H2; lia|lia|].
    rewrite Z.pow_neg_r in H2 by lia. lia. }
  set (d' := Z.pos (digits2_pos p)) in *.
  destruct (Z.lt_trichotomy d' d) as [Hlt|[->|Hgt]]; [|done|].
  - assert (2 ^ d' <= 2 ^ (d - 1)) by (apply Z.pow_le_mono_r; lia). lia.
  - assert (2 ^ d <= 2 ^ (d' - 1)) by (apply Z.pow_le_mono_r; lia). lia.
Qed.

Lemma Zdigits2_unique (k d : Z) :
  0 < k -> 2 ^ (d - 1) <= k < 2 ^ d -> Zdigits2 k = d.
Proof.
  intros Hk H. destruct k as [|p|p]; [lia| |lia]. simpl.
  by apply digits2_pos_unique.
Qed.

Lemma Zdigits2_bounds (k : Z) :
  0 < k -> 2 ^ (Zdigits2 k - 1) <= k < 2 ^ Zdigits2 k.
Proof.
  intros Hk. destruct k as [|p|p]; [lia| |lia]. simpl.
  apply digits2_pos_bounds.
Qed.

Lemma Zdigits2_range (k a b : Z) :
  0 < k -> 2 ^ a <= k < 2 ^ b -> a < Zdigits2 k <= b.
Proof.
  intros Hk [Ha Hb]. pose proof (Zdigits2_bounds k Hk) as [H1 H2]. split.
  - destruct (Z.le_gt_cases (Zdigits2 k) a) as [Hle|]; [|done].
    assert (2 ^ Zdigits2 k <= 2 ^ a) by (apply Z.pow_le_mono_r; lia). lia.
  - destruct (Z.le_gt_cases (Zdigits2 k) b) as [|Hlt]; [done|].
    assert (2 ^ b <= 2 ^ (Zdigits2 k - 1)) by (apply Z.pow_le_mono_r; lia). lia.
Qed.

Lemma normal_digits (m : positive) : normal_mantissa m -> Zdigits2 (Z.pos m) = 53.
Proof. intros H. apply Zdigits2_unique; [lia|]. exact H. Qed.

Lemma normal_mantissa_Q (m : positive) :
  normal_mantissa m ->
  (4503599627370496 <= inject_Z (Z.pos m) /\ inject_Z (Z.pos m) < 9007199254740992)%Q.
Proof.
  intros Hm. change 4503599627370496%Q with (inject_Z 4503599627370496).
  change 9007199254740992%Q with (inject_Z 9007199254740992).
  unfold normal_mantissa in Hm. rewrite <-Zle_Qle, <-Zlt_Qlt. lia.
Qed.

Lemma fexp_normal (x : Z) : -1021 <= x -> fexp 53 1024 x = x - 53.
Proof. intros H. unfold fexp, emin. lia. Qed.

(** *** Rounding to 53 bits

    The rounded value is within half a unit of the last place, it is monotone
    in the value rounded, and a value of 53 bits is left as it is. *)

Lemma rounds_proper (x x' y y' : Q) :
  (x == x')%Q -> (y == y')%Q -> rounds x y -> rounds x' y'.
Proof.
  intros Ex Ey (k & g & Hk & H1 & H2 & H3 & H4 & H5). exists k, g.
  split; [done|]. rewrite <-Ex, <-Ey. done.
Qed.

Lemma rounds_scaled (U : Q) (k g : Z) :
  4503599627370496 <= k <= 9007199254740992 ->
  (4503599627370496 <= U)%Q -> (U < 9007199254740992)%Q ->
  (inject_Z k - (1 # 2) <= U)%Q -> (U <= inject_Z k + (1 # 2))%Q ->
  rounds (U * pow2 g) (inject_Z k * pow2 g).
Proof.
  intros Hk H1 H2 H3 H4. exists k, g. pose proof (pow2_pos g) as HP.
  split; [done|]. split; [done|]. split_and!; nra.
Qed.

Lemma rounds_pos (x y : Q) : rounds x y -> (0 < x /\ 0 < y)%Q.
Proof.
  intros (k & g & Hk & H1 & H2 & H3 & H4 & H5). pose proof (pow2_pos g).
  assert (4503599627370496 <= inject_Z k)%Q.
  { change 4503599627370496%Q with (inject_Z 4503599627370496).
    rewrite <-Zle_Qle. lia. }
  split; [lra|]. rewrite H1. nra.
Qed.

(** The relative error of rounding is at most 2^-53. *)
Lemma rounds_error (x y : Q) :
  rounds x y ->
  (y - x <= x * (1 # 9007199254740992) /\ x - y <= x * (1 # 9007199254740992))%Q.
Proof.
  intros (k & g & Hk & H1 & H2 & H3 & H4 & H5). pose proof (pow2_pos g). lra.
Qed.

(** Rounding is monotone. *)
Lemma rounds_mono (x1 y1 x2 y2 : Q) :
  rounds x1 y1 -> rounds x2 y2 -> (x1 < x2)%Q -> (y1 <= y2)%Q.
Proof.
  intros (k1 & g1 & Hk1 & E1 & L1 & U1 & A1 & B1).
  intros (k2 & g2 & Hk2 & E2 & L2 & U2 & A2 & B2) Hx.
  pose proof (pow2_pos g1) as P1. pose proof (pow2_pos g2) as P2.
  assert (g1 <= g2) as Hg by (apply pow2_lt_double; lra).
  assert (4503599627370496 <= inject_Z k2)%Q as Hk2'.
  { change 4503599627370496%Q with (inject_Z 4503599627370496).
    rewrite <-Zle_Qle. lia. }
  assert (inject_Z k1 <= 9007199254740992)%Q as Hk1'.
  { change 9007199254740992%Q with (inject_Z 9007199254740992).
    rewrite <-Zle_Qle. lia. }
  destruct (decide (g1 = g2)) as [->|Hne].
  - assert (k1 <= k2) as Hk.
    { assert (k1 < k2 + 1); [|lia]. apply inject_Z_lt_inv.
      rewrite inject_Z_plus. change (inject_Z 1) with 1%Q.
      rewrite E1 in A1. rewrite E2 in B2.
      apply (Qmult_lt_r _ _ (pow2 g2)); [done|]. lra. }
    rewrite E1, E2. apply Qmult_le_compat_r; [|lra]. by rewrite <-Zle_Qle.
  - assert (2 * pow2 g1 <= pow2 g2)%Q as Hp.
    { rewrite <-pow2_succ. apply pow2_le. lia. }
    rewrite E1, E2. nra.
Qed.

(** A value of 53 bits is rounded to itself. *)
Lemma rounds_representable (x y : Q) (j h : Z) :
  rounds x y ->
  (x == inject_Z j * pow2 h)%Q -> 4503599627370496 <= j < 9007199254740992 ->
  (y == x)%Q.
Proof.
  intros (k & g & Hk & E & L & U & A & B) Ex Hj.
  pose proof (pow2_pos g) as Pg. pose proof (pow2_pos h) as Ph.
  assert (4503599627370496 <= inject_Z j /\ inject_Z j < 9007199254740992)%Q
    as [Hj1 Hj2].
  { change 4503599627370496%Q with (inject_Z 4503599627370496).
    change 9007199254740992%Q with (inject_Z 9007199254740992).
    rewrite <-Zle_Qle, <-Zlt_Qlt. lia. }
  assert (g = h) as ->.
  { assert (g <= h) by (apply pow2_lt_double; nra).
    assert (h <= g) by (apply pow2_lt_double; nra). lia. }
  assert (k = j) as ->; [|by rewrite E, Ex].
  rewrite E, Ex in A. rewrite E, Ex in B.
  assert (k < j + 1).
  { apply inject_Z_lt_inv. rewrite inject_Z_plus. change (inject_Z 1) with 1%Q.
    apply (Qmult_lt_r _ _ (pow2 h)); [done|]. lra. }
  assert (j < k + 1).
  { apply inject_Z_lt_inv. rewrite inject_Z_plus. change (inject_Z 1) with 1%Q.
    apply (Qmult_lt_r _ _ (pow2 h)); [done|]. lra. }
  lia.
Qed.

Lemma rounds_refl (j h : Z) :
  4503599627370496 <= j < 9007199254740992 ->
  rounds (inject_Z j * pow2 h) (inject_Z j * pow2 h).
Proof.
  intros Hj. exists j, h. pose proof (pow2_pos h) as Ph.
  assert (4503599627370496 <= inject_Z j /\ inject_Z j < 9007199254740992)%Q
    as [Hj1 Hj2].
  { change 4503599627370496%Q with (inject_Z 4503599627370496).
    change 9007199254740992%Q with (inject_Z 9007199254740992).
    rewrite <-Zle_Qle, <-Zlt_Qlt. lia. }
  split; [lia|]. split; [done|]. split_and!; nra.
Qed.

Lemma rounds_ge_representable (x y : Q) (j h : Z) :
  rounds x y -> 4503599627370496 <= j < 9007199254740992 ->
  (inject_Z j * pow2 h <= x)%Q -> (inject_Z j * pow2 h <= y)%Q.
Proof.
  intros Hr Hj Hx. destruct (Qle_lt_or_eq _ _ Hx) as [Hlt|Heq].
  - exact (rounds_mono _ _ _ _ (rounds_refl j h Hj) Hr Hlt).
  - rewrite (rounds_representable x y j h Hr (Qeq_sym _ _ Heq) Hj). done.
Qed.

Lemma rounds_le_representable (x y : Q) (j h : Z) :
  rounds x y -> 4503599627370496 <= j < 9007199254740992 ->
  (x <= inject_Z j * pow2 h)%Q -> (y <= inject_Z j * pow2 h)%Q.
Proof.
  intros Hr Hj Hx. destruct (Qle_lt_or_eq _ _ Hx) as [Hlt|Heq].
  - exact (rounds_mono _ _ _ _ Hr (rounds_refl j h Hj) Hlt).
  - rewrite (rounds_representable x y j h Hr Heq Hj). lra.
Qed.

(** *** Shifting a mantissa

    [shr_1] halves the rational a record stands for; the rounding of
    [binary_round_aux] then takes the nearest integer, the even one of
    two. *)

Lemma located_proper (mrs : shr_record) (u u' : Q) :
  (u == u')%Q -> located mrs u -> located mrs u'.
Proof.
  intros E. unfold located. destruct (shr_r mrs), (shr_s mrs); simpl; lra.
Qed.

Lemma located_floor (mrs : shr_record) (u : Q) :
  located mrs u -> (inject_Z (shr_m mrs) <= u /\ u < inject_Z (shr_m mrs) + 1)%Q.
Proof. unfold located. destruct (shr_r mrs), (shr_s mrs); simpl; lra. Qed.

(** One shift to the right halves the rational the record stands for. *)
Lemma shr_1_located (mrs : shr_record) (u : Q) :
  0 <= shr_m mrs -> located mrs u ->
  located (shr_1 mrs) (u * (1 # 2)) /\ 0 <= shr_m (shr_1 mrs).
Proof.
  destruct mrs as [m r s]. simpl. intros Hm Hu.
  destruct m as [|[p|p|]|p]; [| | | |lia].
  - unfold located in *; destruct r, s; simpl in *; (split; [|lia]);
      change (inject_Z 0) with 0%Q in *; lra.
  - pose proof (inject_Z_xI p).
    unfold located in *; destruct r, s; simpl in *; (split; [|lia]); lra.
  - pose proof (inject_Z_xO p).
    unfold located in *; destruct r, s; simpl in *; (split; [|lia]); lra.
  - unfold located in *; destruct r, s; simpl in *; (split; [|lia]);
      change (inject_Z 0) with 0%Q in *; change (inject_Z 1) with 1%Q in *; lra.
Qed.

Lemma iter_pos_shr_1_located (p : positive) (mrs : shr_record) (u : Q) :
  0 <= shr_m mrs -> located mrs u ->
  located (SpecFloat.iter_pos shr_1 p mrs) (u * pow2 (- Z.pos p))
  /\ 0 <= shr_m (SpecFloat.iter_pos shr_1 p mrs).
Proof.
  revert mrs u. induction p as [p IH|p IH|]; intros mrs u Hm Hu; simpl SpecFloat.iter_pos.
  - destruct (shr_1_located mrs u Hm Hu) as [H1 Hm1].
    destruct (IH _ _ Hm1 H1) as [H2 Hm2].
    destruct (IH _ _ Hm2 H2) as [H3 Hm3].
    split; [|done]. eapply located_proper; [|exact H3].
    replace (- Z.pos p~1) with (-1 + (- Z.pos p + - Z.pos p)) by lia.
    rewrite !pow2_add. change (pow2 (-1)) with (1 # 2)%Q. ring.
  - destruct (IH _ _ Hm Hu) as [H2 Hm2].
    destruct (IH _ _ Hm2 H2) as [H3 Hm3].
    split; [|done]. eapply located_proper; [|exact H3].
    replace (- Z.pos p~0) with (- Z.pos p + - Z.pos p) by lia.
    rewrite !pow2_add. ring.
  - destruct (shr_1_located mrs u Hm Hu) as [H1 Hm1].
    split; [|done]. eapply located_proper; [|exact H1].
    change (pow2 (- Z.pos 1)) with (1 # 2)%Q. lra.
Qed.

Lemma shr_located (mrs : shr_record) (e n : Z) (u : Q) :
  0 <= shr_m mrs -> 0 <= n -> located mrs u ->
  snd (shr mrs e n) = e + n /\
  located (fst (shr mrs e n)) (u * pow2 (- n)) /\
  0 <= shr_m (fst (shr mrs e n)).
Proof.
  intros Hm Hn Hu. destruct n as [|p|p]; [| |lia]; simpl.
  - split; [lia|]. split; [|done]. eapply located_proper; [|exact Hu].
    change (pow2 (-0)) with 1%Q. lra.
  - split; [done|]. by apply iter_pos_shr_1_located.
Qed.

Lemma shr_m_of_loc (m : Z) (l : location) : shr_m (shr_record_of_loc m l) = m.
Proof. by destruct l as [|[]]. Qed.

(** The rounded mantissa is at most one half away from the rational. *)
Lemma round_nearest_even_located (mrs : shr_record) (u : Q) :
  located mrs u ->
  let k := round_nearest_even (shr_m mrs) (loc_of_shr_record mrs) in
  shr_m mrs <= k <= shr_m mrs + 1 /\
  (inject_Z k - (1 # 2) <= u /\ u <= inject_Z k + (1 # 2))%Q.
Proof.
  destruct mrs as [m r s]. unfold located. simpl.
  pose proof (inject_Z_plus m 1) as E. change (inject_Z 1) with 1%Q in E.
  destruct r, s; simpl; intros Hu; try destruct (Z.even m); (split; [lia|]);
    rewrite ?E; lra.
Qed.

(** [binary_round_aux] on a mantissa of at least 53 bits, above the
    subnormal range: the result is the rational rounded to 53 bits, with a
    normal mantissa, or an infinity when the exponent is too large. *)
Lemma binary_round_aux_correct (s : bool) (m e : Z) (l : location) (u : Q) :
  0 < m ->
  located (shr_record_of_loc m l) u ->
  53 <= Zdigits2 m ->
  -1021 <= Zdigits2 m + e ->
  (exists (m' : positive) (e' : Z),
      binary_round_aux 53 1024 s m e l = S754_finite s m' e' /\
      4503599627370496 <= Z.pos m' < 9007199254740992 /\
      Zdigits2 m + e - 53 <= e' <= Zdigits2 m + e - 52 /\ e' <= 971 /\
      rounds (u * pow2 e) (inject_Z (Z.pos m') * pow2 e'))
  \/ (binary_round_aux 53 1024 s m e l = S754_infinity s /\
      971 <= Zdigits2 m + e - 53).
Proof.
  intros Hm Hu Hd He.
  pose proof (Zdigits2_bounds m Hm) as Hb.
  set (d := Zdigits2 m) in *. set (n := d - 53).
  unfold binary_round_aux, shr_fexp. fold d.
  rewrite fexp_normal by done.
  replace (d + e - 53 - e) with n by lia.
  pose proof (shr_located (shr_record_of_loc m l) e n u) as Hs.
  rewrite shr_m_of_loc in Hs. specialize (Hs ltac:(lia) ltac:(lia) Hu).
  destruct (shr (shr_record_of_loc m l) e n) as [mrs1 e1]. simpl in Hs.
  destruct Hs as (-> & Hu1 & Hm1).
  set (U := (u * pow2 (- n))%Q) in *.
  assert (4503599627370496 <= U /\ U < 9007199254740992)%Q as [HU1 HU2].
  { apply located_floor in Hu. rewrite shr_m_of_loc in Hu.
    apply (scaled_bounds u (pow2 n)); [apply pow2_pos|apply pow2_opp| |].
    - rewrite (pow2_inject n) by lia.
      change 4503599627370496%Q with (inject_Z (2 ^ 52)).
      rewrite <-inject_Z_mult, <-Z.pow_add_r by lia.
      replace (52 + n) with (d - 1) by lia.
      apply Qle_trans with (inject_Z m); [|tauto]. rewrite <-Zle_Qle. lia.
    - rewrite (pow2_inject n) by lia.
      change 9007199254740992%Q with (inject_Z (2 ^ 53)).
      rewrite <-inject_Z_mult, <-Z.pow_add_r by lia.
      replace (53 + n) with d by lia.
      apply Qlt_le_trans with (inject_Z m + 1)%Q; [tauto|].
      change 1%Q with (inject_Z 1). rewrite <-inject_Z_plus, <-Zle_Qle. lia. }
  pose proof (located_floor _ _ Hu1) as [Hf1 Hf2].
  pose proof (round_nearest_even_located _ _ Hu1) as [Hk1 [Hk2 Hk3]].
  set (k := round_nearest_even (shr_m mrs1) (loc_of_shr_record mrs1)) in *.
  assert (4503599627370496 <= shr_m mrs1 < 9007199254740992) as Hm1'.
  { split.
    - assert (4503599627370496 < shr_m mrs1 + 1); [|lia].
      apply inject_Z_lt_inv. rewrite inject_Z_plus.
      change (inject_Z 4503599627370496) with 4503599627370496%Q.
      change (inject_Z 1) with 1%Q. lra.
    - apply inject_Z_lt_inv.
      change (inject_Z 9007199254740992) with 9007199254740992%Q. lra. }
  assert (u * pow2 e == U * pow2 (e + n))%Q as Hx.
  { unfold U. rewrite pow2_add. pose proof (pow2_opp n).
    transitivity (u * pow2 e * (pow2 n * pow2 (- n)))%Q; [rewrite H|]; ring. }
  destruct (decide (k = 9007199254740992)) as [Hk|Hk].
  - rewrite Hk. replace (Zdigits2 9007199254740992) with 54 by reflexivity.
    rewrite fexp_normal by lia.
    replace (54 + (e + n) - 53 - (e + n)) with 1 by lia. simpl.
    change (1024 - 53) with 971.
    destruct (Z.leb_spec (e + n + 1) 971) as [Hle|Hgt]; [left|right].
    + exists 4503599627370496%positive, (e + n + 1). split; [done|].
      split; [lia|]. split; [lia|]. split; [done|].
      apply (rounds_proper (U * pow2 (e + n)) _ (inject_Z k * pow2 (e + n))).
      * by symmetry.
      * rewrite pow2_succ, Hk.
        change (inject_Z 9007199254740992) with (2 * inject_Z 4503599627370496)%Q.
        ring.
      * apply rounds_scaled; (done || lia).
    + split; [done|lia].
  - assert (Zdigits2 k = 53) as Hdk by (apply Zdigits2_unique; simpl; lia).
    rewrite Hdk, fexp_normal by lia.
    replace (53 + (e + n) - 53 - (e + n)) with 0 by lia. simpl.
    destruct k as [|p|p] eqn:Ek; [lia| |lia]. change (1024 - 53) with 971.
    destruct (Z.leb_spec (e + n) 971) as [Hle|Hgt]; [left|right].
    + exists p, (e + n). split; [done|].
      split; [lia|]. split; [lia|]. split; [done|].
      apply (rounds_proper (U * pow2 (e + n)) _ (inject_Z (Z.pos p) * pow2 (e + n)));
        [by symmetry|done|].
      apply rounds_scaled; (done || lia).
    + split; [done|lia].
Qed.

(** The sign is carried through the rounding unchanged. *)
Lemma binary_round_aux_opp (s : bool) (m e : Z) (l : location) :
  binary_round_aux 53 1024 (negb s) m e l = SFopp (binary_round_aux 53 1024 s m e l).
Proof.
  unfold binary_round_aux. destruct (shr_fexp 53 1024 m e l) as [mrs1 e1].
  destruct (shr_fexp 53 1024 _ e1 loc_Exact) as [mrs2 e2].
  destruct (shr_m mrs2); [done| |done]. by destruct (e2 <=? 1024 - 53).
Qed.

(** *** Division, multiplication and the double of an integer *)

(** Where the fraction [r / d] of a quotient lies relative to one half. *)
Lemma fraction_bounds (r d : Z) :
  0 < d -> 0 <= r < d ->
  let f := (inject_Z r / inject_Z d)%Q in
  (r = 0 -> (f == 0)%Q) /\
  (0 < r -> 2 * r < d -> (0 < f /\ f < 1 # 2)%Q) /\
  (2 * r = d -> (f == 1 # 2)%Q) /\
  (d < 2 * r -> ((1 # 2) < f /\ f < 1)%Q).
Proof.
  intros Hd Hr f.
  assert (0 < inject_Z d)%Q as HD by (change 0%Q with (inject_Z 0); by rewrite <-Zlt_Qlt).
  assert (f * inject_Z d == inject_Z r)%Q as Hf.
  { unfold f. field. lra. }
  split_and!.
  - intros ->. unfold f. change (inject_Z 0) with 0%Q. field. lra.
  - intros H0 H2.
    assert (0 < inject_Z r)%Q by (change 0%Q with (inject_Z 0); by rewrite <-Zlt_Qlt).
    assert (2 * inject_Z r < inject_Z d)%Q.
    { change 2%Q with (inject_Z 2). by rewrite <-inject_Z_mult, <-Zlt_Qlt. }
    split.
    + apply (Qmult_lt_r _ _ (inject_Z d)); [done|]. lra.
    + apply (Qmult_lt_r _ _ (inject_Z d)); [done|]. lra.
  - intros H2.
    assert (2 * inject_Z r == inject_Z d)%Q.
    { change 2%Q with (inject_Z 2). by rewrite <-inject_Z_mult, H2. }
    apply (Qmult_inj_r _ _ (inject_Z d)); [lra|]. lra.
  - intros H2.
    assert (inject_Z d < 2 * inject_Z r)%Q.
    { change 2%Q with (inject_Z 2). by rewrite <-inject_Z_mult, <-Zlt_Qlt. }
    assert (inject_Z r < inject_Z d)%Q by (rewrite <-Zlt_Qlt; lia).
    split.
    + apply (Qmult_lt_r _ _ (inject_Z d)); [done|]. lra.
    + apply (Qmult_lt_r _ _ (inject_Z d)); [done|]. lra.
Qed.

Lemma new_location_located (q d r : Z) :
  0 < d -> 0 <= r < d ->
  located (shr_record_of_loc q (new_location d r))
          (inject_Z q + inject_Z r / inject_Z d).
Proof.
  intros Hd Hr.
  destruct (fraction_bounds r d Hd Hr) as (F0 & F1 & F2 & F3).
  set (f := (inject_Z r / inject_Z d)%Q) in *.
  unfold new_location, new_location_even, new_location_odd.
  destruct (Z.even d) eqn:Ev.
  - destruct (Z.eqb_spec r 0) as [->|Hr0].
    + unfold located; simpl. specialize (F0 eq_refl). lra.
    + destruct (Z.compare_spec (2 * r) d) as [H|H|H]; unfold located; simpl.
      * specialize (F2 H). lra.
      * specialize (F1 ltac:(lia) H). lra.
      * specialize (F3 H). lra.
  - assert (2 * r <> d) as Hodd.
    { intros <-. by rewrite Z.even_mul in Ev. }
    destruct (Z.eqb_spec r 0) as [->|Hr0].
    + unfold located; simpl. specialize (F0 eq_refl). lra.
    + destruct (Z.compare_spec (2 * r + 1) d) as [H|H|H]; unfold located; simpl.
      * specialize (F1 ltac:(lia) ltac:(lia)). lra.
      * specialize (F1 ltac:(lia) ltac:(lia)). lra.
      * specialize (F3 ltac:(lia)). lra.
Qed.

(** The quotient of two normal doubles is the exact quotient rounded to 53
    bits. *)
Lemma SFdiv_normal (sx sy : bool) (mx my : positive) (ex ey : Z) :
  normal_mantissa mx -> normal_mantissa my ->
  -1021 <= ex - ey <= 1000 ->
  exists (m : positive) (e : Z),
    SFdiv 53 1024 (S754_finite sx mx ex) (S754_finite sy my ey)
    = S754_finite (xorb sx sy) m e /\
    normal_mantissa m /\ ex - ey - 53 <= e <= ex - ey - 51 /\
    rounds ((inject_Z (Z.pos mx) * pow2 ex) / (inject_Z (Z.pos my) * pow2 ey))
           (inject_Z (Z.pos m) * pow2 e).
Proof.
  intros Hx Hy He.
  unfold SFdiv, SFdiv_core_binary. cbv zeta.
  rewrite (normal_digits mx Hx), (normal_digits my Hy).
  rewrite fexp_normal by lia.
  replace (Z.min (53 + ex - (53 + ey) - 53) (ex - ey)) with (ex - ey - 53) by lia.
  replace (ex - ey - (ex - ey - 53)) with 53 by lia.
  cbv iota. rewrite Z.shiftl_mul_pow2 by lia.
  pose proof (Z_div_mod (Z.pos mx * 2 ^ 53) (Z.pos my) ltac:(lia)) as Hdiv.
  destruct (Z.div_eucl (Z.pos mx * 2 ^ 53) (Z.pos my)) as [q r].
  destruct Hdiv as [Hq Hr].
  change (2 ^ 53) with 9007199254740992 in Hq.
  unfold normal_mantissa in Hx, Hy.
  assert (4503599627370496 <= q < 18014398509481984) as Hqb.
  { assert (0 <= q) as Hq0.
    { destruct (Z.le_gt_cases 0 q) as [|Hneg]; [done|].
      assert (Z.pos my * q <= Z.pos my * (-1)) by (apply Z.mul_le_mono_nonneg_l; lia).
      lia. }
    split.
    - assert (Z.pos mx < q + 1); [|lia].
      apply (Z.mul_lt_mono_pos_r 9007199254740992); [lia|].
      assert (Z.pos my * (q + 1) <= 9007199254740992 * (q + 1))
        by (apply Z.mul_le_mono_nonneg_r; lia).
      lia.
    - apply (Z.mul_lt_mono_pos_l 4503599627370496); [lia|].
      assert (4503599627370496 * q <= Z.pos my * q)
        by (apply Z.mul_le_mono_nonneg_r; lia).
      lia. }
  set (u := (inject_Z q + inject_Z r / inject_Z (Z.pos my))%Q).
  pose proof (new_location_located q (Z.pos my) r ltac:(lia) Hr) as Hloc.
  fold u in Hloc.
  assert (53 <= Zdigits2 q <= 54) as Hdq.
  { pose proof (Zdigits2_bounds q ltac:(lia)) as [H1 H2].
    split.
    - destruct (Z.le_gt_cases 53 (Zdigits2 q)) as [|Hlt]; [done|].
      assert (2 ^ Zdigits2 q <= 2 ^ 52) by (apply Z.pow_le_mono_r; lia).
      change (2 ^ 52) with 4503599627370496 in *. lia.
    - destruct (Z.le_gt_cases (Zdigits2 q) 54) as [|Hlt]; [done|].
      assert (2 ^ 54 <= 2 ^ (Zdigits2 q - 1)) by (apply Z.pow_le_mono_r; lia).
      change (2 ^ 54) with 18014398509481984 in *. lia. }
  destruct (binary_round_aux_correct (xorb sx sy) q (ex - ey - 53)
              (new_location (Z.pos my) r) u ltac:(lia) Hloc ltac:(lia) ltac:(lia))
    as [(m & e & -> & Hm & He' & _ & Hrnd)|[_ Hbad]]; [|lia].
  exists m, e. split; [done|]. split; [done|]. split; [lia|].
  eapply rounds_proper; [|reflexivity|exact Hrnd].
  pose proof (inject_Z_pos my) as Hmy. pose proof (pow2_pos ey) as Hpy.
  unfold u. replace (ex - ey - 53) with (ex + (- ey + - 53)) by lia.
  rewrite !pow2_add, pow2_neg.
  assert (inject_Z (Z.pos mx) * 9007199254740992
          == inject_Z (Z.pos my) * inject_Z q + inject_Z r)%Q as E.
  { change 9007199254740992%Q with (inject_Z 9007199254740992).
    by rewrite <-!inject_Z_mult, <-inject_Z_plus, Hq. }
  change (pow2 (-53)) with (1 # 9007199254740992)%Q.
  transitivity ((inject_Z (Z.pos my) * inject_Z q + inject_Z r)
                / inject_Z (Z.pos my) * (pow2 ex * (/ pow2 ey * (1 # 9007199254740992))))%Q.
  { field. lra. }
  rewrite <-E. field. lra.
Qed.

(** The product of two normal doubles is the exact product rounded to 53
    bits. *)
Lemma SFmul_normal (sx sy : bool) (mx my : positive) (ex ey : Z) :
  normal_mantissa mx -> normal_mantissa my ->
  -1126 <= ex + ey <= 900 ->
  exists (m : positive) (e : Z),
    SFmul 53 1024 (S754_finite sx mx ex) (S754_finite sy my ey)
    = S754_finite (xorb sx sy) m e /\
    normal_mantissa m /\ ex + ey + 52 <= e <= ex + ey + 54 /\
    rounds ((inject_Z (Z.pos mx) * pow2 ex) * (inject_Z (Z.pos my) * pow2 ey))
           (inject_Z (Z.pos m) * pow2 e).
Proof.
  intros Hx Hy He. unfold SFmul. unfold normal_mantissa in Hx, Hy.
  assert (2 ^ 104 <= Z.pos (mx * my) < 2 ^ 106) as Hb.
  { rewrite Pos2Z.inj_mul.
    change (2 ^ 104) with (4503599627370496 * 4503599627370496).
    change (2 ^ 106) with (9007199254740992 * 9007199254740992).
    split; [apply Z.mul_le_mono_nonneg; lia|apply Z.mul_lt_mono_nonneg; lia]. }
  assert (inject_Z (Z.pos (mx * my))
          == inject_Z (Z.pos mx) * inject_Z (Z.pos my))%Q as Hp
    by (by rewrite Pos2Z.inj_mul, inject_Z_mult).
  revert Hb Hp. generalize (mx * my)%positive. intros p Hb Hp.
  pose proof (Zdigits2_range _ _ _ (Pos2Z.is_pos p) Hb) as Hd.
  assert (located (shr_record_of_loc (Z.pos p) loc_Exact) (inject_Z (Z.pos p)))
    as Hloc by (by unfold located).
  destruct (binary_round_aux_correct (xorb sx sy) (Z.pos p) (ex + ey)
              loc_Exact _ (Pos2Z.is_pos p) Hloc ltac:(lia) ltac:(lia))
    as [(m & e & -> & Hm & He' & _ & Hrnd)|[_ Hbad]]; [|lia].
  exists m, e. split; [done|]. split; [done|]. split; [lia|].
  eapply rounds_proper; [|reflexivity|exact Hrnd].
  rewrite Hp, pow2_add. ring.
Qed.

Lemma shl_align_spec (mx : positive) (ex ex' : Z) :
  let '(mz, ez) := shl_align mx ex ex' in
  ez = Z.min ex ex' /\ Z.pos mz = Z.pos mx * 2 ^ (ex - ez).
Proof.
  unfold shl_align. destruct (ex' - ex) as [|d|d] eqn:E.
  - split; [lia|]. replace (ex - ex) with 0 by lia. lia.
  - split; [lia|]. replace (ex - ex) with 0 by lia. lia.
  - split; [lia|]. replace (ex - ex') with (Z.pos d) by lia.
    change (Pos.iter xO mx d) with (shift_pos d mx).
    rewrite shift_pos_correct, Z.mul_comm. reflexivity.
Qed.

(** The double of a positive integer is the integer rounded to 53 bits, or
    the positive infinity. *)
Lemma Number_positive (z : Z) :
  0 < z ->
  (exists (m : positive) (e : Z),
      Number z = S754_finite false m e /\ normal_mantissa m /\
      Zdigits2 z - 53 <= e <= Zdigits2 z - 52 /\
      rounds (inject_Z z) (inject_Z (Z.pos m) * pow2 e))
  \/ (Number z = S754_infinity false /\ 1024 <= Zdigits2 z).
Proof.
  intros Hz. destruct z as [|p|p]; [lia| |lia].
  unfold Number, binary_normalize, binary_round.
  pose proof (Zdigits2_bounds (Z.pos p) Hz) as Hb. simpl Zdigits2 in *.
  set (d := Z.pos (digits2_pos p)) in *.
  rewrite fexp_normal by lia.
  pose proof (shl_align_spec p 0 (d + 0 - 53)) as Hs.
  destruct (shl_align p 0 (d + 0 - 53)) as [mz ez]. destruct Hs as [Hez Hmz].
  assert (Zdigits2 (Z.pos mz) = d - ez) as Hdz.
  { apply Zdigits2_unique; [lia|]. rewrite Hmz.
    replace (0 - ez) with (- ez) by lia.
    replace (d - ez - 1) with (d - 1 + - ez) by lia.
    replace (d - ez) with (d + - ez) by lia.
    rewrite !Z.pow_add_r by lia.
    assert (0 < 2 ^ (- ez)) by (apply Z.pow_pos_nonneg; lia).
    split; [apply Z.mul_le_mono_nonneg_r; lia|apply Z.mul_lt_mono_pos_r; lia]. }
  assert (located (shr_record_of_loc (Z.pos mz) loc_Exact) (inject_Z (Z.pos mz)))
    as Hloc by (by unfold located).
  assert (inject_Z (Z.pos mz) * pow2 ez == inject_Z (Z.pos p))%Q as Hv.
  { rewrite Hmz, inject_Z_mult. replace (0 - ez) with (- ez) by lia.
    rewrite <-(pow2_inject (- ez)) by lia.
    rewrite <-Qmult_assoc, (Qmult_comm (pow2 (- ez))), pow2_opp. ring. }
  destruct (binary_round_aux_correct false (Z.pos mz) ez loc_Exact _
              ltac:(lia) Hloc ltac:(lia) ltac:(lia))
    as [(m & e & -> & Hm & He' & _ & Hrnd)|[-> Hbad]]; [left|right].
  - exists m, e. split; [done|]. split; [done|]. split; [lia|].
    eapply rounds_proper; [exact Hv|reflexivity|exact Hrnd].
  - split; [done|lia].
Qed.

(** A positive integer below 2^53 is its own double. *)
Lemma Number_safe (z : Z) :
  0 < z < 9007199254740992 ->
  exists (m : positive) (e : Z),
    Number z = S754_finite false m e /\ normal_mantissa m /\ -52 <= e <= 0 /\
    (inject_Z (Z.pos m) * pow2 e == inject_Z z)%Q.
Proof.
  intros Hz.
  assert (0 < Zdigits2 z <= 53) as Hd.
  { apply Zdigits2_range; [lia|]. change (2 ^ 0) with 1.
    change (2 ^ 53) with 9007199254740992. lia. }
  destruct (Number_positive z ltac:(lia))
    as [(m & e & E & Hm & He & Hrnd)|[_ Hbad]]; [|lia].
  (* the integer is representable *)
  pose proof (Zdigits2_bounds z ltac:(lia)) as Hb.
  set (d := Zdigits2 z) in *.
  assert (4503599627370496 <= z * 2 ^ (53 - d) < 9007199254740992) as Hj.
  { assert (2 ^ (d - 1) * 2 ^ (53 - d) = 4503599627370496) as E1.
    { rewrite <-Z.pow_add_r by lia. by replace (d - 1 + (53 - d)) with 52 by lia. }
    assert (2 ^ d * 2 ^ (53 - d) = 9007199254740992) as E2.
    { rewrite <-Z.pow_add_r by lia. by replace (d + (53 - d)) with 53 by lia. }
    assert (0 < 2 ^ (53 - d)) by (apply Z.pow_pos_nonneg; lia).
    rewrite <-E1, <-E2.
    split; [apply Z.mul_le_mono_nonneg_r; lia|apply Z.mul_lt_mono_pos_r; lia]. }
  assert (inject_Z z == inject_Z (z * 2 ^ (53 - d)) * pow2 (d - 53))%Q as Hrep.
  { rewrite inject_Z_mult, <-(pow2_inject (53 - d)) by lia.
    replace (d - 53) with (- (53 - d)) by lia.
    rewrite <-Qmult_assoc, pow2_opp. ring. }
  pose proof (rounds_representable _ _ _ _ Hrnd Hrep Hj) as Hy.
  exists m, e. split; [done|]. split; [done|]. split; [|done].
  split; [lia|].
  (* the exponent is that of the binade of z *)
  destruct Hrnd as (k & g & Hk & Ey & L & U & _).
  assert (e <= d - 53); [|lia].
  rewrite Hy in Ey.
  pose proof (pow2_pos e) as Pe. pose proof (pow2_pos (d - 53)) as Pd.
  unfold normal_mantissa in Hm.
  assert (4503599627370496 <= inject_Z (Z.pos m))%Q.
  { change 4503599627370496%Q with (inject_Z 4503599627370496). rewrite <-Zle_Qle. lia. }
  assert (inject_Z (z * 2 ^ (53 - d)) < 9007199254740992)%Q.
  { change 9007199254740992%Q with (inject_Z 9007199254740992). rewrite <-Zlt_Qlt. lia. }
  apply pow2_lt_double. rewrite Hrep in Hy. nra.
Qed.

Lemma Number_opp (z : Z) : z <> 0 -> Number (- z) = SFopp (Number z).
Proof.
  intros Hz. unfold Number. destruct z as [|p|p]; [done| |]; simpl;
    unfold binary_round; destruct (shl_align _ _ _) as [mz ez].
  - apply (binary_round_aux_opp false).
  - rewrite (binary_round_aux_opp false).
    by destruct (binary_round_aux _ _ _ _ _ _) as [[]|[]| |[] ? ?].
Qed.

Lemma Number_div_opp (a b : spec_float) :
  Number_div (SFopp a) b = SFopp (Number_div a b).
Proof.
  unfold Number_div. destruct a as [sa|sa| |sa ma ea], b as [sb|sb| |sb mb eb];
    simpl; try done; try (by destruct sa, sb).
  destruct (SFdiv_core_binary _ _ _ _ _ _) as [[mz ez] lz].
  replace (xorb (negb sa) sb) with (negb (xorb sa sb)) by (by destruct sa, sb).
  apply binary_round_aux_opp.
Qed.

Lemma Number_mul_opp (a b : spec_float) :
  Number_mul (SFopp a) b = SFopp (Number_mul a b).
Proof.
  unfold Number_mul. destruct a as [sa|sa| |sa ma ea], b as [sb|sb| |sb mb eb];
    simpl; try done; try (by destruct sa, sb).
  replace (xorb (negb sa) sb) with (negb (xorb sa sb)) by (by destruct sa, sb).
  apply binary_round_aux_opp.
Qed.

(** *** Comparison and [Math.min] *)

(** Normal doubles compare as their values do. *)
Lemma SFcompare_normal (m1 m2 : positive) (e1 e2 : Z) :
  normal_mantissa m1 -> normal_mantissa m2 ->
  SFcompare (S754_finite false m1 e1) (S754_finite false m2 e2)
  = Some (inject_Z (Z.pos m1) * pow2 e1 ?= inject_Z (Z.pos m2) * pow2 e2)%Q.
Proof.
  intros H1 H2. unfold normal_mantissa in *. simpl. f_equal.
  pose proof (pow2_pos e1) as P1. pose proof (pow2_pos e2) as P2.
  assert (forall m : positive, 4503599627370496 <= Z.pos m < 9007199254740992 ->
            (4503599627370496 <= inject_Z (Z.pos m) /\
             inject_Z (Z.pos m) < 9007199254740992)%Q) as Hq.
  { intros m Hm. change 4503599627370496%Q with (inject_Z 4503599627370496).
    change 9007199254740992%Q with (inject_Z 9007199254740992).
    rewrite <-Zle_Qle, <-Zlt_Qlt. lia. }
  destruct (Hq _ H1) as [A1 B1]. destruct (Hq _ H2) as [A2 B2].
  destruct (Z.compare_spec e1 e2) as [->|Hlt|Hgt].
  - change (Pos.compare_cont Eq m1 m2) with (m1 ?= m2)%positive.
    destruct (Pos.compare_spec m1 m2) as [->|Hm|Hm]; symmetry.
    + by apply (proj1 (Qeq_alt _ _)).
    + apply (proj1 (Qlt_alt _ _)). apply Qmult_lt_compat_r; [done|]. rewrite <-Zlt_Qlt. lia.
    + apply (proj1 (Qgt_alt _ _)). apply Qmult_lt_compat_r; [done|]. rewrite <-Zlt_Qlt. lia.
  - symmetry. apply (proj1 (Qlt_alt _ _)).
    assert (2 * pow2 e1 <= pow2 e2)%Q.
    { rewrite <-pow2_succ. apply pow2_le. lia. }
    assert (inject_Z (Z.pos m1) * pow2 e1 < 9007199254740992 * pow2 e1)%Q
      by (by apply Qmult_lt_compat_r).
    assert (4503599627370496 * pow2 e2 <= inject_Z (Z.pos m2) * pow2 e2)%Q
      by (apply Qmult_le_compat_r; lra).
    lra.
  - symmetry. apply (proj1 (Qgt_alt _ _)).
    assert (2 * pow2 e2 <= pow2 e1)%Q.
    { rewrite <-pow2_succ. apply pow2_le. lia. }
    assert (inject_Z (Z.pos m2) * pow2 e2 < 9007199254740992 * pow2 e2)%Q
      by (by apply Qmult_lt_compat_r).
    assert (4503599627370496 * pow2 e1 <= inject_Z (Z.pos m1) * pow2 e1)%Q
      by (apply Qmult_le_compat_r; lra).
    lra.
Qed.

(** A value has one normal representation. *)
Lemma normal_unique (m m' : positive) (e e' : Z) :
  normal_mantissa m -> normal_mantissa m' ->
  (inject_Z (Z.pos m) * pow2 e == inject_Z (Z.pos m') * pow2 e')%Q ->
  m = m' /\ e = e'.
Proof.
  intros Hm Hm' E.
  pose proof (SFcompare_normal m m' e e' Hm Hm') as Hc.
  rewrite (proj1 (Qeq_alt _ _) E) in Hc. simpl in Hc.
  destruct (Z.compare_spec e e') as [->|_|_]; [|discriminate..].
  split; [|done]. apply Pos.compare_eq. by injection Hc.
Qed.

Lemma Number_le_normal (m m' : positive) (e e' : Z) :
  normal_mantissa m -> normal_mantissa m' ->
  (inject_Z (Z.pos m) * pow2 e <= inject_Z (Z.pos m') * pow2 e')%Q ->
  Number_le (S754_finite false m e) (S754_finite false m' e').
Proof.
  intros Hm Hm' H. unfold Number_le, SFleb. rewrite SFcompare_normal by done.
  destruct (Qcompare_spec (inject_Z (Z.pos m) * pow2 e)
                          (inject_Z (Z.pos m') * pow2 e')); (done || lra).
Qed.

Lemma Number_le_normal_neg (m m' : positive) (e e' : Z) :
  normal_mantissa m -> normal_mantissa m' ->
  (inject_Z (Z.pos m') * pow2 e' <= inject_Z (Z.pos m) * pow2 e)%Q ->
  Number_le (S754_finite true m e) (S754_finite true m' e').
Proof.
  intros Hm Hm' H. unfold Number_le, SFleb.
  assert (SFcompare (S754_finite true m e) (S754_finite true m' e')
          = option_map CompOpp
              (SFcompare (S754_finite false m e) (S754_finite false m' e'))) as ->.
  { simpl. by destruct (e ?= e'). }
  rewrite SFcompare_normal by done. simpl.
  destruct (Qcompare_spec (inject_Z (Z.pos m) * pow2 e)
                          (inject_Z (Z.pos m') * pow2 e')); (done || lra).
Qed.

Lemma Number_100 : Number 100 = S754_finite false 7036874417766400 (-46).
Proof. reflexivity. Qed.

Lemma exact_100 : (inject_Z 7036874417766400 * pow2 (-46) == 100)%Q.
Proof. reflexivity. Qed.

Lemma normal_100 : normal_mantissa 7036874417766400.
Proof. unfold normal_mantissa. lia. Qed.

(** [Math.min(x, 100)] on a normal double [x]. *)
Lemma Math_min_100 (m : positive) (e : Z) :
  normal_mantissa m ->
  let v := (inject_Z (Z.pos m) * pow2 e)%Q in
  ((v < 100)%Q -> Math_min (S754_finite false m e) (Number 100) = S754_finite false m e) /\
  ((100 <= v)%Q -> Math_min (S754_finite false m e) (Number 100) = Number 100).
Proof.
  intros Hm v. unfold Math_min. rewrite Number_100.
  rewrite (SFcompare_normal m _ e _ Hm normal_100). fold v.
  destruct (Qcompare_spec v (inject_Z 7036874417766400 * pow2 (-46))) as [H|H|H];
    rewrite exact_100 in H; split; intros H'; (done || lra).
Qed.

Lemma Math_min_100_mono (m m' : positive) (e e' : Z) :
  normal_mantissa m -> normal_mantissa m' ->
  (inject_Z (Z.pos m) * pow2 e <= inject_Z (Z.pos m') * pow2 e')%Q ->
  Number_le (Math_min (S754_finite false m e) (Number 100))
            (Math_min (S754_finite false m' e') (Number 100)).
Proof.
  intros Hm Hm' Hv.
  destruct (Math_min_100 m e Hm) as [Hlt Hge].
  destruct (Math_min_100 m' e' Hm') as [Hlt' Hge'].
  destruct (Qlt_le_dec (inject_Z (Z.pos m) * pow2 e) 100) as [H|H];
    destruct (Qlt_le_dec (inject_Z (Z.pos m') * pow2 e') 100) as [H'|H'].
  - rewrite Hlt, Hlt' by done. by apply Number_le_normal.
  - rewrite Hlt, Hge' by done. rewrite Number_100.
    apply Number_le_normal; [done|apply normal_100|]. rewrite exact_100. lra.
  - lra.
  - rewrite Hge, Hge' by done. reflexivity.
Qed.

(** ** The percentage *)

Lemma ratio_spec (c w : Z) :
  0 < w -> (inject_Z c / inject_Z w * inject_Z w == inject_Z c)%Q.
Proof.
  intros Hw. field. intros H. assert (0 < inject_Z w)%Q; [|lra].
  change 0%Q with (inject_Z 0). by rewrite <-Zlt_Qlt.
Qed.

Lemma ratio_lt (c c' w : Z) :
  0 < w -> c < c' -> (inject_Z c / inject_Z w < inject_Z c' / inject_Z w)%Q.
Proof.
  intros Hw Hc.
  assert (0 < inject_Z w)%Q as HW by (change 0%Q with (inject_Z 0); by rewrite <-Zlt_Qlt).
  apply (Qmult_lt_r _ _ (inject_Z w)); [done|].
  rewrite !ratio_spec by done. by rewrite <-Zlt_Qlt.
Qed.

(** [n / d] on safe integers. *)
Lemma quotient_rounds (n d : Z) :
  0 < n < 9007199254740992 -> 0 < d < 9007199254740992 ->
  exists (m : positive) (e : Z),
    Number_div (Number n) (Number d) = S754_finite false m e /\
    normal_mantissa m /\ -105 <= e <= 1 /\
    rounds (inject_Z n / inject_Z d) (inject_Z (Z.pos m) * pow2 e).
Proof.
  intros Hn Hd.
  destruct (Number_safe n Hn) as (mn & en & -> & Hmn & Hen & Vn).
  destruct (Number_safe d Hd) as (md & ed & -> & Hmd & Hed & Vd).
  destruct (SFdiv_normal false false mn md en ed Hmn Hmd ltac:(lia))
    as (m & e & E & Hm & He & R).
  exists m, e. split; [exact E|]. split; [done|]. split; [lia|].
  eapply rounds_proper; [|reflexivity|exact R]. by rewrite Vn, Vd.
Qed.

(** [c / w * 100] on safe integers. *)
Lemma quotient_percent (c w : Z) :
  0 < c < 9007199254740992 -> 0 < w < 9007199254740992 ->
  exists (my m : positive) (ey e : Z),
    Number_div (Number c) (Number w) = S754_finite false my ey /\
    normal_mantissa my /\
    rounds (inject_Z c / inject_Z w) (inject_Z (Z.pos my) * pow2 ey) /\
    Number_mul (S754_finite false my ey) (Number 100) = S754_finite false m e /\
    normal_mantissa m /\
    rounds (inject_Z (Z.pos my) * pow2 ey * 100) (inject_Z (Z.pos m) * pow2 e).
Proof.
  intros Hc Hw.
  destruct (quotient_rounds c w Hc Hw) as (my & ey & Ey & Hmy & Hey & Ry).
  destruct (SFmul_normal false false my 7036874417766400 ey (-46) Hmy normal_100
              ltac:(lia)) as (m & e & Ez & Hm & He & Rz).
  exists my, m, ey, e. unfold Number_mul. rewrite Number_100.
  split; [exact Ey|]. split; [done|]. split; [done|].
  split; [exact Ez|]. split; [done|].
  eapply rounds_proper; [|reflexivity|exact Rz]. by rewrite exact_100.
Qed.

(** No tokens: the percentage is 0, whatever the window size. *)
Lemma percentageOf_zero (contextWindowSize : Z) :
  percentageOf 0 contextWindowSize = Number 0.
Proof.
  unfold percentageOf. destruct (Z.ltb_spec 0 contextWindowSize) as [Hw|]; [|done].
  destruct (Number_positive _ Hw) as [(m & e & -> & _)|[-> _]]; reflexivity.
Qed.

Lemma percentageOf_nonpositive_window (currentTokens contextWindowSize : Z) :
  contextWindowSize <= 0 -> percentageOf currentTokens contextWindowSize = Number 0.
Proof.
  intros H. unfold percentageOf.
  by destruct (Z.ltb_spec 0 contextWindowSize); [lia|].
Qed.

(** The percentage of positive safe integers: 100 once the tokens reach the
    window size, and below 100, within a relative distance of 2^-51 of the
    exact ratio, before. *)
Lemma percentageOf_positive (c w : Z) :
  0 < c < 9007199254740992 -> 0 < w < 9007199254740992 ->
  (w <= c -> percentageOf c w = Number 100) /\
  (c < w ->
   exists (m : positive) (e : Z),
     percentageOf c w = S754_finite false m e /\ normal_mantissa m /\
     let v := (inject_Z (Z.pos m) * pow2 e)%Q in
     let x := (inject_Z c / inject_Z w * 100)%Q in
     (v < 100)%Q /\
     (v - x <= x * (1 # 2251799813685248))%Q /\
     (x - v <= x * (1 # 2251799813685248))%Q).
Proof.
  intros Hc Hw.
  destruct (quotient_percent c w Hc Hw)
    as (my & m & ey & e & Ey & Hmy & Ry & Ez & Hm & Rz).
  unfold percentageOf. destruct (Z.ltb_spec 0 w) as [_|]; [|lia].
  rewrite Ey, Ez.
  destruct (Math_min_100 m e Hm) as [Hlt Hge].
  pose proof (ratio_spec c w ltac:(lia)) as Hq.
  set (q := (inject_Z c / inject_Z w)%Q) in *.
  set (vy := (inject_Z (Z.pos my) * pow2 ey)%Q) in *.
  set (vz := (inject_Z (Z.pos m) * pow2 e)%Q) in *.
  assert (0 < inject_Z w /\ inject_Z w <= 9007199254740992)%Q as [HW1 HW2].
  { change 0%Q with (inject_Z 0).
    change 9007199254740992%Q with (inject_Z 9007199254740992).
    rewrite <-Zlt_Qlt, <-Zle_Qle. lia. }
  split.
  - intros Hwc. apply Hge.
    assert (1 <= q)%Q as Hq1.
    { apply (Qmult_le_r _ _ (inject_Z w)); [done|]. rewrite Hq, Qmult_1_l.
      by rewrite <-Zle_Qle. }
    assert (1 <= vy)%Q as Hy1.
    { pose proof (rounds_ge_representable q vy 4503599627370496 (-52) Ry
                    ltac:(lia)) as H1.
      assert (inject_Z 4503599627370496 * pow2 (-52) == 1)%Q as E by reflexivity.
      rewrite E in H1. by apply H1. }
    rewrite <-exact_100. apply (rounds_ge_representable (vy * 100)); [done| |].
    + pose proof normal_100. done.
    + rewrite exact_100. lra.
  - intros Hcw. exists m, e.
    assert (q <= 1 - (1 # 9007199254740992))%Q as Hq1.
    { apply (Qmult_le_r _ _ (inject_Z w)); [done|]. rewrite Hq.
      assert (inject_Z (c + 1) <= inject_Z w)%Q as H1 by (rewrite <-Zle_Qle; lia).
      rewrite inject_Z_plus in H1. change (inject_Z 1) with 1%Q in H1. lra. }
    assert (vy <= 1 - (1 # 9007199254740992))%Q as Hy1.
    { pose proof (rounds_le_representable q vy 9007199254740991 (-53) Ry
                    ltac:(lia)) as H1.
      assert (inject_Z 9007199254740991 * pow2 (-53)
              == 1 - (1 # 9007199254740992))%Q as E by reflexivity.
      rewrite E in H1. by apply H1. }
    pose proof (rounds_error _ _ Ry) as [Ay By].
    pose proof (rounds_error _ _ Rz) as [Az Bz].
    pose proof (rounds_pos _ _ Ry) as [Hq0 Hy0].
    assert (vz < 100)%Q as Hz by lra.
    split; [by apply Hlt|]. split; [done|]. cbv zeta. fold vz. split; [done|].
    split; lra.
Qed.

(** A negative token count gives the opposite of the double computed for
    its absolute value; [Math.min] leaves it. *)
Lemma percentageOf_negative (c w : Z) :
  -9007199254740992 < c < 0 -> 0 < w < 9007199254740992 ->
  exists (m : positive) (e : Z),
    percentageOf c w = S754_finite true m e /\
    Number_mul (Number_div (Number (- c)) (Number w)) (Number 100)
    = S754_finite false m e /\ normal_mantissa m.
Proof.
  intros Hc Hw.
  destruct (quotient_percent (- c) w ltac:(lia) Hw)
    as (my & m & ey & e & Ey & Hmy & Ry & Ez & Hm & Rz).
  exists m, e. unfold percentageOf. destruct (Z.ltb_spec 0 w) as [_|]; [|lia].
  replace c with (- - c) at 1 by lia.
  rewrite Number_opp, Number_div_opp, Number_mul_opp by lia.
  rewrite Ey, Ez. split; [|done]. reflexivity.
Qed.

Lemma percentageOf_positive_shape (c w : Z) :
  0 < c < 9007199254740992 -> 0 < w < 9007199254740992 ->
  exists (m : positive) (e : Z),
    percentageOf c w = S754_finite false m e /\ normal_mantissa m /\
    (inject_Z (Z.pos m) * pow2 e <= 100)%Q.
Proof.
  intros Hc Hw. destruct (percentageOf_positive c w Hc Hw) as [Hfull Hpart].
  destruct (decide (w <= c)) as [Hwc|Hcw].
  - rewrite (Hfull Hwc), Number_100. eexists _, _. split; [done|].
    split; [apply normal_100|]. rewrite exact_100. lra.
  - destruct (Hpart ltac:(lia)) as (m & e & E & Hm & Hv & _).
    exists m, e. split; [done|]. split; [done|]. lra.
Qed.

(** The percentage is 100 exactly when the tokens reach the window size. *)
Lemma percentageOf_full (c w : Z) :
  safe_integer c -> 0 < w < 9007199254740992 ->
  (percentageOf c w = Number 100 <-> w <= c).
Proof.
  intros Hc Hw. unfold safe_integer in Hc.
  destruct (Z.lt_trichotomy c 0) as [Hneg|[->|Hpos]].
  - destruct (percentageOf_negative c w ltac:(lia) Hw) as (m & e & -> & _).
    rewrite Number_100. split; [discriminate|lia].
  - rewrite percentageOf_zero. split; [discriminate|lia].
  - destruct (percentageOf_positive c w ltac:(lia) Hw) as [Hfull Hpart].
    split; [|done]. intros E.
    destruct (decide (w <= c)) as [|Hcw]; [done|].
    destruct (Hpart ltac:(lia)) as (m & e & E' & Hm & Hv & _).
    rewrite E, Number_100 in E'. injection E' as <- <-.
    rewrite exact_100 in Hv. lra.
Qed.

(** [c / w * 100] is monotone in [c]. *)
Lemma unclamped_mono (c c' w : Z) :
  0 < c -> c <= c' -> c' < 9007199254740992 -> 0 < w < 9007199254740992 ->
  exists (m m' : positive) (e e' : Z),
    Number_mul (Number_div (Number c) (Number w)) (Number 100)
    = S754_finite false m e /\
    Number_mul (Number_div (Number c') (Number w)) (Number 100)
    = S754_finite false m' e' /\
    normal_mantissa m /\ normal_mantissa m' /\
    (inject_Z (Z.pos m) * pow2 e <= inject_Z (Z.pos m') * pow2 e')%Q.
Proof.
  intros Hc0 Hcc Hc' Hw.
  destruct (quotient_percent c w ltac:(lia) Hw)
    as (my & m & ey & e & Ey & Hmy & Ry & Ez & Hm & Rz).
  destruct (quotient_percent c' w ltac:(lia) Hw)
    as (my' & m' & ey' & e' & Ey' & Hmy' & Ry' & Ez' & Hm' & Rz').
  exists m, m', e, e'. rewrite Ey, Ey'. split; [done|]. split; [done|].
  split; [done|]. split; [done|].
  destruct (decide (c = c')) as [<-|Hne].
  { rewrite Ey in Ey'. injection Ey' as <- <-.
    rewrite Ez in Ez'. injection Ez' as <- <-. lra. }
  pose proof (rounds_mono _ _ _ _ Ry Ry' (ratio_lt c c' w ltac:(lia) ltac:(lia)))
    as Hy.
  destruct (Qle_lt_or_eq _ _ Hy) as [Hlt|Heq].
  - apply (rounds_mono _ _ _ _ Rz Rz'). lra.
  - destruct (normal_unique _ _ _ _ Hmy Hmy' Heq) as [<- <-].
    rewrite Ez in Ez'. injection Ez' as <- <-. lra.
Qed.

(** The percentage is monotone in the tokens. *)
Lemma percentageOf_mono (c c' w : Z) :
  safe_integer c -> safe_integer c' -> w < 9007199254740992 ->
  c <= c' -> Number_le (percentageOf c w) (percentageOf c' w).
Proof.
  intros Hc Hc' Hw Hcc. unfold safe_integer in *.
  destruct (Z.le_gt_cases w 0) as [Hw0|Hw0].
  { rewrite !percentageOf_nonpositive_window by done. reflexivity. }
  destruct (Z.lt_trichotomy c 0) as [Hneg|[->|Hpos]].
  - destruct (percentageOf_negative c w ltac:(lia) ltac:(lia)) as (m & e & -> & U & Hm).
    destruct (Z.lt_trichotomy c' 0) as [Hneg'|[->|Hpos']].
    + destruct (percentageOf_negative c' w ltac:(lia) ltac:(lia))
        as (m' & e' & -> & U' & Hm').
      destruct (unclamped_mono (- c') (- c) w ltac:(lia) ltac:(lia) ltac:(lia)
                  ltac:(lia)) as (n' & n & f' & f & E' & E & _ & _ & Hv).
      rewrite U in E. rewrite U' in E'. injection E as <- <-. injection E' as <- <-.
      by apply Number_le_normal_neg.
    + rewrite percentageOf_zero. reflexivity.
    + destruct (percentageOf_positive_shape c' w ltac:(lia) ltac:(lia))
        as (m' & e' & -> & _). reflexivity.
  - rewrite percentageOf_zero.
    destruct (Z.lt_trichotomy c' 0) as [Hneg'|[->|Hpos']]; [lia| |].
    + rewrite percentageOf_zero. reflexivity.
    + destruct (percentageOf_positive_shape c' w ltac:(lia) ltac:(lia))
        as (m' & e' & -> & _). reflexivity.
  - destruct (unclamped_mono c c' w ltac:(lia) ltac:(lia) ltac:(lia) ltac:(lia))
      as (m & m' & e & e' & E & E' & Hm & Hm' & Hv).
    unfold percentageOf. destruct (Z.ltb_spec 0 w) as [_|]; [|lia].
    rewrite E, E'. by apply Math_min_100_mono.
Qed.

(** The percentage lies between 0 and 100. *)
Lemma percentageOf_range (c w : Z) :
  0 <= c < 9007199254740992 -> w < 9007199254740992 ->
  Number_le (Number 0) (percentageOf c w) /\
  Number_le (percentageOf c w) (Number 100).
Proof.
  intros Hc Hw.
  destruct (Z.le_gt_cases w 0) as [Hw0|Hw0].
  { rewrite percentageOf_nonpositive_window by done. split; reflexivity. }
  destruct (decide (c = 0)) as [->|Hc0].
  { rewrite percentageOf_zero. split; reflexivity. }
  destruct (percentageOf_positive_shape c w ltac:(lia) ltac:(lia))
    as (m & e & -> & Hm & Hv).
  split; [reflexivity|]. rewrite Number_100.
  apply Number_le_normal; [done|apply normal_100|]. by rewrite exact_100.
Qed.

(** The percentage against the exact ratio, clamped. *)
Lemma percentageOf_accurate (c w : Z) :
  0 <= c -> 0 < w -> safe_integer w -> safe_integer c ->
  let x := (inject_Z c / inject_Z w * 100)%Q in
  (w <= c -> percentageOf c w = Number 100) /\
  (exact (percentageOf c w) - clamp100 x
   <= clamp100 x * (1 # 2251799813685248))%Q /\
  (clamp100 x - exact (percentageOf c w)
   <= clamp100 x * (1 # 2251799813685248))%Q.
Proof.
  intros Hc Hw Hsw Hsc x. unfold safe_integer in *.
  pose proof (ratio_spec c w Hw) as Hq. fold (Qdiv (inject_Z c) (inject_Z w)) in Hq.
  assert (0 < inject_Z w)%Q as HW
    by (change 0%Q with (inject_Z 0); by rewrite <-Zlt_Qlt).
  destruct (decide (c = 0)) as [->|Hc0].
  { rewrite percentageOf_zero. split; [lia|].
    assert (x == 0)%Q as Hx by (unfold x; change (inject_Z 0) with 0%Q; field; lra).
    unfold clamp100. destruct (Qlt_le_dec 100 x); simpl; lra. }
  destruct (percentageOf_positive c w ltac:(lia) ltac:(lia)) as [Hfull Hpart].
  split; [done|].
  destruct (decide (w <= c)) as [Hwc|Hcw].
  - rewrite Hfull, Number_100 by done. simpl. rewrite exact_100.
    assert (100 <= x)%Q as Hx.
    { unfold x. assert (1 <= inject_Z c / inject_Z w)%Q; [|lra].
      apply (Qmult_le_r _ _ (inject_Z w)); [done|]. rewrite Hq, Qmult_1_l.
      by rewrite <-Zle_Qle. }
    unfold clamp100. destruct (Qlt_le_dec 100 x); lra.
  - destruct (Hpart ltac:(lia)) as (m & e & -> & Hm & Hv & Ha & Hb).
    fold x in Ha, Hb. simpl.
    assert (x < 100)%Q as Hx.
    { unfold x. assert (inject_Z c / inject_Z w < 1)%Q; [|lra].
      apply (Qmult_lt_r _ _ (inject_Z w)); [done|]. rewrite Hq, Qmult_1_l.
      rewrite <-Zlt_Qlt. lia. }
    unfold clamp100. destruct (Qlt_le_dec 100 x); lra.
Qed.

Lemma percentageOf_1500_1000 : percentageOf 1500 1000 = Number 100.
Proof. reflexivity. Qed.

(** ** The aggregator, by cases *)

Section Aggregator.
Variable normalizeRawUsage : JsValue -> TokenExtractor.StandardizedTokenUsage.
Variable getContextWindowSize : option string -> option string -> Z.
Variable getUsageLevel : number -> ContextUsageLevel.

#[local] Abbreviation normalized := (normalizeUsageForIndicator normalizeRawUsage).
#[local] Abbreviation extract := (extractUsage normalizeRawUsage).
#[local] Abbreviation resolve := (resolveContextWindowSize getContextWindowSize).
#[local] Abbreviation hook :=
  (useContextWindowUsage normalizeRawUsage getContextWindowSize getUsageLevel).

Lemma extractUsage_nil (engine : option string) : extract [] engine = None.
Proof. unfold extractUsage. by destruct (bool_decide _). Qed.

Lemma hook_no_data (messages : list (gmap string JsValue))
    (model engine : option string) :
  extract messages engine = None ->
  hook messages model engine = defaultResult (resolve messages model engine).
Proof.
  intros H. unfold useContextWindowUsage. rewrite H.
  by destruct (length messages =? 0)%nat.
Qed.

Lemma hook_data (messages : list (gmap string JsValue))
    (model engine : option string) (u : Usage) :
  extract messages engine = Some u ->
  let size := resolve messages model engine in
  let tokens := inputTokens u + cacheCreationTokens u + cacheReadTokens u in
  hook messages model engine
  = {| currentTokens := tokens;
       contextWindowSize := size;
       percentage := percentageOf tokens size;
       breakdown := u;
       level := getUsageLevel (percentageOf tokens size);
       hasData := true;
       formattedPercentage := toFixed (percentageOf tokens size) 1 +:+ "%";
       formattedTokens := formatK tokens +:+ " / " +:+ formatK size |}.
Proof.
  intros H. unfold useContextWindowUsage.
  destruct messages as [|msg messages].
  - by rewrite extractUsage_nil in H.
  - rewrite H. simpl. by destruct u.
Qed.

(** The result either carries the extracted usage or is the default. *)
Lemma hook_cases (messages : list (gmap string JsValue))
    (model engine : option string) :
  (extract messages engine = None /\
   hook messages model engine = defaultResult (resolve messages model engine))
  \/ (exists u, extract messages engine = Some u /\
        hasData (hook messages model engine) = true /\
        breakdown (hook messages model engine) = u).
Proof.
  destruct (extract messages engine) as [u|] eqn:E.
  - right. exists u. rewrite (hook_data _ _ _ _ E). by repeat split.
  - left. split; [done|]. by apply hook_no_data.
Qed.

Lemma resolve_generic (messages : list (gmap string JsValue))
    (model engine : option string) :
  engine <> Some "codex" ->
  resolve messages model engine = getContextWindowSize model engine.
Proof.
  intros He. unfold resolveContextWindowSize.
  by rewrite (bool_decide_eq_false_2 _ He).
Qed.

Lemma resolve_nil (model engine : option string) :
  resolve [] model engine = getContextWindowSize model engine.
Proof. unfold resolveContextWindowSize. by destruct (bool_decide _). Qed.

End Aggregator.

(** ** Decimal notation *)

Lemma append_nil_l (s : string) : "" +:+ s = s.
Proof. reflexivity. Qed.

Lemma append_cons (c : ascii) (a b : string) :
  String c a +:+ b = String c (a +:+ b).
Proof. reflexivity. Qed.

Lemma append_assoc (a b c : string) : (a +:+ b) +:+ c = a +:+ (b +:+ c).
Proof.
  induction a as [|x a IH]; [done|]. by rewrite !append_cons, IH.
Qed.

Lemma length_append (a b : string) :
  String.length (a +:+ b) = (String.length a + String.length b)%nat.
Proof.
  induction a as [|c a IH]; [done|]. rewrite append_cons. simpl. by rewrite IH.
Qed.

Lemma substring_all (b : string) : String.substring 0 (String.length b) b = b.
Proof. induction b as [|c b IH]; simpl; [done|by rewrite IH]. Qed.

Lemma substring_prefix (a b : string) :
  String.substring 0 (String.length a) (a +:+ b) = a.
Proof.
  induction a as [|c a IH]; [by destruct b|].
  rewrite append_cons. simpl. by rewrite IH.
Qed.

Lemma substring_suffix (a b : string) :
  String.substring (String.length a) (String.length b) (a +:+ b) = b.
Proof.
  induction a as [|c a IH]; [apply substring_all|].
  rewrite append_cons. simpl. apply IH.
Qed.

Lemma pretty_N_go_append (x : N) (s : string) :
  pretty_N_go x s = pretty_N_go x "" +:+ s.
Proof.
  revert s. induction (N.lt_wf_0 x) as [x _ IH]; intros s.
  destruct (decide (0 < x)%N) as [Hx|Hx].
  - rewrite !(pretty_N_go_step x) by done.
    rewrite IH by (by apply N.div_lt).
    rewrite (IH (x `div` 10)%N (N.div_lt x 10 Hx eq_refl) (String _ "")).
    by rewrite append_assoc.
  - assert (x = 0%N) as -> by lia. by rewrite !pretty_N_go_0.
Qed.

Lemma pretty_digit (d : Z) : 0 <= d < 10 -> pretty d = digit d.
Proof.
  intros H.
  assert (Forall (fun k => pretty k = digit k) (seqZ 0 10)) as Hall
    by (by repeat constructor).
  rewrite Forall_forall in Hall. apply Hall, elem_of_seqZ. lia.
Qed.

Lemma pretty_N_snoc (x : N) :
  (10 <= x)%N -> pretty x = pretty (x `div` 10)%N +:+ String (pretty_N_char (x `mod` 10)) "".
Proof.
  intros Hx. unfold pretty, pretty_N.
  rewrite !decide_False by (try (intros E; apply N.div_small_iff in E); lia).
  rewrite pretty_N_go_step by lia. apply pretty_N_go_append.
Qed.

Lemma pretty_Z_N (n : Z) : 0 <= n -> pretty n = pretty (Z.to_N n).
Proof. intros H. by destruct n; [| |lia]. Qed.

Lemma pretty_Z_snoc (n : Z) :
  10 <= n -> pretty n = pretty (n / 10) +:+ digit (n mod 10).
Proof.
  intros Hn. rewrite (pretty_Z_N n), (pretty_Z_N (n / 10)) by (try apply Z.div_pos; lia).
  rewrite pretty_N_snoc by lia. unfold digit.
  by rewrite Z2N.inj_div, Z2N.inj_mod by lia.
Qed.

Lemma length_pretty_digit (d : Z) : String.length (digit d) = 1%nat.
Proof. reflexivity. Qed.

Lemma length_pretty_pos (n : Z) : 0 <= n -> (1 <= String.length (pretty n))%nat.
Proof.
  intros Hn. destruct (decide (n < 10)) as [Hlt|Hge].
  - by rewrite pretty_digit by lia.
  - rewrite pretty_Z_snoc, length_append by lia. simpl. lia.
Qed.

Lemma point_before_last (n : Z) : 0 <= n -> point_before_last_at n.
Proof.
  intros Hn. unfold point_before_last_at. destruct (decide (n < 10)) as [Hlt|Hge].
  - revert Hn Hlt. generalize n. clear n.
    assert (Forall (fun k => point_before_last_at k) (seqZ 0 10)) as Hall
      by (by repeat constructor).
    rewrite Forall_forall in Hall. intros n Hn Hlt.
    apply (Hall n), elem_of_seqZ. lia.
  - destruct (Z.eqb_spec n 0) as [|_]; [lia|]. simpl.
    pose proof (length_pretty_pos (n / 10)) as Hlen.
    rewrite (pretty_Z_snoc n) by lia.
    rewrite length_append. simpl String.length.
    destruct (Nat.leb_spec (String.length (pretty (n / 10)) + 1) 1) as [Hk|Hk].
    { assert (0 <= n / 10) by (apply Z.div_pos; lia). lia. }
    replace (String.length (pretty (n / 10)%Z) + 1 - 1)%nat
      with (String.length (pretty (n / 10)%Z)) by lia.
    rewrite substring_prefix.
    pose proof (substring_suffix (pretty (n / 10)) (digit (n mod 10))) as Hs.
    change (String.length (digit (n mod 10))) with 1%nat in Hs. rewrite Hs.
    by rewrite (pretty_digit (n mod 10)) by (apply Z.mod_pos_bound; lia).
Qed.

Lemma Qc_of_Z_nonneg (n : Z) : 0 <= n -> (0 <= Qc_of_Z n)%Qc.
Proof. intros H. rewrite <-Z2Qc_inj_0. by apply (proj1 (Z2Qc_inj_le 0 n)). Qed.

Lemma magnitude_nonneg (x : Qc) :
  (0 <= if decide (x < 0)%Qc then - x else x)%Qc.
Proof.
  destruct (decide (x < 0)%Qc) as [H|H].
  - apply Qclt_le_weak, Qcopp_le_compat in H. exact H.
  - by apply Qcnot_lt_le.
Qed.

Lemma nearest_nonneg (y : Qc) : (0 <= y)%Qc -> 0 <= nearest y.
Proof.
  intros Hy. unfold nearest. change 0 with (Qfloor 0). apply Qfloor_resp_le.
  apply (Qcplus_nonneg_nonneg y (Q2Qc (1 # 2))); [done|]. done.
Qed.

Lemma decimal_1 (x : Qc) : decimal x 1 = oneDecimalOf x.
Proof.
  unfold decimal, oneDecimalOf. change (10 ^ Z.of_nat 1) with 10.
  f_equal. apply point_before_last, nearest_nonneg.
  apply Qcmult_nonneg_nonneg; [apply magnitude_nonneg|by apply Qc_of_Z_nonneg].
Qed.

Lemma toFixed_1 (x : number) : toFixed x 1 = oneDecimal x.
Proof. destruct x; simpl; try done; apply decimal_1. Qed.

(** [nearest y] is the integer closest to [y], the larger one of two. *)
Lemma nearest_bounds (y : Qc) :
  (Qc_of_Z (nearest y) <= y + Q2Qc (1 # 2))%Qc /\
  (y + Q2Qc (1 # 2) < Qc_of_Z (nearest y + 1))%Qc.
Proof.
  unfold nearest. split.
  - apply (Qfloor_le (y + Q2Qc (1 # 2))%Qc).
  - apply (Qlt_floor (y + Q2Qc (1 # 2))%Qc).
Qed.

(** * The specification's claims *)

Section Claims.
Variable normalizeRawUsage : JsValue -> TokenExtractor.StandardizedTokenUsage.
Variable getContextWindowSize : option string -> option string -> Z.
Variable getUsageLevel : number -> ContextUsageLevel.

#[local] Abbreviation normalized := (normalizeUsageForIndicator normalizeRawUsage).
#[local] Abbreviation extract := (extractUsage normalizeRawUsage).
#[local] Abbreviation extractCodex := (extractCodexCumulativeUsage normalizeRawUsage).
#[local] Abbreviation extractCurrent := (extractCurrentUsage normalizeRawUsage).
#[local] Abbreviation resolve := (resolveContextWindowSize getContextWindowSize).
#[local] Abbreviation hook :=
  (useContextWindowUsage normalizeRawUsage getContextWindowSize getUsageLevel).

(** A message whose snapshot, if it has one, is all zero. *)
#[local] Abbreviation noSnapshot :=
  (fun msg : gmap string JsValue =>
     forall o, snapshotOf msg = JObject o -> normalized (JObject o) = zeroUsage).

(** A message whose usage, if it has one, is all zero. *)
#[local] Abbreviation noUsage :=
  (fun msg : gmap string JsValue =>
     forall o, usageOf msg = JObject o -> normalized (JObject o) = zeroUsage).

(** A message that reports no positive window size. *)
#[local] Abbreviation noWindow :=
  (fun msg : gmap string JsValue =>
     forall w, reportedWindowOf msg = JNumber w -> w <= 0).

Lemma zero_is_trivial (u : Usage) : u = zeroUsage -> nontrivial u = false.
Proof. by intros ->. Qed.

Lemma first_pass_last (pre post : list (gmap string JsValue))
    (msg o : gmap string JsValue) :
  snapshotOf msg = JObject o ->
  nontrivial (normalized (JObject o)) = true ->
  Forall noSnapshot post ->
  for_down (cumulativeUsageAt normalizeRawUsage) (pre ++ msg :: post)
           (length (pre ++ msg :: post))
  = Some (normalized (JObject o)).
Proof.
  intros Hs Hn Hpost. apply for_down_last.
  - by apply cumulativeUsageAt_Some.
  - eapply Forall_impl; [exact Hpost|]. intros later Hl.
    apply cumulativeUsageAt_None. intros o' Ho'.
    by apply zero_is_trivial, Hl.
Qed.


Lemma extractCurrent_last (engine : option string)
    (pre post : list (gmap string JsValue)) (msg o : gmap string JsValue) :
  engine <> Some "codex" ->
  usageOf msg = JObject o ->
  nontrivial (normalized (JObject o)) = true ->
  Forall noUsage post ->
  extractCurrent (pre ++ msg :: post) engine = Some (normalized (JObject o)).
Proof.
  intros He Hu Hn Hpost. apply for_down_last.
  - by apply currentUsageAt_Some.
  - eapply Forall_impl; [exact Hpost|]. intros later Hl.
    apply currentUsageAt_None; [done|]. intros o' Ho'.
    by apply zero_is_trivial, Hl.
Qed.

Lemma extractCurrent_none (engine : option string)
    (messages : list (gmap string JsValue)) :
  engine <> Some "codex" ->
  Forall noUsage messages ->
  extractCurrent messages engine = None.
Proof.
  intros He H. apply for_down_none. eapply Forall_impl; [exact H|].
  intros msg Hm. apply currentUsageAt_None; [done|]. intros o Ho.
  by apply zero_is_trivial, Hm.
Qed.

Lemma extract_codex (messages : list (gmap string JsValue)) :
  extract messages (Some "codex") = extractCodex messages.
Proof. reflexivity. Qed.

Lemma extract_generic (messages : list (gmap string JsValue))
    (engine : option string) :
  engine <> Some "codex" ->
  extract messages engine = extractCurrent messages engine.
Proof.
  intros He. unfold extractUsage. by rewrite (bool_decide_eq_false_2 _ He).
Qed.

Lemma hook_contextWindowSize (messages : list (gmap string JsValue))
    (model engine : option string) :
  contextWindowSize (hook messages model engine) = resolve messages model engine.
Proof.
  destruct (extract messages engine) as [u|] eqn:E.
  - by rewrite (hook_data _ _ _ _ model _ _ E).
  - by rewrite hook_no_data.
Qed.

Lemma cumulativeUsageAt_normalized (msg : gmap string JsValue) (r : Usage) :
  cumulativeUsageAt normalizeRawUsage msg = Some r -> exists u, r = normalized u.
Proof.
  unfold cumulativeUsageAt. destruct (is_object _); [|discriminate].
  destruct (nontrivial _); [|discriminate]. intros [= <-]. eauto.
Qed.

Lemma currentUsageAt_normalized (engine : option string)
    (msg : gmap string JsValue) (r : Usage) :
  currentUsageAt normalizeRawUsage engine msg = Some r ->
  exists u, r = normalized u.
Proof.
  unfold currentUsageAt. destruct (negb _); [discriminate|].
  destruct (nontrivial _); [|discriminate]. intros [= <-]. eauto.
Qed.

(** Whatever the extractors return has no negative count. *)
Lemma extract_nonneg (messages : list (gmap string JsValue))
    (engine : option string) (u : Usage) :
  nonnegative normalizeRawUsage ->
  extract messages engine = Some u -> nonnegUsage u.
Proof.
  intros Hnn. unfold extractUsage. destruct (bool_decide _).
  - unfold extractCodexCumulativeUsage.
    destruct (for_down _ _ _) as [r|] eqn:E.
    + intros [= <-]. apply for_down_Some_inv in E as (_ & x & _ & _ & Hx & _).
      apply cumulativeUsageAt_normalized in Hx as [v ->].
      by apply normalized_nonneg.
    + rewrite sumStep_fold, addUsage_zero_l by done. simpl.
      destruct (existsb _ _); [|discriminate]. intros [= <-].
      apply nonnegUsage_sum, Forall_fmap, Forall_forall. intros v _.
      by apply normalized_nonneg.
  - intros E. apply for_down_Some_inv in E as (_ & x & _ & _ & Hx & _).
    apply currentUsageAt_normalized in Hx as [v ->].
    by apply normalized_nonneg.
Qed.

(** C1.  For the Codex engine, when some message carries in its metadata a
    cumulative snapshot that normalizes to a usage with a non-zero field,
    the extractor returns the normalized snapshot of the most recent such
    message, whatever direct usage the messages carry; the aggregator
    reports data with that snapshot as its breakdown. *)
Theorem codex_snapshot_is_authoritative
    (pre post : list (gmap string JsValue)) (msg o : gmap string JsValue)
    (model : option string) :
  nonnegative normalizeRawUsage ->
  snapshotOf msg = JObject o ->
  normalized (JObject o) <> zeroUsage ->
  Forall noSnapshot post ->
  extractCodex (pre ++ msg :: post) = Some (normalized (JObject o)) /\
  hasData (hook (pre ++ msg :: post) model (Some "codex")) = true /\
  breakdown (hook (pre ++ msg :: post) model (Some "codex"))
  = normalized (JObject o).
Proof.
  intros Hnn Hs Hne Hpost.
  assert (extractCodex (pre ++ msg :: post) = Some (normalized (JObject o)))
    as Hx.
  { unfold extractCodexCumulativeUsage. rewrite (first_pass_last _ _ _ o); try done.
    apply nontrivial_nonzero; [by apply normalized_nonneg|done]. }
  split; [done|].
  rewrite <-extract_codex in Hx.
  by rewrite (hook_data _ _ _ _ model _ _ Hx).
Qed.


(** C3.  Whenever usage is extracted, the current tokens are the input
    tokens plus the two cache counts of that usage; the output tokens are
    left out: input 100, cache creation 20, cache read 10 and output 500
    give 130. *)
Theorem currentTokens_excludes_output
    (messages : list (gmap string JsValue)) (model engine : option string)
    (u : Usage) :
  extract messages engine = Some u ->
  currentTokens (hook messages model engine)
  = inputTokens u + cacheCreationTokens u + cacheReadTokens u /\
  breakdown (hook messages model engine) = u /\
  (u = {| inputTokens := 100; outputTokens := 500;
          cacheCreationTokens := 20; cacheReadTokens := 10 |} ->
   currentTokens (hook messages model engine) = 130).
Proof.
  intros H. rewrite (hook_data _ _ _ _ model _ _ H). simpl.
  repeat split. by intros ->.
Qed.

(** C4.  For a positive window size the percentage is the double the
    source computes: the current tokens divided by the window size, times
    100, clamped to 100 by [Math.min].  For token counts and window sizes
    that are safe integers that double is 100 once the tokens reach the
    window size, and otherwise lies within a relative distance of 2^-51 of
    the exact ratio times 100.  For a window size that is not positive the
    percentage is 0 and no division takes place.  The percentage lies
    between 0 and 100 (so it is neither NaN nor infinite), and 1500 tokens in
    a window of 1000 give 100. *)
Theorem percentage_clamped
    (messages : list (gmap string JsValue)) (model engine : option string) :
  nonnegative normalizeRawUsage ->
  let r := hook messages model engine in
  (0 < contextWindowSize r ->
   percentage r
   = Math_min (Number_mul (Number_div (Number (currentTokens r))
                                      (Number (contextWindowSize r)))
                          (Number 100))
              (Number 100)) /\
  (0 < contextWindowSize r -> safe_integer (contextWindowSize r) ->
   safe_integer (currentTokens r) ->
   let x := (inject_Z (currentTokens r) / inject_Z (contextWindowSize r)
             * 100)%Q in
   (contextWindowSize r <= currentTokens r -> percentage r = Number 100) /\
   (exact (percentage r) - clamp100 x
    <= clamp100 x * (1 # 2251799813685248))%Q /\
   (clamp100 x - exact (percentage r)
    <= clamp100 x * (1 # 2251799813685248))%Q) /\
  (contextWindowSize r <= 0 -> percentage r = Number 0) /\
  (safe_integer (contextWindowSize r) -> safe_integer (currentTokens r) ->
   Number_le (Number 0) (percentage r) /\
   Number_le (percentage r) (Number 100)) /\
  (currentTokens r = 1500 -> contextWindowSize r = 1000 ->
   percentage r = Number 100).
Proof.
  intros Hnn r.
  assert (percentage r = percentageOf (currentTokens r) (contextWindowSize r)
          /\ 0 <= currentTokens r) as [Hp Hc].
  { subst r. destruct (extract messages engine) as [u|] eqn:E.
    - rewrite (hook_data _ _ _ _ model _ _ E). simpl. split; [done|].
      apply (extract_nonneg _ _ _ Hnn) in E.
      destruct E as (?&?&?&?). lia.
    - rewrite hook_no_data by done. simpl.
      by rewrite percentageOf_zero. }
  rewrite Hp. split_and!.
  - intros Hw. unfold percentageOf.
    by destruct (Z.ltb_spec 0 (contextWindowSize r)); [|lia].
  - intros Hw Hsw Hsc. by apply percentageOf_accurate.
  - apply percentageOf_nonpositive_window.
  - intros Hsw Hsc. unfold safe_integer in *. apply percentageOf_range; lia.
  - intros -> ->. apply percentageOf_1500_1000.
Qed.

(** C5.  For an engine other than Codex the extractor returns the
    normalized usage of the most recent message whose usage (the direct
    [usage], else the one under [message]) has a non-zero field, and no
    data when there is no such message; a direct usage takes precedence
    over a nested one. *)
Theorem generic_extraction_most_recent (engine : option string) :
  nonnegative normalizeRawUsage ->
  engine <> Some "codex" ->
  (forall (pre post : list (gmap string JsValue)) (msg o : gmap string JsValue),
      usageOf msg = JObject o ->
      normalized (JObject o) <> zeroUsage ->
      Forall noUsage post ->
      extractCurrent (pre ++ msg :: post) engine = Some (normalized (JObject o)))
  /\
  (forall messages : list (gmap string JsValue),
      Forall noUsage messages -> extractCurrent messages engine = None)
  /\
  (forall msg o : gmap string JsValue,
      prop msg "usage" = JObject o ->
      getUsageCandidate msg engine = JObject o)
  /\
  (forall msg o : gmap string JsValue,
      truthy (prop msg "usage") = false ->
      member (prop msg "message") "usage" = JObject o ->
      getUsageCandidate msg engine = JObject o).
Proof.
  intros Hnn He. repeat split.
  - intros pre post msg o Hu Hne Hpost. apply extractCurrent_last; try done.
    apply nontrivial_nonzero; [by apply normalized_nonneg|done].
  - intros messages. by apply extractCurrent_none.
  - intros msg o Hd. rewrite getUsageCandidate_generic by done.
    unfold usageOf. by rewrite Hd.
  - intros msg o Hd Hn. rewrite getUsageCandidate_generic by done.
    unfold usageOf. by rewrite Hd, Hn.
Qed.

(** C6.  For the Codex engine the window size is the positive number the
    most recent message reports in its metadata, when a message reports
    one, and the value of the static table otherwise. *)
Theorem codex_runtime_window_override (model : option string) :
  (forall (pre post : list (gmap string JsValue)) (msg : gmap string JsValue)
          (w : Z),
      reportedWindowOf msg = JNumber w ->
      0 < w ->
      Forall noWindow post ->
      contextWindowSize (hook (pre ++ msg :: post) model (Some "codex")) = w)
  /\
  (forall messages : list (gmap string JsValue),
      Forall noWindow messages ->
      contextWindowSize (hook messages model (Some "codex"))
      = getContextWindowSize model (Some "codex")).
Proof.
  split.
  - intros pre post msg w Hw Hpos Hpost. rewrite hook_contextWindowSize.
    unfold resolveContextWindowSize. simpl.
    rewrite (for_down_last _ pre post msg w); [done| |].
    + unfold runtimeContextWindowAt. by apply positive_number_spec.
    + eapply Forall_impl; [exact Hpost|]. intros later Hl.
      by apply positive_number_None.
  - intros messages Hall. rewrite hook_contextWindowSize.
    unfold resolveContextWindowSize. simpl.
    rewrite for_down_none; [done|].
    eapply Forall_impl; [exact Hall|]. intros msg Hm.
    by apply positive_number_None.
Qed.

(** C7.  For an empty message list, and whenever extraction yields no
    data, the result has [hasData = false], no current tokens, percentage
    0 and an all-zero breakdown, and its window size is the one resolved
    for the model and the engine: the value of the static table for an
    empty list and for every engine other than Codex. *)
Theorem no_data_result
    (messages : list (gmap string JsValue)) (model engine : option string) :
  messages = [] \/ extract messages engine = None ->
  let r := hook messages model engine in
  hasData r = false /\ currentTokens r = 0 /\ percentage r = Number 0 /\
  breakdown r = zeroUsage /\
  contextWindowSize r = resolve messages model engine /\
  (messages = [] -> contextWindowSize r = getContextWindowSize model engine) /\
  (engine <> Some "codex" ->
   contextWindowSize r = getContextWindowSize model engine).
Proof.
  intros H r.
  assert (extract messages engine = None) as E.
  { destruct H as [->|H]; [apply extractUsage_nil|done]. }
  subst r. rewrite hook_no_data by done. simpl. repeat split.
  - intros ->. apply resolve_nil.
  - apply resolve_generic.
Qed.

(** C8, as amended.  A result that carries data has its percentage
    rounded to one decimal place, followed by the percent sign, as
    formatted percentage; the result without data has the text 0%. *)
Theorem formattedPercentage_one_decimal_with_data
    (messages : list (gmap string JsValue)) (model engine : option string) :
  let r := hook messages model engine in
  (hasData r = true ->
   formattedPercentage r = oneDecimal (percentage r) +:+ "%") /\
  (hasData r = false -> formattedPercentage r = "0%").
Proof.
  intros r. subst r. destruct (extract messages engine) as [u|] eqn:E.
  - rewrite (hook_data _ _ _ _ model _ _ E). simpl.
    split; [|discriminate]. intros _. by rewrite toFixed_1.
  - rewrite hook_no_data by done. simpl. split; [discriminate|done].
Qed.

(** C10.  For an engine other than Codex, when the most recent message
    with usage data has output tokens only, the aggregator reports data
    with no current tokens and percentage 0. *)
Theorem output_only_usage_counts_as_data
    (pre post : list (gmap string JsValue)) (msg o : gmap string JsValue)
    (model engine : option string) (out : Z) :
  engine <> Some "codex" ->
  usageOf msg = JObject o ->
  normalized (JObject o)
  = {| inputTokens := 0; outputTokens := out;
       cacheCreationTokens := 0; cacheReadTokens := 0 |} ->
  0 < out ->
  Forall noUsage post ->
  let r := hook (pre ++ msg :: post) model engine in
  hasData r = true /\ currentTokens r = 0 /\ percentage r = Number 0 /\
  outputTokens (breakdown r) = out.
Proof.
  intros He Hu Hn Hout Hpost r.
  assert (extract (pre ++ msg :: post) engine = Some (normalized (JObject o)))
    as Hx.
  { rewrite extract_generic by done. apply extractCurrent_last; try done.
    rewrite Hn. unfold nontrivial; simpl.
    by destruct (Z.ltb_spec 0 out); [|lia]. }
  subst r. rewrite (hook_data _ _ _ _ model _ _ Hx), Hn. simpl.
  repeat split. apply percentageOf_zero.
Qed.

End Claims.

(** ** Formatting of token counts *)

(** The number of tenths [toFixed(1)] writes for a value. *)
Lemma nearest_tenths (v : Q) :
  nearest (Q2Qc v * Qc_of_Z 10)%Qc = Qfloor (v * 10 + (1 # 2))%Q.
Proof.
  unfold nearest. apply Qfloor_comp. simpl. rewrite !Qred_correct. reflexivity.
Qed.

Lemma oneDecimalOf_nonneg (v : Q) :
  (0 <= v)%Q ->
  let t := Qfloor (v * 10 + (1 # 2))%Q in
  oneDecimalOf (Q2Qc v) = pretty (t / 10) +:+ "." +:+ pretty (t mod 10).
Proof.
  intros Hv t. unfold oneDecimalOf.
  destruct (decide (Q2Qc v < 0)%Qc) as [Hneg|_].
  - exfalso. unfold Qclt in Hneg. simpl in Hneg.
    rewrite !Qred_correct in Hneg. lra.
  - by rewrite nearest_tenths, append_nil_l.
Qed.

(** The double quotient of two safe integers is within a relative distance
    of 2^-53 of the exact quotient. *)
Lemma quotient_error (n d : Z) :
  0 < n < 9007199254740992 -> 0 < d < 9007199254740992 ->
  exists (m : positive) (e : Z),
    Number_div (Number n) (Number d) = S754_finite false m e /\
    let v := (inject_Z (Z.pos m) * pow2 e)%Q in
    (0 < v)%Q /\
    (v * inject_Z d <= inject_Z n * (1 + (1 # 9007199254740992)))%Q /\
    (inject_Z n * (1 - (1 # 9007199254740992)) <= v * inject_Z d)%Q.
Proof.
  intros Hn Hd.
  destruct (quotient_rounds n d Hn Hd) as (m & e & E & Hm & He & R).
  exists m, e. split; [done|]. cbv zeta.
  pose proof (rounds_error _ _ R) as [A B].
  pose proof (rounds_pos _ _ R) as [Hq0 Hv0].
  pose proof (ratio_spec n d ltac:(lia)) as Hq.
  set (q := (inject_Z n / inject_Z d)%Q) in *.
  set (v := (inject_Z (Z.pos m) * pow2 e)%Q) in *.
  assert (0 < inject_Z d)%Q as HD
    by (change 0%Q with (inject_Z 0); rewrite <-Zlt_Qlt; lia).
  split; [done|].
  apply (Qmult_le_compat_r _ _ (inject_Z d)) in A; [|lra].
  apply (Qmult_le_compat_r _ _ (inject_Z d)) in B; [|lra].
  assert ((v - q) * inject_Z d == v * inject_Z d - inject_Z n)%Q as EA
    by (rewrite <-Hq; ring).
  assert ((q - v) * inject_Z d == inject_Z n - v * inject_Z d)%Q as EB
    by (rewrite <-Hq; ring).
  assert (q * (1 # 9007199254740992) * inject_Z d
          == inject_Z n * (1 # 9007199254740992))%Q as EC
    by (rewrite <-Hq; ring).
  rewrite EA, EC in A. rewrite EB, EC in B. split; lra.
Qed.

(** [(n / d).toFixed(1)] for a divisor [d = 20 h]: the number [t] of tenths
    written is a nearest integer to [n / (2 h)]. *)
Lemma tenths_of_quotient (n d h : Z) :
  0 < n < 9007199254740992 -> 0 < h -> d = 20 * h -> d <= 1000000 ->
  exists t : Z,
    toFixed (Number_div (Number n) (Number d)) 1
    = pretty (t / 10) +:+ "." +:+ pretty (t mod 10) /\
    n - h <= 2 * h * t <= n + h.
Proof.
  intros Hn Hh -> Hd.
  destruct (quotient_error n (20 * h) Hn ltac:(lia)) as (m & e & E & Hv0 & A & B).
  rewrite E. set (v := (inject_Z (Z.pos m) * pow2 e)%Q) in *.
  exists (Qfloor (v * 10 + (1 # 2))%Q). split.
  { simpl toFixed. rewrite decimal_1. apply oneDecimalOf_nonneg. fold v. lra. }
  pose proof (Qfloor_le (v * 10 + (1 # 2))%Q) as F1.
  pose proof (Qlt_floor (v * 10 + (1 # 2))%Q) as F2.
  set (t := Qfloor (v * 10 + (1 # 2))%Q) in *.
  rewrite inject_Z_plus in F2. change (inject_Z 1) with 1%Q in F2.
  rewrite inject_Z_mult in A, B. change (inject_Z 20) with 20%Q in A, B.
  assert (0 < inject_Z h)%Q as HH
    by (change 0%Q with (inject_Z 0); rewrite <-Zlt_Qlt; lia).
  assert (0 < inject_Z n /\ inject_Z n < 9007199254740992)%Q as [HN0 HN].
  { change 0%Q with (inject_Z 0).
    change 9007199254740992%Q with (inject_Z 9007199254740992).
    rewrite <-!Zlt_Qlt. lia. }
  apply (Qmult_le_compat_r _ _ (2 * inject_Z h)) in F1; [|lra].
  apply (Qmult_lt_compat_r _ _ (2 * inject_Z h)) in F2; [|lra].
  assert ((v * 10 + (1 # 2)) * (2 * inject_Z h)
          == v * (20 * inject_Z h) + inject_Z h)%Q as EF by ring.
  rewrite EF in F1, F2.
  split.
  - assert (n < 2 * h * t + h + 1) as Hlt; [|lia].
    apply inject_Z_lt_inv.
    rewrite !inject_Z_plus, !inject_Z_mult.
    change (inject_Z 1) with 1%Q. change (inject_Z 2) with 2%Q. lra.
  - assert (2 * h * t < n + h + 1) as Hlt; [|lia].
    apply inject_Z_lt_inv.
    rewrite !inject_Z_plus, !inject_Z_mult.
    change (inject_Z 1) with 1%Q. change (inject_Z 2) with 2%Q. lra.
Qed.

(** C9.  [formatK] writes a count from a million on as a number of millions
    with one decimal and an M, a count from a thousand on as a number of
    thousands with one decimal and a K, and a smaller count as the plain
    integer.  The number written is the count divided by 1000000 or 1000 and
    rounded to one decimal: the number [t] of tenths written is at most half
    a tenth away from the exact quotient. *)
Theorem formatK_spec (n : Z) :
  0 <= n -> safe_integer n ->
  (1000000 <= n ->
   exists t : Z,
     formatK n = pretty (t / 10) +:+ "." +:+ pretty (t mod 10) +:+ "M" /\
     n - 50000 <= 100000 * t <= n + 50000) /\
  (1000 <= n < 1000000 ->
   exists t : Z,
     formatK n = pretty (t / 10) +:+ "." +:+ pretty (t mod 10) +:+ "K" /\
     n - 50 <= 100 * t <= n + 50) /\
  (n < 1000 -> formatK n = pretty n) /\
  formatK 950 = "950" /\ formatK 1500 = "1.5K" /\ formatK 2500000 = "2.5M".
Proof.
  intros Hn Hs. unfold safe_integer in Hs. unfold formatK at 1 2 3. split_and!.
  - intros H. destruct (Z.leb_spec 1000000 n); [|lia].
    destruct (tenths_of_quotient n 1000000 50000 ltac:(lia) ltac:(lia)
                ltac:(lia) ltac:(lia)) as (t & -> & Ht).
    exists t. split; [by rewrite !append_assoc|lia].
  - intros H. destruct (Z.leb_spec 1000000 n); [lia|].
    destruct (Z.leb_spec 1000 n); [|lia].
    destruct (tenths_of_quotient n 1000 50 ltac:(lia) ltac:(lia)
                ltac:(lia) ltac:(lia)) as (t & -> & Ht).
    exists t. split; [by rewrite !append_assoc|lia].
  - intros H. destruct (Z.leb_spec 1000000 n); [lia|].
    by destruct (Z.leb_spec 1000 n); [lia|].
  - by vm_compute.
  - by vm_compute.
  - by vm_compute.
Qed.

(** Where the count lies half-way between two tenths, the double of the
    quotient decides: it is below the exact quotient for 1150 and 1150000,
    and the quotient itself for 1250. *)
Example formatK_at_ties :
  formatK 1150 = "1.1K" /\ formatK 1250 = "1.3K" /\ formatK 1150000 = "1.1M" /\
  formatK 999949 = "999.9K" /\ formatK 999950 = "1000.0K".
Proof. by vm_compute. Qed.

(** ** The modelled normalizer *)

Lemma countOf_nonneg (v : JsValue) : 0 <= countOf v.
Proof. destruct v; simpl; lia. Qed.

Lemma firstCount_nonneg (a b : Z) : 0 <= a -> 0 <= b -> 0 <= firstCount a b.
Proof. unfold firstCount. by destruct (a =? 0). Qed.

Lemma normalizeRawUsage_model_nonneg : nonnegative normalizeRawUsage_model.
Proof.
  intros u. unfold normalizeRawUsage_model; simpl.
  repeat split; repeat apply firstCount_nonneg; apply countOf_nonneg.
Qed.

(** * The claims on the sample conversations *)

(** Discharges [Forall] conditions on the messages of a concrete list. *)
Ltac no_such_message :=
  repeat constructor;
  let E := fresh "E" in
  intros ? E; vm_compute in E;
  first [ discriminate E | injection E as <-; lia ].

(** A message tagged as a cumulative update is left out of the sum. *)
Example tagged_update_is_skipped :
  extractCodexCumulativeUsage normalizeRawUsage_model
    [deltaMessage (usageObject 10 1 0 0);
     cumulativeUpdateMessage (usageObject 999 9 0 0);
     deltaMessage (usageObject 20 2 0 0)]
  = Some {| inputTokens := 30; outputTokens := 3;
            cacheCreationTokens := 0; cacheReadTokens := 0 |}.
Proof. by vm_compute. Qed.

(** Without any usage the Codex extractor has no data. *)
Example codex_without_usage :
  extractCodexCumulativeUsage normalizeRawUsage_model
    [plainMessage; cumulativeUpdateMessage (usageObject 999 9 0 0);
     deltaMessage (usageObject 0 0 0 0)]
  = None.
Proof. by vm_compute. Qed.

(** A direct usage hides the nested one, also when it is all zero. *)
Example direct_usage_first :
  getUsageCandidate
    (<["usage" := usageObject 0 0 0 0]> (nestedMessage (usageObject 7 0 0 0)))
    (Some "claude")
  = usageObject 0 0 0 0.
Proof. by vm_compute. Qed.

(** The percentage is computed on doubles: 900 of 200000 tokens give
    0.44999999999999996, written 0.4, and 300 of 200000 give a double below
    0.15, written 0.1. *)
Example percentage_in_doubles :
  percentageOf 900 200000 = S754_finite false 8106479329266892 (-54) /\
  toFixed (percentageOf 900 200000) 1 = "0.4" /\
  toFixed (percentageOf 300 200000) 1 = "0.1".
Proof. by vm_compute. Qed.

(** Without the test of the window size, the expression of line 257 gives
    100 for a window of 0, and NaN when there are no tokens either; the hook
    gives 0. *)
Example zero_window_is_guarded :
  let unguarded c w :=
    Math_min (Number_mul (Number_div (Number c) (Number w)) (Number 100))
             (Number 100) in
  unguarded 5 0 = Number 100 /\ unguarded 0 0 = S754_nan /\
  percentageOf 5 0 = Number 0 /\ percentageOf 0 0 = Number 0.
Proof. by vm_compute. Qed.

(** From 2^53 on not every integer is a double, and from 2^1024 on the
    double of an integer is an infinity.  There the percentage can be 100
    for tokens below the window size, or NaN, and [formatK] need not agree
    with integer arithmetic away from the ties: the properties of the
    percentage and of [formatK] below are stated for safe integers. *)
Example beyond_the_safe_integers :
  percentageOf 9007199254740992 9007199254740993 = Number 100 /\
  percentageOf (2 ^ 1024) (2 ^ 1024) = S754_nan /\
  10000000000249999 mod 100000 <> 50000 /\
  (10000000000249999 + 50000) / 100000 mod 10 = 2 /\
  formatK 10000000000249999 = "10000000000.3M".
Proof. by vm_compute. Qed.

(** The aggregator on [claudeHistory]. *)
Example claudeHistory_result :
  let r := useContextWindowUsage normalizeRawUsage_model sampleContextWindowSize
             sampleUsageLevel claudeHistory (Some "sonnet") (Some "claude") in
  currentTokens r = 40 /\ contextWindowSize r = 200000 /\ hasData r = true /\
  formattedPercentage r = "0.0%" /\ formattedTokens r = "40 / 200.0K".
Proof. by vm_compute. Qed.

(** C1 on [snapshotHistory]: the snapshot 1000/7 is returned, not the sum of
    the turns around it. *)
Lemma codex_snapshot_is_authoritative_witness :
  extractCodexCumulativeUsage normalizeRawUsage_model snapshotHistory
  = Some {| inputTokens := 1000; outputTokens := 7;
            cacheCreationTokens := 0; cacheReadTokens := 0 |}.
Proof.
  refine (proj1 (codex_snapshot_is_authoritative
            normalizeRawUsage_model sampleContextWindowSize sampleUsageLevel
            [deltaMessage (usageObject 5 1 0 0)]
            [deltaMessage (usageObject 20 0 0 0);
             deltaMessage (usageObject 30 0 0 0)]
            (snapshotMessage (usageObject 1000 7 0 0))
            (usageFields 1000 7 0 0) None
            normalizeRawUsage_model_nonneg eq_refl _ _)).
  - vm_compute. discriminate.
  - no_such_message.
Defined.


(** C3 on a single Claude message with input 100, cache 20 and 10, output
    500. *)
Lemma currentTokens_excludes_output_witness :
  currentTokens
    (useContextWindowUsage normalizeRawUsage_model sampleContextWindowSize
       sampleUsageLevel [deltaMessage (usageObject 100 500 20 10)]
       (Some "sonnet") (Some "claude"))
  = 130.
Proof.
  refine (proj2 (proj2 (currentTokens_excludes_output
            normalizeRawUsage_model sampleContextWindowSize sampleUsageLevel
            [deltaMessage (usageObject 100 500 20 10)]
            (Some "sonnet") (Some "claude") _ _)) eq_refl).
  vm_compute. reflexivity.
Defined.

(** C4 on [windowHistory]: 1500 tokens in a window of 1000. *)
Lemma percentage_clamped_witness :
  percentage
    (useContextWindowUsage normalizeRawUsage_model sampleContextWindowSize
       sampleUsageLevel windowHistory None (Some "codex"))
  = Number 100.
Proof.
  refine (proj2 (proj2 (proj2 (proj2 (percentage_clamped
            normalizeRawUsage_model sampleContextWindowSize sampleUsageLevel
            windowHistory None (Some "codex")
            normalizeRawUsage_model_nonneg)))) _ _).
  - vm_compute. reflexivity.
  - vm_compute. reflexivity.
Defined.

(** C5 on [claudeHistory]. *)
Lemma generic_extraction_most_recent_witness :
  extractCurrentUsage normalizeRawUsage_model claudeHistory (Some "claude")
  = Some {| inputTokens := 40; outputTokens := 2;
            cacheCreationTokens := 0; cacheReadTokens := 0 |}.
Proof.
  refine (proj1 (generic_extraction_most_recent normalizeRawUsage_model
                   (Some "claude") normalizeRawUsage_model_nonneg _)
            [nestedMessage (usageObject 7 0 0 0)]
            [plainMessage; deltaMessage (usageObject 0 0 0 0)]
            (deltaMessage (usageObject 40 2 0 0))
            (usageFields 40 2 0 0) eq_refl _ _).
  - discriminate.
  - vm_compute. discriminate.
  - repeat constructor; intros o E; vm_compute in E; try discriminate E.
    injection E as <-. vm_compute. reflexivity.
Defined.

(** C6 on [windowHistory]: the window of 1000 reported by the engine. *)
Lemma codex_runtime_window_override_witness :
  contextWindowSize
    (useContextWindowUsage normalizeRawUsage_model sampleContextWindowSize
       sampleUsageLevel windowHistory None (Some "codex"))
  = 1000.
Proof.
  refine (proj1 (codex_runtime_window_override normalizeRawUsage_model
                   sampleContextWindowSize sampleUsageLevel None)
            [] [deltaMessage (usageObject 1500 0 0 0); windowMessage (JNumber 0)]
            (windowMessage (JNumber 1000)) 1000 eq_refl _ _).
  - lia.
  - no_such_message.
Defined.

(** C7 on the empty conversation. *)
Lemma no_data_result_witness :
  let r := useContextWindowUsage normalizeRawUsage_model sampleContextWindowSize
             sampleUsageLevel [] (Some "gpt-5") (Some "codex") in
  hasData r = false /\ currentTokens r = 0 /\ contextWindowSize r = 128000.
Proof.
  pose proof (no_data_result normalizeRawUsage_model sampleContextWindowSize
                sampleUsageLevel [] (Some "gpt-5") (Some "codex")
                (or_introl eq_refl)) as (Hd & Hc & _ & _ & _ & Hw & _).
  split; [exact Hd|]. split; [exact Hc|]. exact (Hw eq_refl).
Defined.

(** C8, as the specification states it, fails on the empty conversation: the
    percentage 0 rounded to one decimal place reads 0.0, the result says
    0%. *)
Lemma formattedPercentage_default_not_one_decimal :
  let r := useContextWindowUsage normalizeRawUsage_model sampleContextWindowSize
             sampleUsageLevel [] None None in
  formattedPercentage r = "0%" /\
  toFixed (percentage r) 1 +:+ "%" = "0.0%" /\
  oneDecimal (percentage r) +:+ "%" = "0.0%" /\
  formattedPercentage r <> toFixed (percentage r) 1 +:+ "%".
Proof. vm_compute. repeat split. discriminate. Qed.

(** C8, amended, on a Claude message: 130 of 200000 tokens. *)
Lemma formattedPercentage_one_decimal_with_data_witness :
  let r := useContextWindowUsage normalizeRawUsage_model sampleContextWindowSize
             sampleUsageLevel [deltaMessage (usageObject 100 500 20 10)]
             (Some "sonnet") (Some "claude") in
  formattedPercentage r = oneDecimal (percentage r) +:+ "%".
Proof.
  refine (proj1 (formattedPercentage_one_decimal_with_data
            normalizeRawUsage_model sampleContextWindowSize sampleUsageLevel
            [deltaMessage (usageObject 100 500 20 10)]
            (Some "sonnet") (Some "claude")) _).
  vm_compute. reflexivity.
Defined.

(** C9 on 1500. *)
Lemma formatK_spec_witness :
  exists t : Z,
    formatK 1500 = pretty (t / 10) +:+ "." +:+ pretty (t mod 10) +:+ "K" /\
    1500 - 50 <= 100 * t <= 1500 + 50.
Proof.
  refine (proj1 (proj2 (formatK_spec 1500 _ _)) _); unfold safe_integer; lia.
Defined.

(** C10 on a Claude message with 55 output tokens only. *)
Lemma output_only_usage_counts_as_data_witness :
  let r := useContextWindowUsage normalizeRawUsage_model sampleContextWindowSize
             sampleUsageLevel
             [deltaMessage (usageObject 9 9 9 9);
              deltaMessage (usageObject 0 55 0 0); plainMessage]
             (Some "sonnet") (Some "claude") in
  hasData r = true /\ currentTokens r = 0 /\ percentage r = Number 0 /\
  outputTokens (breakdown r) = 55.
Proof.
  refine (output_only_usage_counts_as_data
            normalizeRawUsage_model sampleContextWindowSize sampleUsageLevel
            [deltaMessage (usageObject 9 9 9 9)] [plainMessage]
            (deltaMessage (usageObject 0 55 0 0)) (usageFields 0 55 0 0)
            (Some "sonnet") (Some "claude") 55 _ eq_refl eq_refl _ _).
  - discriminate.
  - lia.
  - no_such_message.
Defined.

(** * Further properties of the hook *)

(** ** The backward loop on concatenations and images *)

Section ForDownMore.
Context {A B : Type} (body : A -> option B).

(** The loop on [l ++ l'] is the loop on [l'] and, when that finds nothing,
    the loop on [l]. *)
Lemma for_down_concat (l l' : list A) :
  for_down body (l ++ l') (length (l ++ l'))
  = match for_down body l' (length l') with
    | Some r => Some r
    | None => for_down body l (length l)
    end.
Proof.
  induction l' as [|x l' IH] using rev_ind.
  - by rewrite app_nil_r.
  - rewrite app_assoc, !for_down_snoc. by destruct (body x).
Qed.

Lemma for_down_ext (body' : A -> option B) (l : list A) (n : nat) :
  (forall x, body x = body' x) -> for_down body l n = for_down body' l n.
Proof.
  intros H. induction n as [|i IH]; simpl; [done|].
  destruct (l !! i); [|done]. by rewrite H, IH.
Qed.

Lemma for_down_fmap {C : Type} (f : C -> A) (l : list C) :
  for_down body (f <$> l) (length (f <$> l))
  = for_down (fun x => body (f x)) l (length l).
Proof.
  induction l as [|x l IH] using rev_ind; [done|].
  rewrite fmap_app. simpl. rewrite !for_down_snoc. by rewrite IH.
Qed.

Lemma for_down_None_inv (l : list A) :
  for_down body l (length l) = None -> Forall (fun y => body y = None) l.
Proof.
  induction l as [|x l IH] using rev_ind; [constructor|].
  rewrite for_down_snoc. destruct (body x) eqn:E; [discriminate|].
  intros H. apply Forall_app. split; [by apply IH|]. by constructor.
Qed.
End ForDownMore.

(** ** Sums of usages *)

Lemma addUsage_comm (a b : Usage) : addUsage a b = addUsage b a.
Proof. unfold addUsage; f_equal; lia. Qed.

Lemma sumUsage_app (l l' : list Usage) :
  sumUsage (l ++ l') = addUsage (sumUsage l) (sumUsage l').
Proof.
  induction l as [|u l IH]; simpl.
  - by rewrite addUsage_zero_l.
  - by rewrite IH, addUsage_assoc.
Qed.

Lemma sumUsage_Permutation (l l' : list Usage) :
  l ≡ₚ l' -> sumUsage l = sumUsage l'.
Proof.
  induction 1 as [|u l l' _ IH|u v l|l l' l'' _ IH1 _ IH2]; simpl.
  - done.
  - by rewrite IH.
  - by rewrite !addUsage_assoc, (addUsage_comm v u).
  - by rewrite IH1.
Qed.

Lemma existsb_Permutation {A : Type} (p : A -> bool) (l l' : list A) :
  l ≡ₚ l' -> existsb p l = existsb p l'.
Proof.
  induction 1 as [|u l l' _ IH|u v l|l l' l'' _ IH1 _ IH2]; simpl.
  - done.
  - by rewrite IH.
  - by rewrite !orb_assoc, (orb_comm (p v)).
  - by rewrite IH1.
Qed.

Lemma nontrivial_add (a b : Usage) :
  nonnegUsage a -> nonnegUsage b ->
  nontrivial (addUsage a b) = nontrivial a || nontrivial b.
Proof.
  intros (?&?&?&?) (?&?&?&?). unfold nontrivial; simpl.
  repeat match goal with
         | |- context [0 <? ?x] => destruct (Z.ltb_spec 0 x)
         end; simpl; try reflexivity; lia.
Qed.

Lemma nontrivial_sum (l : list Usage) :
  Forall nonnegUsage l -> nontrivial (sumUsage l) = existsb nontrivial l.
Proof.
  induction 1 as [|u l Hu Hl IH]; simpl; [done|].
  by rewrite nontrivial_add, IH by (done || by apply nonnegUsage_sum).
Qed.

(** ** The extractors on arbitrary conversations *)

Section Extras.
Variable normalizeRawUsage : JsValue -> TokenExtractor.StandardizedTokenUsage.
Variable getContextWindowSize : option string -> option string -> Z.
Variable getUsageLevel : number -> ContextUsageLevel.

#[local] Abbreviation normalized := (normalizeUsageForIndicator normalizeRawUsage).
#[local] Abbreviation extract := (extractUsage normalizeRawUsage).
#[local] Abbreviation extractCodex := (extractCodexCumulativeUsage normalizeRawUsage).
#[local] Abbreviation extractCurrent := (extractCurrentUsage normalizeRawUsage).
#[local] Abbreviation resolve := (resolveContextWindowSize getContextWindowSize).
#[local] Abbreviation hook :=
  (useContextWindowUsage normalizeRawUsage getContextWindowSize getUsageLevel).

(** No snapshot of the message has a positive count. *)
#[local] Abbreviation snapshotFree :=
  (fun msg : gmap string JsValue =>
     forall o, snapshotOf msg = JObject o ->
               nontrivial (normalized (JObject o)) = false).

Lemma currentUsageAt_Some_inv (engine : option string)
    (message : gmap string JsValue) (u : Usage) :
  engine <> Some "codex" ->
  currentUsageAt normalizeRawUsage engine message = Some u ->
  exists o, usageOf message = JObject o /\ u = normalized (JObject o) /\
            nontrivial u = true.
Proof.
  intros He. unfold currentUsageAt. rewrite getUsageCandidate_generic by done.
  destruct (is_object (usageOf message)) eqn:E; [|discriminate].
  apply is_object_spec in E as [o E]. rewrite E. simpl.
  destruct (nontrivial _) eqn:Hn; [|discriminate]. intros [= <-]. eauto.
Qed.

Lemma currentUsageAt_None_inv (engine : option string)
    (message o : gmap string JsValue) :
  engine <> Some "codex" ->
  currentUsageAt normalizeRawUsage engine message = None ->
  usageOf message = JObject o ->
  nontrivial (normalized (JObject o)) = false.
Proof.
  intros He. unfold currentUsageAt. rewrite getUsageCandidate_generic by done.
  intros H E. rewrite E in H. simpl in H.
  by destruct (nontrivial _).
Qed.

Lemma cumulativeUsageAt_Some_inv (msg : gmap string JsValue) (u : Usage) :
  cumulativeUsageAt normalizeRawUsage msg = Some u ->
  exists o, snapshotOf msg = JObject o /\ u = normalized (JObject o) /\
            nontrivial u = true.
Proof.
  unfold cumulativeUsageAt, snapshotOf.
  destruct (is_object _) eqn:E; [|discriminate].
  apply is_object_spec in E as [o E]. rewrite E.
  destruct (nontrivial _) eqn:Hn; [|discriminate]. intros [= <-]. eauto.
Qed.

Lemma cumulativeUsageAt_None_inv (msg o : gmap string JsValue) :
  cumulativeUsageAt normalizeRawUsage msg = None ->
  snapshotOf msg = JObject o ->
  nontrivial (normalized (JObject o)) = false.
Proof.
  unfold cumulativeUsageAt, snapshotOf. intros H E. rewrite E in H.
  change (is_object (JObject o)) with true in H. cbv iota in H.
  by destruct (nontrivial _).
Qed.

(** The Codex extractor without a snapshot: the sum of the direct usages,
    when one of them has a positive count. *)
Lemma codex_fallback_formula (messages : list (gmap string JsValue)) :
  nonnegative normalizeRawUsage ->
  Forall snapshotFree messages ->
  extractCodex messages
  = if existsb nontrivial (normalized <$> omap directUsageOf messages)
    then Some (sumUsage (normalized <$> omap directUsageOf messages))
    else None.
Proof.
  intros Hnn Hno. unfold extractCodexCumulativeUsage.
  rewrite for_down_none.
  - by apply sum_pass.
  - eapply Forall_impl; [exact Hno|]. intros msg Hm.
    by apply cumulativeUsageAt_None.
Qed.

Lemma normalized_all_nonneg (l : list JsValue) :
  nonnegative normalizeRawUsage -> Forall nonnegUsage (normalized <$> l).
Proof.
  intros Hnn. apply Forall_fmap, Forall_forall. intros v _.
  by apply normalized_nonneg.
Qed.

Lemma extract_nontrivial (messages : list (gmap string JsValue))
    (engine : option string) (u : Usage) :
  nonnegative normalizeRawUsage ->
  extract messages engine = Some u -> nontrivial u = true.
Proof.
  intros Hnn. unfold extractUsage. destruct (bool_decide _).
  - unfold extractCodexCumulativeUsage.
    destruct (for_down _ _ _) as [r|] eqn:E.
    + intros [= <-]. apply for_down_Some_inv in E as (_ & x & _ & _ & Hx & _).
      by apply cumulativeUsageAt_Some_inv in Hx as (o & _ & _ & Hn).
    + rewrite sumStep_fold, addUsage_zero_l by done. simpl.
      destruct (existsb _ _) eqn:Hex; [|discriminate]. intros [= <-].
      by rewrite nontrivial_sum by (by apply normalized_all_nonneg).
  - intros E. apply for_down_Some_inv in E as (_ & x & _ & _ & Hx & _).
    unfold currentUsageAt in Hx. destruct (negb _); [discriminate|].
    destruct (nontrivial _) eqn:Hn; [|discriminate]. by injection Hx as <-.
Qed.

Lemma hook_percentage (messages : list (gmap string JsValue))
    (model engine : option string) :
  percentage (hook messages model engine)
  = percentageOf (currentTokens (hook messages model engine))
                 (contextWindowSize (hook messages model engine)).
Proof.
  destruct (extract messages engine) as [u|] eqn:E.
  - by rewrite (hook_data _ _ _ _ model _ _ E).
  - rewrite hook_no_data by done. simpl. by rewrite percentageOf_zero.
Qed.

Lemma hook_currentTokens_nonneg (messages : list (gmap string JsValue))
    (model engine : option string) :
  nonnegative normalizeRawUsage ->
  0 <= currentTokens (hook messages model engine).
Proof.
  intros Hnn. destruct (extract messages engine) as [u|] eqn:E.
  - rewrite (hook_data _ _ _ _ model _ _ E). simpl.
    apply (extract_nonneg _ _ _ _ Hnn) in E. destruct E as (?&?&?&?). lia.
  - by rewrite hook_no_data.
Qed.

Lemma fold_left_fmap {S T U : Type} (g : S -> T -> S) (f : U -> T)
    (l : list U) (a : S) :
  fold_left g (f <$> l) a = fold_left (fun a x => g a (f x)) l a.
Proof. revert a. induction l as [|x l IH]; intros a; simpl; [done|apply IH]. Qed.

Lemma fold_left_ext {S T : Type} (g g' : S -> T -> S) (l : list T) (a : S) :
  (forall a x, g a x = g' a x) -> fold_left g l a = fold_left g' l a.
Proof.
  intros H. revert a. induction l as [|x l IH]; intros a; simpl; [done|].
  by rewrite H, IH.
Qed.

(** X1.  A result that reports data has a positive count in its
    breakdown: the extractors never return an all-zero usage. *)
Theorem reported_usage_has_positive_count
    (messages : list (gmap string JsValue)) (model engine : option string) :
  nonnegative normalizeRawUsage ->
  hasData (hook messages model engine) = true ->
  let b := breakdown (hook messages model engine) in
  0 < inputTokens b \/ 0 < outputTokens b \/
  0 < cacheCreationTokens b \/ 0 < cacheReadTokens b.
Proof.
  intros Hnn Hd b.
  assert (nontrivial b = true) as Hn.
  { subst b. destruct (hook_cases normalizeRawUsage getContextWindowSize
                         getUsageLevel messages model engine)
      as [[_ Hdef]|(u & E & _ & Hb)].
    - rewrite Hdef in Hd. discriminate.
    - rewrite Hb. by eapply extract_nontrivial. }
  unfold nontrivial in Hn. rewrite !orb_true_iff, !Z.ltb_lt in Hn. tauto.
Qed.

(** X2.  On a conversation continued by further messages the generic
    extractor returns what it returns on the continuation and, when that
    has no usage data, what it returns on the conversation before. *)
Theorem extractCurrentUsage_concat
    (earlier later : list (gmap string JsValue)) (engine : option string) :
  extractCurrent (earlier ++ later) engine
  = match extractCurrent later engine with
    | Some u => Some u
    | None => extractCurrent earlier engine
    end.
Proof. apply for_down_concat. Qed.

(** X3.  For an engine other than Codex, messages without usage data at
    the end of a conversation leave the whole result unchanged. *)
Theorem trailing_messages_without_usage
    (earlier later : list (gmap string JsValue)) (model engine : option string) :
  engine <> Some "codex" ->
  extractCurrent later engine = None ->
  hook (earlier ++ later) model engine = hook earlier model engine.
Proof.
  intros He Hl.
  assert (extract (earlier ++ later) engine = extract earlier engine) as Hx.
  { unfold extractUsage. rewrite (bool_decide_eq_false_2 _ He).
    unfold extractCurrentUsage. rewrite for_down_concat.
    unfold extractCurrentUsage in Hl. by rewrite Hl. }
  assert (resolve (earlier ++ later) model engine = resolve earlier model engine)
    as Hr by (by rewrite !resolve_generic).
  destruct (extract earlier engine) as [u|] eqn:E.
  - by rewrite (hook_data _ _ _ _ model _ _ Hx), (hook_data _ _ _ _ model _ _ E), Hr.
  - by rewrite !hook_no_data, Hr.
Qed.

(** X4.  Whatever the generic extractor returns is the normalized usage of
    a message of the list that has a positive count, and no later message
    has one; when it returns nothing, no message has one. *)
Theorem extractCurrentUsage_sound
    (messages : list (gmap string JsValue)) (engine : option string) :
  engine <> Some "codex" ->
  (forall u, extractCurrent messages engine = Some u ->
     exists (pre post : list (gmap string JsValue)) (msg o : gmap string JsValue),
       messages = pre ++ msg :: post /\
       usageOf msg = JObject o /\ u = normalized (JObject o) /\
       nontrivial u = true /\
       Forall (fun later => forall o', usageOf later = JObject o' ->
                 nontrivial (normalized (JObject o')) = false) post) /\
  (extractCurrent messages engine = None ->
   Forall (fun msg => forall o', usageOf msg = JObject o' ->
             nontrivial (normalized (JObject o')) = false) messages).
Proof.
  intros He. split.
  - intros u H. apply for_down_Some_inv in H as (pre & msg & post & -> & Hm & Hp).
    apply currentUsageAt_Some_inv in Hm as (o & Ho & -> & Hn); [|done].
    exists pre, post, msg, o. repeat split; try done.
    eapply Forall_impl; [exact Hp|]. intros later Hl o' Ho'.
    exact (currentUsageAt_None_inv engine later o' He Hl Ho').
  - intros H. apply for_down_None_inv in H.
    eapply Forall_impl; [exact H|]. intros msg Hm o' Ho'.
    exact (currentUsageAt_None_inv engine msg o' He Hm Ho').
Qed.

(** X5.  Without a snapshot the Codex extractor does not depend on the
    order of the messages. *)
Theorem codex_fallback_order_independent
    (messages messages' : list (gmap string JsValue)) :
  nonnegative normalizeRawUsage ->
  Forall snapshotFree messages ->
  messages ≡ₚ messages' ->
  extractCodex messages = extractCodex messages'.
Proof.
  intros Hnn Hno Hp.
  assert (Forall snapshotFree messages') as Hno'.
  { rewrite Forall_forall in *. intros m Hm. apply Hno. by rewrite Hp. }
  rewrite !codex_fallback_formula by done.
  assert (normalized <$> omap directUsageOf messages
          ≡ₚ normalized <$> omap directUsageOf messages') as Hd
    by (by rewrite Hp).
  by rewrite (existsb_Permutation _ _ _ Hd), (sumUsage_Permutation _ _ Hd).
Qed.

(** X6.  Without a snapshot the Codex extractor adds up over the parts of
    a conversation. *)
Theorem codex_fallback_concat
    (earlier later : list (gmap string JsValue)) :
  nonnegative normalizeRawUsage ->
  Forall snapshotFree (earlier ++ later) ->
  extractCodex (earlier ++ later)
  = match extractCodex earlier, extractCodex later with
    | Some a, Some b => Some (addUsage a b)
    | Some a, None => Some a
    | None, Some b => Some b
    | None, None => None
    end.
Proof.
  intros Hnn Hno. pose proof Hno as [Hno1 Hno2]%Forall_app.
  rewrite !codex_fallback_formula by done.
  rewrite omap_app, fmap_app, existsb_app, sumUsage_app.
  set (d1 := normalized <$> omap directUsageOf earlier).
  set (d2 := normalized <$> omap directUsageOf later).
  assert (forall d, Forall nonnegUsage d -> existsb nontrivial d = false ->
                    sumUsage d = zeroUsage) as Hz.
  { intros d Hd Hex. apply nontrivial_false_zero; [by apply nonnegUsage_sum|].
    by rewrite nontrivial_sum. }
  pose proof (normalized_all_nonneg (omap directUsageOf earlier) Hnn) as H1.
  pose proof (normalized_all_nonneg (omap directUsageOf later) Hnn) as H2.
  fold d1 in H1. fold d2 in H2.
  destruct (existsb nontrivial d1) eqn:E1; destruct (existsb nontrivial d2) eqn:E2;
    simpl; try done.
  - by rewrite (Hz d2), addUsage_zero_r.
  - by rewrite (Hz d1), addUsage_zero_l.
Qed.

(** X7.  For a positive window the percentage is 100 exactly when the
    current tokens reach the window size (token counts and window sizes being
    safe integers). *)
Theorem percentage_saturates
    (messages : list (gmap string JsValue)) (model engine : option string) :
  let r := hook messages model engine in
  0 < contextWindowSize r ->
  safe_integer (contextWindowSize r) -> safe_integer (currentTokens r) ->
  (percentage r = Number 100 <-> contextWindowSize r <= currentTokens r).
Proof.
  intros r Hw Hsw Hsc. subst r. rewrite hook_percentage.
  apply percentageOf_full; [done|]. unfold safe_integer in Hsw. lia.
Qed.

(** X8.  Of two results for the same window size the one with more current
    tokens has the larger percentage (token counts and window sizes being
    safe integers). *)
Theorem percentage_monotone
    (messages messages' : list (gmap string JsValue))
    (model model' engine engine' : option string) :
  let r := hook messages model engine in
  let r' := hook messages' model' engine' in
  contextWindowSize r = contextWindowSize r' ->
  currentTokens r <= currentTokens r' ->
  safe_integer (contextWindowSize r) ->
  safe_integer (currentTokens r) -> safe_integer (currentTokens r') ->
  Number_le (percentage r) (percentage r').
Proof.
  intros r r' Hw Hc Hsw Hsc Hsc'. subst r r'. rewrite !hook_percentage, <-Hw.
  apply percentageOf_mono; [done|done| |done]. unfold safe_integer in Hsw. lia.
Qed.

(** X9.  In every result, with data or without, the formatted tokens are
    the current tokens and the window size, each written by [formatK]. *)
Theorem formattedTokens_uniform
    (messages : list (gmap string JsValue)) (model engine : option string) :
  let r := hook messages model engine in
  formattedTokens r
  = formatK (currentTokens r) +:+ " / " +:+ formatK (contextWindowSize r).
Proof.
  intros r. subst r. destruct (extract messages engine) as [u|] eqn:E.
  - by rewrite (hook_data _ _ _ _ model _ _ E).
  - by rewrite hook_no_data.
Qed.

(** X10.  For an engine other than Codex the result depends on the
    messages through their [usage] and [message] fields only. *)
Theorem generic_reads_usage_fields_only
    (f : gmap string JsValue -> gmap string JsValue)
    (messages : list (gmap string JsValue)) (model engine : option string) :
  engine <> Some "codex" ->
  (forall msg, prop (f msg) "usage" = prop msg "usage" /\
               prop (f msg) "message" = prop msg "message") ->
  hook (f <$> messages) model engine = hook messages model engine.
Proof.
  intros He Hf.
  assert (extract (f <$> messages) engine = extract messages engine) as Hx.
  { unfold extractUsage. rewrite (bool_decide_eq_false_2 _ He).
    unfold extractCurrentUsage. rewrite for_down_fmap. apply for_down_ext.
    intros msg. unfold currentUsageAt.
    rewrite !getUsageCandidate_generic by done. unfold usageOf.
    destruct (Hf msg) as [-> ->]. done. }
  assert (resolve (f <$> messages) model engine = resolve messages model engine)
    as Hr by (by rewrite !resolve_generic).
  destruct (extract messages engine) as [u|] eqn:E.
  - by rewrite (hook_data _ _ _ _ model _ _ Hx), (hook_data _ _ _ _ model _ _ E), Hr.
  - by rewrite !hook_no_data, Hr.
Qed.

(** X11.  For the Codex engine the result depends on the messages through
    their [usage] and [codexMetadata] fields only; a usage nested under
    [message] is never read. *)
Theorem codex_reads_usage_and_metadata_only
    (f : gmap string JsValue -> gmap string JsValue)
    (messages : list (gmap string JsValue)) (model : option string) :
  (forall msg, prop (f msg) "usage" = prop msg "usage" /\
               prop (f msg) "codexMetadata" = prop msg "codexMetadata") ->
  hook (f <$> messages) model (Some "codex") = hook messages model (Some "codex").
Proof.
  intros Hf.
  assert (extract (f <$> messages) (Some "codex") = extract messages (Some "codex"))
    as Hx.
  { unfold extractUsage. simpl. unfold extractCodexCumulativeUsage.
    rewrite for_down_fmap.
    rewrite (for_down_ext _ (cumulativeUsageAt normalizeRawUsage)).
    2:{ intros msg. unfold cumulativeUsageAt. by destruct (Hf msg) as [_ ->]. }
    rewrite fold_left_fmap.
    rewrite (fold_left_ext _ (sumStep normalizeRawUsage)); [done|].
    intros acc msg. unfold sumStep. by destruct (Hf msg) as [-> ->]. }
  assert (resolve (f <$> messages) model (Some "codex")
          = resolve messages model (Some "codex")) as Hr.
  { unfold resolveContextWindowSize. simpl. rewrite for_down_fmap.
    rewrite (for_down_ext _ runtimeContextWindowAt); [done|].
    intros msg. unfold runtimeContextWindowAt. by destruct (Hf msg) as [_ ->]. }
  destruct (extract messages (Some "codex")) as [u|] eqn:E.
  - by rewrite (hook_data _ _ _ _ model _ _ Hx), (hook_data _ _ _ _ model _ _ E), Hr.
  - by rewrite !hook_no_data, Hr.
Qed.

End Extras.

(** ** [formatK] in integer arithmetic *)

(** X12.  Away from the ties of the rounding, [formatK] is integer
    arithmetic: the count plus half a unit of the last digit shown,
    divided, with a point before the last digit. *)
Theorem formatK_integer_arithmetic (n : Z) :
  (1000 <= n < 1000000 -> n mod 100 <> 50 ->
   formatK n = pretty ((n + 50) / 1000) +:+ "."
               +:+ pretty ((n + 50) / 100 mod 10) +:+ "K") /\
  (1000000 <= n -> safe_integer n -> n mod 100000 <> 50000 ->
   formatK n = pretty ((n + 50000) / 1000000) +:+ "."
               +:+ pretty ((n + 50000) / 100000 mod 10) +:+ "M").
Proof.
  unfold formatK. split.
  - intros Hn Hne. destruct (Z.leb_spec 1000000 n); [lia|].
    destruct (Z.leb_spec 1000 n); [|lia].
    destruct (tenths_of_quotient n 1000 50 ltac:(lia) ltac:(lia)
                ltac:(lia) ltac:(lia)) as (t & -> & Ht).
    assert (t = (n + 50) / 100) as -> by (Z.div_mod_to_equations; lia).
    replace ((n + 50) / 100 / 10) with ((n + 50) / 1000)
      by (Z.div_mod_to_equations; lia).
    by rewrite !append_assoc.
  - intros Hn Hs Hne. unfold safe_integer in Hs.
    destruct (Z.leb_spec 1000000 n); [|lia].
    destruct (tenths_of_quotient n 1000000 50000 ltac:(lia) ltac:(lia)
                ltac:(lia) ltac:(lia)) as (t & -> & Ht).
    assert (t = (n + 50000) / 100000) as -> by (Z.div_mod_to_equations; lia).
    replace ((n + 50000) / 100000 / 10) with ((n + 50000) / 1000000)
      by (Z.div_mod_to_equations; lia).
    by rewrite !append_assoc.
Qed.

(** X13.  Just below a million the rounding carries over the threshold of
    the branch: the count is written as 1000.0K, not as 1.0M. *)
Theorem formatK_carries_past_threshold (n : Z) :
  999950 < n < 1000000 -> formatK n = "1000.0K".
Proof.
  intros Hn. unfold formatK.
  destruct (Z.leb_spec 1000000 n); [lia|].
  destruct (Z.leb_spec 1000 n); [|lia].
  destruct (tenths_of_quotient n 1000 50 ltac:(lia) ltac:(lia)
              ltac:(lia) ltac:(lia)) as (t & -> & Ht).
  by assert (t = 10000) as -> by lia.
Qed.

(** * lib/utils.ts *)

(** X14.  The total of a normalized usage counts every quantity once,
    though the record carries each cache count under two names: it is the
    sum of the four counts of the indicator, that is, the current tokens of
    the context window plus the output tokens. *)
Theorem calculateTotalTokens_of_normalized
    (normalizeRawUsage : JsValue -> TokenExtractor.StandardizedTokenUsage)
    (raw : JsValue) :
  let u := normalizeUsageForIndicator normalizeRawUsage raw in
  calculateTotalTokens (normalizeUsageData normalizeRawUsage raw)
  = (inputTokens u + cacheCreationTokens u + cacheReadTokens u)
    + outputTokens u /\
  cache_creation_input_tokens (normalizeUsageData normalizeRawUsage raw)
  = cacheCreationTokens u /\
  cache_read_input_tokens (normalizeUsageData normalizeRawUsage raw)
  = cacheReadTokens u.
Proof.
  unfold calculateTotalTokens, normalizeUsageForIndicator, normalizeUsageData.
  simpl. rewrite !or_zero_id. repeat split. lia.
Qed.

(** ** [trim] *)

Lemma trimStart_nil (s : list N) :
  trimStart s = [] <-> forallb isWhiteSpace s = true.
Proof.
  induction s as [|c s IH]; simpl; [done|].
  destruct (isWhiteSpace c); simpl; [done|]. split; discriminate.
Qed.

Lemma trimStart_head (s : list N) (c : N) (rest : list N) :
  trimStart s = c :: rest -> isWhiteSpace c = false.
Proof.
  induction s as [|d s IH]; simpl; [discriminate|].
  destruct (isWhiteSpace d) eqn:E; [done|]. by intros [= <- _].
Qed.

Lemma forallb_rev {A : Type} (p : A -> bool) (l : list A) :
  forallb p (rev l) = forallb p l.
Proof.
  induction l as [|x l IH]; simpl; [done|].
  rewrite forallb_app, IH. simpl. rewrite andb_true_r. apply andb_comm.
Qed.

Lemma forallb_false_In {A : Type} (p : A -> bool) (l : list A) :
  forallb p l = false -> exists x, In x l /\ p x = false.
Proof.
  induction l as [|x l IH]; simpl; [discriminate|].
  destruct (p x) eqn:E; simpl.
  - intros (y & Hy & Hp)%IH. eauto.
  - intros _. eauto.
Qed.

(** Trimming leaves nothing exactly of the strings of white space. *)
Lemma trim_nil (s : list N) : trim s = [] <-> forallb isWhiteSpace s = true.
Proof.
  unfold trim, trimEnd. rewrite <-trimStart_nil. split.
  - intros H. apply (f_equal (@rev N)) in H. rewrite rev_involutive in H.
    simpl in H. apply trimStart_nil in H. rewrite forallb_rev in H.
    destruct (trimStart s) as [|c rest] eqn:E; [done|].
    apply trimStart_head in E. simpl in H. by rewrite E in H.
  - by intros ->.
Qed.

Lemma notBlank_spec (s : list N) :
  notBlank s = true <-> exists c, In c s /\ isWhiteSpace c = false.
Proof.
  unfold notBlank. split.
  - intros H. destruct (forallb isWhiteSpace s) eqn:E.
    + apply trim_nil in E. by rewrite E in H.
    + apply forallb_false_In in E.
      destruct E as (c & Hin & Hc). by exists c.
  - intros (c & Hin & Hc). destruct (trim s) eqn:E; [|done].
    apply trim_nil in E. rewrite forallb_forall in E.
    by rewrite (E c Hin) in Hc.
Qed.

(** The test for the empty string before [trim] adds nothing. *)
Lemma nonEmpty_notBlank (s : list N) : nonEmpty s && notBlank s = notBlank s.
Proof.
  destruct s; [done|reflexivity].
Qed.

(** ** Session validation *)

(** A string with a character that is not white space. *)
#[local] Abbreviation hasText :=
  (fun s : list N => exists c, In c s /\ isWhiteSpace c = false).

Lemma textual_spec (s : list N) : nonEmpty s && notBlank s = true <-> hasText s.
Proof. rewrite nonEmpty_notBlank. apply notBlank_spec. Qed.

(** X15.  A session is valid exactly when its id has a character that is
    not white space and either its first message has one too or it is a
    Codex session. *)
Theorem isValidSession_spec (session : Sessions.ValidatableSession) :
  Sessions.isValidSession session = true <->
  (exists c, In c (Sessions.id session) /\ isWhiteSpace c = false) /\
  ((exists message, Sessions.first_message session = Some message /\
      exists c, In c message /\ isWhiteSpace c = false)
   \/ Sessions.engine session = Some Sessions.codex).
Proof.
  unfold Sessions.isValidSession.
  rewrite andb_true_iff, orb_true_iff, textual_spec, bool_decide_eq_true.
  apply and_iff_compat_l, or_iff_compat_r.
  destruct (Sessions.first_message session) as [message|].
  - rewrite textual_spec. split; [by eauto|]. by intros (m & [= <-] & H).
  - split; [discriminate|]. by intros (m & [=] & _).
Qed.

(** X16.  On a session that is not a Codex session the validation of
    Gemini sessions agrees with the general one. *)
Theorem isValidGeminiSession_agrees
    (session : Sessions.ValidatableGeminiSession)
    (engine : option Sessions.Engine) :
  engine <> Some Sessions.codex ->
  Sessions.isValidGeminiSession session
  = Sessions.isValidSession
      {| Sessions.id := Sessions.sessionId session;
         Sessions.first_message := Sessions.firstMessage session;
         Sessions.engine := engine |}.
Proof.
  intros He. unfold Sessions.isValidGeminiSession, Sessions.isValidSession.
  simpl. rewrite (bool_decide_eq_false_2 _ He). by rewrite orb_false_r.
Qed.

(** X17.  [filterValidSessions] keeps the valid sessions and nothing else,
    in their order, and filtering a second time changes nothing. *)
Theorem filterValidSessions_spec {T : Type}
    (fields : T -> Sessions.ValidatableSession) (sessions : list T) :
  (forall session,
      In session (Sessions.filterValidSessions fields sessions) <->
      In session sessions /\ Sessions.isValidSession (fields session) = true) /\
  sublist (Sessions.filterValidSessions fields sessions) sessions /\
  Sessions.filterValidSessions fields
    (Sessions.filterValidSessions fields sessions)
  = Sessions.filterValidSessions fields sessions.
Proof.
  unfold Sessions.filterValidSessions. split; [|split].
  - intros session. apply filter_In.
  - induction sessions as [|x l IH]; simpl; [constructor|].
    destruct (Sessions.isValidSession (fields x)); by constructor.
  - induction sessions as [|x l IH]; simpl; [done|].
    destruct (Sessions.isValidSession (fields x)) eqn:E; simpl; [|done].
    by rewrite E, IH.
Qed.

(** X18.  The three engine filters of the session list split the valid
    sessions: every valid session is shown under exactly one of them, so
    their counts add up to the count under "all"; a session without an
    engine is a Claude session. *)
Theorem engine_filters_partition {T : Type}
    (fields : T -> Sessions.ValidatableSession) (sessions : list T) :
  Sessions.filteredSessions fields Sessions.FilterAll sessions
  = Sessions.filterValidSessions fields sessions /\
  length (Sessions.filteredSessions fields Sessions.FilterAll sessions)
  = (length (Sessions.filteredSessions fields Sessions.FilterClaude sessions)
     + length (Sessions.filteredSessions fields Sessions.FilterCodex sessions)
     + length (Sessions.filteredSessions fields Sessions.FilterGemini sessions))%nat /\
  (forall session,
      Sessions.engine session = None ->
      Sessions.matchesFilter Sessions.FilterClaude session = true).
Proof.
  unfold Sessions.filteredSessions. split; [|split].
  - generalize (Sessions.filterValidSessions fields sessions).
    induction l as [|x l IH]; simpl; [done|by f_equal].
  - generalize (Sessions.filterValidSessions fields sessions).
    induction l as [|x l IH]; [done|].
    cbn [List.filter Sessions.matchesFilter].
    destruct (Sessions.engine (fields x)) as [[]|]; cbn [length bool_decide];
      simpl in *; lia.
  - intros session H. unfold Sessions.matchesFilter. by rewrite H.
Qed.

(** ** The pages of the session list *)

Lemma Math_ceil_div_pos (a : Z) (p : positive) :
  Math_ceil_div a (Z.pos p) = - ((- a) / Z.pos p).
Proof.
  unfold Math_ceil_div.
  transitivity (Qceiling (a # p)); [|reflexivity].
  apply Qceiling_comp. simpl. rewrite !Qred_correct.
  unfold Qeq, Qmult, Qinv, inject_Z. simpl. lia.
Qed.

Lemma totalPages_eq {T : Type} (l : list T) :
  Sessions.totalPages l = (Z.of_nat (length l) + 19) / 20.
Proof.
  unfold Sessions.totalPages, Sessions.ITEMS_PER_PAGE.
  rewrite Math_ceil_div_pos. Z.div_mod_to_equations. lia.
Qed.

Lemma take_add_drop {A : Type} (l : list A) (n m : nat) :
  take (n + m) l = take n l ++ take m (drop n l).
Proof.
  revert l. induction n as [|n IH]; intros l; simpl; [done|].
  destruct l as [|x l]; simpl; [by rewrite take_nil|]. by rewrite IH.
Qed.

(** A page from the first on: twenty sessions after those of the pages
    before. *)
Lemma currentSessions_take_drop {T : Type} (l : list T) (page : Z) :
  1 <= page ->
  Sessions.currentSessions l page
  = take 20 (drop (20 * Z.to_nat (page - 1)) l).
Proof.
  intros Hp. unfold Sessions.currentSessions, Sessions.ITEMS_PER_PAGE, slice.
  destruct (Z.ltb_spec ((page - 1) * 20) 0); [lia|].
  destruct (Z.ltb_spec ((page - 1) * 20 + 20) 0); [lia|].
  destruct (decide (Z.of_nat (length l) <= (page - 1) * 20)) as [Hout|Hin].
  - rewrite !drop_ge by lia. by rewrite !take_nil.
  - replace (Z.to_nat (Z.min ((page - 1) * 20) (Z.of_nat (length l))))
      with (20 * Z.to_nat (page - 1))%nat by lia.
    destruct (decide ((page - 1) * 20 + 20 <= Z.of_nat (length l))) as [Hfull|Hpart].
    + f_equal. lia.
    + rewrite (take_ge (drop _ _) 20) by (rewrite length_drop; lia).
      apply take_ge. rewrite length_drop. lia.
Qed.

Lemma pages_take {T : Type} (l : list T) (n : nat) :
  concat ((fun i : nat => Sessions.currentSessions l (Z.of_nat i + 1)) <$> seq 0 n)
  = take (20 * n) l.
Proof.
  induction n as [|n IH]; [done|].
  rewrite seq_S, fmap_app, concat_app, IH. cbn -[Nat.mul Sessions.currentSessions].
  rewrite currentSessions_take_drop by lia. rewrite app_nil_r.
  replace (20 * S n)%nat with (20 * n + 20)%nat by lia.
  rewrite take_add_drop. do 3 f_equal. lia.
Qed.

(** X19.  The pages 1 to [totalPages] of the session list, one after the
    other, are the whole list: no session is left out or shown twice, and
    no page has more than twenty sessions. *)
Theorem pages_cover_sessions {T : Type} (sortedSessions : list T) :
  concat (Sessions.currentSessions sortedSessions
            <$> seqZ 1 (Sessions.totalPages sortedSessions))
  = sortedSessions /\
  (forall currentPage,
      (length (Sessions.currentSessions sortedSessions currentPage) <= 20)%nat).
Proof.
  split.
  - unfold seqZ. rewrite <-list_fmap_compose.
    rewrite (pages_take sortedSessions). apply take_ge.
    rewrite totalPages_eq. Z.div_mod_to_equations. lia.
  - intros page.
    unfold Sessions.currentSessions, Sessions.ITEMS_PER_PAGE, slice.
    rewrite length_take.
    destruct (Z.ltb_spec ((page - 1) * 20) 0);
      destruct (Z.ltb_spec ((page - 1) * 20 + 20) 0); lia.
Qed.

(** X20.  From the first page on, a page shows a session exactly when its
    number is at most [totalPages]; a list without sessions has no page. *)
Theorem page_nonempty_iff {T : Type} (sortedSessions : list T) (currentPage : Z) :
  1 <= currentPage ->
  (Sessions.currentSessions sortedSessions currentPage <> []
   <-> currentPage <= Sessions.totalPages sortedSessions) /\
  (sortedSessions = [] -> Sessions.totalPages sortedSessions = 0).
Proof.
  intros Hp. split.
  - rewrite currentSessions_take_drop, totalPages_eq by done.
    assert (forall l : list T, take 20 l <> [] <-> l <> []) as Ht
      by (intros [|x l]; simpl; split; congruence).
    rewrite Ht.
    assert (forall (l : list T) (k : nat), drop k l <> [] <-> (k < length l)%nat)
      as Hd.
    { intros l k. split.
      - intros H. destruct (decide (k < length l)%nat); [done|].
        destruct H. apply drop_ge. lia.
      - intros H E. apply (f_equal length) in E. rewrite length_drop in E.
        simpl in E. lia. }
    rewrite Hd. Z.div_mod_to_equations. lia.
  - intros ->. by rewrite totalPages_eq.
Qed.

(** * Slash commands *)

Lemma startsWith_spec (p s : list N) :
  startsWith p s = true <-> exists post, s = p ++ post.
Proof.
  revert s. induction p as [|a p IH]; intros s; simpl.
  - split; [by eauto|done].
  - destruct s as [|b s]; [split; [discriminate|by intros [post [=]]]|].
    rewrite andb_true_iff, N.eqb_eq, IH. split.
    + intros [-> [post ->]]. by exists post.
    + intros [post [= -> ->]]. eauto.
Qed.

(** [includes] finds the occurrences of a string in another. *)
Lemma includes_spec (s p : list N) :
  includes s p = true <-> exists pre post, s = pre ++ p ++ post.
Proof.
  induction s as [|b s IH]; simpl.
  - rewrite orb_false_r, startsWith_spec. split.
    + intros [post H]. by exists [], post.
    + intros (pre & post & H). destruct pre; [by exists post|discriminate].
  - rewrite orb_true_iff, startsWith_spec, IH. split.
    + intros [[post H]|(pre & post & ->)].
      * by exists [], post.
      * by exists (b :: pre), post.
    + intros ([|c pre] & post & H).
      * left. by exists post.
      * right. injection H as -> ->. by exists pre, post.
Qed.

Section SlashCommandFilter.
Variable toLowerCase : list N -> list N.

#[local] Abbreviation filterCommands :=
  (SlashCommands.filterSlashCommands toLowerCase).

Lemma filter_filter {A : Type} (p q : A -> bool) (l : list A) :
  List.filter q (List.filter p l) = List.filter (fun x => p x && q x) l.
Proof.
  induction l as [|x l IH]; simpl; [done|].
  destruct (p x); simpl; [|done]. destruct (q x); by rewrite IH.
Qed.

Lemma filter_true {A : Type} (l : list A) : List.filter (fun _ => true) l = l.
Proof. induction l as [|x l IH]; simpl; [done|by f_equal]. Qed.

Lemma filter_ext_bool {A : Type} (p q : A -> bool) (l : list A) :
  (forall x, p x = q x) -> List.filter p l = List.filter q l.
Proof.
  intros H. induction l as [|x l IH]; simpl; [done|]. by rewrite H, IH.
Qed.

Lemma filterSlashCommands_keeps (commands : list SlashCommands.SlashCommand)
    (query : list N) (nonInteractiveOnly : bool) :
  filterCommands commands query nonInteractiveOnly
  = List.filter (SlashCommands.keeps toLowerCase query nonInteractiveOnly)
                commands.
Proof.
  unfold SlashCommands.filterSlashCommands, SlashCommands.keeps.
  destruct nonInteractiveOnly, (nonEmpty query); simpl.
  - rewrite filter_filter. apply filter_ext_bool. intros cmd.
    by destruct (SlashCommands.supportsNonInteractive cmd).
  - apply filter_ext_bool. intros cmd. by rewrite andb_true_r.
  - done.
  - by rewrite filter_true.
Qed.

(** X21.  [filterSlashCommands] keeps, in their order, the commands that
    support the non-interactive mode when that is asked for and, for a
    query that is not empty, have the query in lower case in their name or
    their description in lower case; filtering the result again with the
    same query and flag changes nothing, and an empty query without the
    flag returns the commands as they are. *)
Theorem filterSlashCommands_spec (commands : list SlashCommands.SlashCommand)
    (query : list N) (nonInteractiveOnly : bool) :
  (forall cmd,
      In cmd (filterCommands commands query nonInteractiveOnly) <->
      In cmd commands /\
      (nonInteractiveOnly = true ->
       SlashCommands.supportsNonInteractive cmd = true) /\
      (query <> [] ->
       (exists pre post,
           toLowerCase (SlashCommands.name cmd)
           = pre ++ toLowerCase query ++ post) \/
       (exists pre post,
           toLowerCase (SlashCommands.description cmd)
           = pre ++ toLowerCase query ++ post))) /\
  sublist (filterCommands commands query nonInteractiveOnly) commands /\
  filterCommands (filterCommands commands query nonInteractiveOnly)
                 query nonInteractiveOnly
  = filterCommands commands query nonInteractiveOnly /\
  filterCommands commands [] false = commands.
Proof.
  rewrite !filterSlashCommands_keeps. split_and!.
  - intros cmd. rewrite filter_In. apply and_iff_compat_l.
    unfold SlashCommands.keeps.
    rewrite andb_true_iff, !orb_true_iff, !includes_spec, !negb_true_iff.
    destruct nonInteractiveOnly, query as [|c query]; simpl; intuition congruence.
  - induction commands as [|x l IH]; simpl; [constructor|].
    destruct (SlashCommands.keeps _ _ _ x); by constructor.
  - rewrite filter_filter. apply filter_ext_bool. intros cmd.
    by destruct (SlashCommands.keeps _ _ _ cmd).
  - apply filter_true.
Qed.

End SlashCommandFilter.

(** ** Grouping by category *)

Section MapFacts.
Context {K V : Type} `{EqDecision K}.

Lemma Map_get_set (m : list (K * V)) (k k' : K) (v : V) :
  Map_get (Map_set m k v) k' = if decide (k = k') then Some v else Map_get m k'.
Proof.
  induction m as [|[k0 v0] m IH]; simpl.
  - by destruct (decide (k = k')).
  - destruct (decide (k0 = k)) as [->|Hne]; simpl.
    + by destruct (decide (k = k')).
    + destruct (decide (k0 = k')) as [->|Hne'].
      * by rewrite decide_False by congruence.
      * apply IH.
Qed.

Lemma Map_set_keys (m : list (K * V)) (k : K) (v : V) :
  fst <$> Map_set m k v
  = if decide (k ∈ fst <$> m) then fst <$> m else (fst <$> m) ++ [k].
Proof.
  induction m as [|[k0 v0] m IH]; cbn [Map_set].
  - rewrite decide_False; [done|]. by intros ?%elem_of_nil.
  - destruct (decide (k0 = k)) as [->|Hne]; rewrite !fmap_cons; cbn [fst].
    + rewrite decide_True; [done|]. by left.
    + rewrite IH. destruct (decide (k ∈ fst <$> m)) as [Hin|Hout].
      * rewrite decide_True; [done|]. by right.
      * rewrite decide_False; [done|].
        intros [?|?]%elem_of_cons; congruence.
Qed.

Lemma Map_get_None (m : list (K * V)) (k : K) :
  Map_get m k = None <-> k ∉ fst <$> m.
Proof.
  induction m as [|[k0 v0] m IH]; simpl.
  - split; [by intros _ ?%elem_of_nil|done].
  - destruct (decide (k0 = k)) as [->|Hne].
    + split; [discriminate|]. intros H. destruct H. by left.
    + rewrite IH, not_elem_of_cons.
      split; [intros H; split; [congruence|done]|by intros [_ H]].
Qed.
End MapFacts.

Section Groups.

#[local] Abbreviation ofCategory c commands :=
  (List.filter (fun cmd => bool_decide (SlashCommands.category cmd = c))
               commands).

Lemma groupStep_get (groups : list (SlashCommands.Category * list SlashCommands.SlashCommand))
    (cmd : SlashCommands.SlashCommand) (c : SlashCommands.Category) :
  Map_get (SlashCommands.groupStep groups cmd) c
  = if decide (SlashCommands.category cmd = c)
    then Some (default [] (Map_get groups c) ++ [cmd])
    else Map_get groups c.
Proof.
  unfold SlashCommands.groupStep. rewrite Map_get_set.
  by destruct (decide _) as [->|].
Qed.

Lemma group_fold_get (commands : list SlashCommands.SlashCommand)
    (groups : list (SlashCommands.Category * list SlashCommands.SlashCommand))
    (c : SlashCommands.Category) :
  Map_get (fold_left SlashCommands.groupStep commands groups) c
  = match Map_get groups c, ofCategory c commands with
    | Some l, extra => Some (l ++ extra)
    | None, [] => None
    | None, extra => Some extra
    end.
Proof.
  revert groups. induction commands as [|cmd commands IH]; intros groups.
  - simpl. destruct (Map_get groups c); [by rewrite app_nil_r|done].
  - cbn [fold_left List.filter]. rewrite IH, groupStep_get.
    destruct (decide (SlashCommands.category cmd = c)) as [Hc|Hc].
    + rewrite (bool_decide_eq_true_2 _ Hc).
      destruct (Map_get groups c) as [l|]; simpl.
      * by rewrite <-app_assoc.
      * done.
    + by rewrite (bool_decide_eq_false_2 _ Hc).
Qed.

Lemma groupStep_keys (groups : list (SlashCommands.Category * list SlashCommands.SlashCommand))
    (cmd : SlashCommands.SlashCommand) :
  NoDup (fst <$> groups) -> NoDup (fst <$> SlashCommands.groupStep groups cmd).
Proof.
  intros H. unfold SlashCommands.groupStep. rewrite Map_set_keys.
  destruct (decide _) as [Hin|Hout]; [done|].
  apply NoDup_app. split; [done|]. split.
  - intros k Hk ->%list_elem_of_singleton. done.
  - apply NoDup_singleton.
Qed.

Lemma group_fold_keys (commands : list SlashCommands.SlashCommand)
    (groups : list (SlashCommands.Category * list SlashCommands.SlashCommand)) :
  NoDup (fst <$> groups) ->
  NoDup (fst <$> fold_left SlashCommands.groupStep commands groups).
Proof.
  revert groups. induction commands as [|cmd commands IH]; intros groups H;
    [done|]. simpl. by apply IH, groupStep_keys.
Qed.

Lemma groupStep_values (groups : list (SlashCommands.Category * list SlashCommands.SlashCommand))
    (cmd : SlashCommands.SlashCommand) :
  concat (snd <$> SlashCommands.groupStep groups cmd)
  ≡ₚ concat (snd <$> groups) ++ [cmd].
Proof.
  unfold SlashCommands.groupStep.
  induction groups as [|[k l] groups IH]; cbn [Map_get Map_set]; [done|].
  destruct (decide (k = SlashCommands.category cmd)) as [->|Hne];
    rewrite !fmap_cons; cbn [snd concat default].
  - rewrite <-!app_assoc. apply Permutation_app_head, Permutation_app_comm.
  - rewrite IH. by rewrite app_assoc.
Qed.

Lemma group_fold_values (commands : list SlashCommands.SlashCommand)
    (groups : list (SlashCommands.Category * list SlashCommands.SlashCommand)) :
  concat (snd <$> fold_left SlashCommands.groupStep commands groups)
  ≡ₚ concat (snd <$> groups) ++ commands.
Proof.
  revert groups. induction commands as [|cmd commands IH]; intros groups; simpl.
  - by rewrite app_nil_r.
  - rewrite IH, groupStep_values. by rewrite <-app_assoc.
Qed.

(** X22.  The group of a category is the list of the commands of that
    category in their order, and a category without command has no
    group. *)
Theorem groupCommandsByCategory_get
    (commands : list SlashCommands.SlashCommand) (c : SlashCommands.Category) :
  Map_get (SlashCommands.groupCommandsByCategory commands) c
  = match ofCategory c commands with
    | [] => None
    | group => Some group
    end.
Proof.
  unfold SlashCommands.groupCommandsByCategory. by rewrite group_fold_get.
Qed.

(** X23.  The map of the groups has every category once as a key, and its
    groups together hold every command once. *)
Theorem groupCommandsByCategory_partition
    (commands : list SlashCommands.SlashCommand) :
  NoDup (fst <$> SlashCommands.groupCommandsByCategory commands) /\
  concat (snd <$> SlashCommands.groupCommandsByCategory commands) ≡ₚ commands /\
  (forall c, c ∈ fst <$> SlashCommands.groupCommandsByCategory commands <->
             exists cmd, In cmd commands /\ SlashCommands.category cmd = c).
Proof.
  unfold SlashCommands.groupCommandsByCategory. split_and!.
  - apply group_fold_keys. constructor.
  - by rewrite group_fold_values.
  - intros c. destruct (decide (c ∈ fst <$> fold_left SlashCommands.groupStep commands []))
      as [Hin|Hout].
    + split; [intros _|done].
      destruct (Map_get (fold_left SlashCommands.groupStep commands []) c)
        as [group|] eqn:E; [|by apply Map_get_None in E].
      rewrite group_fold_get in E. simpl in E.
      destruct (ofCategory c commands) as [|cmd rest] eqn:F; [done|].
      assert (In cmd (ofCategory c commands)) as Hc by (rewrite F; simpl; by left).
      apply filter_In in Hc as [Hc1 Hc2]. apply bool_decide_eq_true in Hc2.
      by exists cmd.
    + split; [done|]. intros (cmd & Hc1 & Hc2).
      apply Map_get_None in Hout. rewrite group_fold_get in Hout. simpl in Hout.
      assert (In cmd (ofCategory c commands)) as Hc.
      { apply filter_In. split; [done|]. by apply bool_decide_eq_true. }
      by destruct (ofCategory c commands).
Qed.

End Groups.

(** * The further properties on sample inputs *)

Ltac no_positive_snapshot :=
  repeat constructor;
  let E := fresh "E" in
  intros ? E; vm_compute in E; discriminate E.

(** X1 on [claudeHistory]. *)
Lemma reported_usage_has_positive_count_witness :
  let b := breakdown
             (useContextWindowUsage normalizeRawUsage_model
                sampleContextWindowSize sampleUsageLevel claudeHistory
                (Some "sonnet") (Some "claude")) in
  0 < inputTokens b \/ 0 < outputTokens b \/
  0 < cacheCreationTokens b \/ 0 < cacheReadTokens b.
Proof.
  refine (reported_usage_has_positive_count normalizeRawUsage_model
            sampleContextWindowSize sampleUsageLevel claudeHistory
            (Some "sonnet") (Some "claude") normalizeRawUsage_model_nonneg _).
  vm_compute. reflexivity.
Defined.

(** X3: the two last messages of [claudeHistory] change nothing. *)
Lemma trailing_messages_without_usage_witness :
  useContextWindowUsage normalizeRawUsage_model sampleContextWindowSize
    sampleUsageLevel
    ([nestedMessage (usageObject 7 0 0 0); deltaMessage (usageObject 40 2 0 0)]
     ++ [plainMessage; deltaMessage (usageObject 0 0 0 0)])
    (Some "sonnet") (Some "claude")
  = useContextWindowUsage normalizeRawUsage_model sampleContextWindowSize
      sampleUsageLevel
      [nestedMessage (usageObject 7 0 0 0); deltaMessage (usageObject 40 2 0 0)]
      (Some "sonnet") (Some "claude").
Proof.
  refine (trailing_messages_without_usage normalizeRawUsage_model
            sampleContextWindowSize sampleUsageLevel _ _ _ _ _ _).
  - discriminate.
  - vm_compute. reflexivity.
Defined.

(** X4 on [claudeHistory]: what is returned is the usage of one of its
    messages. *)
Lemma extractCurrentUsage_sound_witness :
  exists (pre post : list (gmap string JsValue)) (msg o : gmap string JsValue),
    claudeHistory = pre ++ msg :: post /\
    usageOf msg = JObject o /\
    {| inputTokens := 40; outputTokens := 2;
       cacheCreationTokens := 0; cacheReadTokens := 0 |}
    = normalizeUsageForIndicator normalizeRawUsage_model (JObject o) /\
    nontrivial {| inputTokens := 40; outputTokens := 2;
                  cacheCreationTokens := 0; cacheReadTokens := 0 |} = true /\
    Forall (fun later => forall o', usageOf later = JObject o' ->
              nontrivial (normalizeUsageForIndicator normalizeRawUsage_model
                            (JObject o')) = false) post.
Proof.
  refine (proj1 (extractCurrentUsage_sound normalizeRawUsage_model
                   claudeHistory (Some "claude") _)
            {| inputTokens := 40; outputTokens := 2;
               cacheCreationTokens := 0; cacheReadTokens := 0 |} _).
  - discriminate.
  - vm_compute. reflexivity.
Defined.

(** X5 on [deltaHistory] with its first two messages exchanged. *)
Lemma codex_fallback_order_independent_witness :
  extractCodexCumulativeUsage normalizeRawUsage_model deltaHistory
  = extractCodexCumulativeUsage normalizeRawUsage_model
      [deltaMessage (usageObject 20 0 0 0);
       deltaMessage (usageObject 10 0 0 0);
       deltaMessage (usageObject 30 0 0 0)].
Proof.
  refine (codex_fallback_order_independent normalizeRawUsage_model
            deltaHistory _ normalizeRawUsage_model_nonneg _ _).
  - no_positive_snapshot.
  - apply perm_swap.
Defined.

(** X6 on [deltaHistory], cut after its first message. *)
Lemma codex_fallback_concat_witness :
  extractCodexCumulativeUsage normalizeRawUsage_model
    ([deltaMessage (usageObject 10 0 0 0)]
     ++ [deltaMessage (usageObject 20 0 0 0); deltaMessage (usageObject 30 0 0 0)])
  = match extractCodexCumulativeUsage normalizeRawUsage_model
            [deltaMessage (usageObject 10 0 0 0)],
          extractCodexCumulativeUsage normalizeRawUsage_model
            [deltaMessage (usageObject 20 0 0 0);
             deltaMessage (usageObject 30 0 0 0)] with
    | Some a, Some b => Some (addUsage a b)
    | Some a, None => Some a
    | None, Some b => Some b
    | None, None => None
    end.
Proof.
  refine (codex_fallback_concat normalizeRawUsage_model _ _
            normalizeRawUsage_model_nonneg _).
  no_positive_snapshot.
Defined.

(** X7 on [windowHistory]: 1500 tokens in a window of 1000. *)
Lemma percentage_saturates_witness :
  let r := useContextWindowUsage normalizeRawUsage_model sampleContextWindowSize
             sampleUsageLevel windowHistory None (Some "codex") in
  percentage r = Number 100 <-> contextWindowSize r <= currentTokens r.
Proof.
  refine (percentage_saturates normalizeRawUsage_model sampleContextWindowSize
            sampleUsageLevel windowHistory None (Some "codex") _ _ _).
  - vm_compute. reflexivity.
  - vm_compute. split; reflexivity.
  - vm_compute. split; reflexivity.
Defined.

(** X8: 130 and 260 tokens in the same window. *)
Lemma percentage_monotone_witness :
  Number_le
    (percentage
       (useContextWindowUsage normalizeRawUsage_model sampleContextWindowSize
          sampleUsageLevel [deltaMessage (usageObject 100 500 20 10)]
          (Some "sonnet") (Some "claude")))
    (percentage
       (useContextWindowUsage normalizeRawUsage_model sampleContextWindowSize
          sampleUsageLevel [deltaMessage (usageObject 200 5 40 20)]
          (Some "opus") None)).
Proof.
  refine (percentage_monotone normalizeRawUsage_model sampleContextWindowSize
            sampleUsageLevel _ _ _ _ _ _ _ _ _ _ _).
  - vm_compute. reflexivity.
  - vm_compute. discriminate.
  - vm_compute. split; reflexivity.
  - vm_compute. split; reflexivity.
  - vm_compute. split; reflexivity.
Defined.

Lemma prop_delete_ne (msg : gmap string JsValue) (k k' : string) :
  k <> k' -> prop (delete k msg) k' = prop msg k'.
Proof. intros H. unfold prop. by rewrite lookup_delete_ne. Qed.

(** X10: for Claude the Codex metadata of the messages can be dropped. *)
Lemma generic_reads_usage_fields_only_witness :
  useContextWindowUsage normalizeRawUsage_model sampleContextWindowSize
    sampleUsageLevel
    (delete "codexMetadata" <$>
       [deltaMessage (usageObject 40 2 0 0);
        snapshotMessage (usageObject 1000 7 0 0);
        windowMessage (JNumber 1000)])
    (Some "sonnet") (Some "claude")
  = useContextWindowUsage normalizeRawUsage_model sampleContextWindowSize
      sampleUsageLevel
      [deltaMessage (usageObject 40 2 0 0);
       snapshotMessage (usageObject 1000 7 0 0);
       windowMessage (JNumber 1000)]
      (Some "sonnet") (Some "claude").
Proof.
  refine (generic_reads_usage_fields_only normalizeRawUsage_model
            sampleContextWindowSize sampleUsageLevel (delete "codexMetadata")
            _ (Some "sonnet") (Some "claude") _ _).
  - discriminate.
  - intros msg. split; by apply prop_delete_ne.
Defined.

(** X11: for Codex the usage nested under [message] can be dropped. *)
Lemma codex_reads_usage_and_metadata_only_witness :
  useContextWindowUsage normalizeRawUsage_model sampleContextWindowSize
    sampleUsageLevel
    (delete "message" <$>
       [nestedMessage (usageObject 7 0 0 0);
        deltaMessage (usageObject 40 2 0 0);
        windowMessage (JNumber 1000)])
    None (Some "codex")
  = useContextWindowUsage normalizeRawUsage_model sampleContextWindowSize
      sampleUsageLevel
      [nestedMessage (usageObject 7 0 0 0);
       deltaMessage (usageObject 40 2 0 0);
       windowMessage (JNumber 1000)]
      None (Some "codex").
Proof.
  refine (codex_reads_usage_and_metadata_only normalizeRawUsage_model
            sampleContextWindowSize sampleUsageLevel (delete "message")
            _ None _).
  intros msg. split; by apply prop_delete_ne.
Defined.

(** X12 on 1234 and on 2 560 000. *)
Lemma formatK_integer_arithmetic_witness :
  formatK 1234 = "1.2K" /\ formatK 2560000 = "2.6M".
Proof.
  split.
  - refine (proj1 (formatK_integer_arithmetic 1234) _ _); [lia|discriminate].
  - refine (proj2 (formatK_integer_arithmetic 2560000) _ _ _);
      [lia|unfold safe_integer; lia|discriminate].
Defined.

(** X13 on 999 999. *)
Lemma formatK_carries_past_threshold_witness : formatK 999999 = "1000.0K".
Proof. refine (formatK_carries_past_threshold 999999 _). lia. Defined.

(** X16 on a Gemini session with the id "g1" and the first message "hi". *)
Lemma isValidGeminiSession_agrees_witness :
  Sessions.isValidGeminiSession
    {| Sessions.sessionId := [103; 49]%N;
       Sessions.firstMessage := Some [104; 105]%N |}
  = Sessions.isValidSession
      {| Sessions.id := [103; 49]%N;
         Sessions.first_message := Some [104; 105]%N;
         Sessions.engine := Some Sessions.gemini |}.
Proof.
  refine (isValidGeminiSession_agrees
            {| Sessions.sessionId := [103; 49]%N;
               Sessions.firstMessage := Some [104; 105]%N |}
            (Some Sessions.gemini) _).
  discriminate.
Defined.

(** X20 on 45 sessions: the third page is the last one. *)
Lemma page_nonempty_iff_witness :
  (Sessions.currentSessions (seq 0 45) 3 <> []
   <-> 3 <= Sessions.totalPages (seq 0 45)) /\
  (seq 0 45 = [] -> Sessions.totalPages (seq 0 45) = 0).
Proof. refine (page_nonempty_iff (seq 0 45) 3 _). lia. Defined.

(** The pages of 45 sessions. *)
Example pages_of_45 :
  Sessions.totalPages (seq 0 45) = 3 /\
  Sessions.currentSessions (seq 0 45) 3 = seq 40 5 /\
  Sessions.currentSessions (seq 0 45) 4 = [] /\
  Sessions.currentSessions (seq 0 45) 0 = [].
Proof. by vm_compute. Qed.

(** A session whose id is white space only is not valid, a Codex session
    without first message is. *)
Example session_examples :
  Sessions.isValidSession
    {| Sessions.id := [32; 9; 160]%N; Sessions.first_message := Some [104]%N;
       Sessions.engine := None |} = false /\
  Sessions.isValidSession
    {| Sessions.id := [49]%N; Sessions.first_message := None;
       Sessions.engine := Some Sessions.codex |} = true /\
  trim [32; 104; 32; 105; 10]%N = [104; 32; 105]%N.
Proof. by vm_compute. Qed.

(** ** What the Codex extractor can return *)

Section CodexSound.
Variable normalizeRawUsage : JsValue -> TokenExtractor.StandardizedTokenUsage.

#[local] Abbreviation normalized := (normalizeUsageForIndicator normalizeRawUsage).
#[local] Abbreviation extractCodex := (extractCodexCumulativeUsage normalizeRawUsage).
#[local] Abbreviation snapshotFree :=
  (fun msg : gmap string JsValue =>
     forall o, snapshotOf msg = JObject o ->
               nontrivial (normalized (JObject o)) = false).

(** X24.  What the Codex extractor returns is either the normalized
    snapshot of a message after which no message has a snapshot with a
    positive count, or, when no message has such a snapshot, the sum of the
    direct usages of the messages that are not tagged as a cumulative
    update; it returns nothing only when there is neither. *)
Theorem extractCodexCumulativeUsage_sound
    (messages : list (gmap string JsValue)) :
  nonnegative normalizeRawUsage ->
  (forall u, extractCodex messages = Some u ->
     (exists (pre post : list (gmap string JsValue)) (msg o : gmap string JsValue),
         messages = pre ++ msg :: post /\
         snapshotOf msg = JObject o /\ u = normalized (JObject o) /\
         nontrivial u = true /\ Forall snapshotFree post)
     \/ (Forall snapshotFree messages /\
         u = sumUsage (normalized <$> omap directUsageOf messages) /\
         nontrivial u = true)) /\
  (extractCodex messages = None ->
   Forall snapshotFree messages /\
   sumUsage (normalized <$> omap directUsageOf messages) = zeroUsage).
Proof.
  intros Hnn.
  destruct (for_down (cumulativeUsageAt normalizeRawUsage) messages
              (length messages)) as [r|] eqn:E.
  - assert (extractCodex messages = Some r) as Hx
      by (unfold extractCodexCumulativeUsage; by rewrite E).
    rewrite Hx. split; [|discriminate]. intros u [= <-]. left.
    apply for_down_Some_inv in E as (pre & msg & post & -> & Hm & Hp).
    apply cumulativeUsageAt_Some_inv in Hm as (o & Ho & -> & Hn).
    exists pre, post, msg, o. repeat split; try done.
    eapply Forall_impl; [exact Hp|]. intros later Hl o' Ho'.
    exact (cumulativeUsageAt_None_inv normalizeRawUsage later o' Hl Ho').
  - assert (Forall snapshotFree messages) as Hfree.
    { apply for_down_None_inv in E. eapply Forall_impl; [exact E|].
      intros msg Hm o' Ho'.
      exact (cumulativeUsageAt_None_inv normalizeRawUsage msg o' Hm Ho'). }
    rewrite (codex_fallback_formula normalizeRawUsage messages Hnn Hfree).
    pose proof (normalized_all_nonneg normalizeRawUsage
                  (omap directUsageOf messages) Hnn) as Hd.
    rewrite <-(nontrivial_sum _ Hd).
    destruct (nontrivial _) eqn:Hn.
    + split; [|discriminate]. intros u [= <-]. right. by repeat split.
    + split; [discriminate|]. intros _. split; [done|].
      apply nontrivial_false_zero; [by apply nonnegUsage_sum|done].
Qed.

End CodexSound.

(** X24 on [snapshotHistory]. *)
Lemma extractCodexCumulativeUsage_sound_witness :
  let u := {| inputTokens := 1000; outputTokens := 7;
              cacheCreationTokens := 0; cacheReadTokens := 0 |} in
  (exists (pre post : list (gmap string JsValue)) (msg o : gmap string JsValue),
      snapshotHistory = pre ++ msg :: post /\
      snapshotOf msg = JObject o /\
      u = normalizeUsageForIndicator normalizeRawUsage_model (JObject o) /\
      nontrivial u = true /\
      Forall (fun later : gmap string JsValue =>
                forall o', snapshotOf later = JObject o' ->
                  nontrivial (normalizeUsageForIndicator normalizeRawUsage_model
                                (JObject o')) = false) post)
  \/ (Forall (fun msg : gmap string JsValue =>
                forall o', snapshotOf msg = JObject o' ->
                  nontrivial (normalizeUsageForIndicator normalizeRawUsage_model
                                (JObject o')) = false) snapshotHistory /\
      u = sumUsage (normalizeUsageForIndicator normalizeRawUsage_model
                      <$> omap directUsageOf snapshotHistory) /\
      nontrivial u = true).
Proof.
  refine (proj1 (extractCodexCumulativeUsage_sound normalizeRawUsage_model
                   snapshotHistory normalizeRawUsage_model_nonneg) _ _).
  vm_compute. reflexivity.
Defined.
